(** * OpenClaw memory governance: the status store and its primitives

    A shallow embedding of [memory-governance-lib.ts], [memory-conflicts.ts]
    and [memory-status-lib.ts]: the audit and validation engine, the conflict
    detector, the advisory file lock and the three-bucket status store; with
    them the helpers of the triage script and of [memory-prune.ts] that work
    on items and buckets, lock names and command lines.

    Conventions of the embedding.
    - A JavaScript string is a [string] of 8-bit code units.
    - A JavaScript number that carries data (an item's [value]) is the 64-bit
      pattern of its IEEE-754 double, as a [Z]; strict equality is defined on
      the patterns.  Millisecond clocks and durations are integers ([Z]).
    - [null] and [undefined] results of the helpers are [None].
    - The [yaml] package, [String.prototype.localeCompare] and the Markdown
      renderer are services of the platform: they are the fields of the class
      [Platform], and every function that uses them is parametrised by an
      instance.  The day that [formatDateNowUtc] reads off the wall clock is
      an argument of each call, and what a call observes of the lock file is
      its [LockWorld].
    - File operations succeed, [open] of the lock file apart; the five
      artefacts of the store (three bucket files, the canonical file, the
      runtime projection) are the fields of [Disk], so their paths are
      pairwise distinct as in the default layout. *)

From Stdlib Require Import ZArith Ascii String List Bool Lia DecimalString.
From stdpp Require Import base option list strings countable numbers sorting gmap.

Open Scope Z_scope.

(** ** Strings *)

Module Js.

(** White space and line terminators of [String.prototype.trim], in the
    8-bit range: TAB, LF, VT, FF, CR, SP and NBSP. *)
Definition isWhiteSpace (c : ascii) : bool :=
  let n := N_of_ascii c in
  (((9 <=? n) && (n <=? 13)) || (n =? 32) || (n =? 160))%N.

Fixpoint trimStart (s : string) : string :=
  match s with
  | EmptyString => EmptyString
  | String c r => if isWhiteSpace c then trimStart r else s
  end.

Definition isEmpty (s : string) : bool :=
  match s with EmptyString => true | String _ _ => false end.

Fixpoint trimEnd (s : string) : string :=
  match s with
  | EmptyString => EmptyString
  | String c r =>
      let r' := trimEnd r in
      if isWhiteSpace c && isEmpty r' then EmptyString else String c r'
  end.

Definition trim (s : string) : string := trimEnd (trimStart s).

Definition lowerChar (c : ascii) : ascii :=
  let n := N_of_ascii c in
  if (((65 <=? n) && (n <=? 90))
      || ((192 <=? n) && (n <=? 222) && negb (n =? 215)))%N
  then ascii_of_N (n + 32) else c.

Fixpoint toLowerCase (s : string) : string :=
  match s with
  | EmptyString => EmptyString
  | String c r => String (lowerChar c) (toLowerCase r)
  end.

Definition startsWith (s p : string) : bool := String.prefix p s.

(** [\d] *)
Definition isDigit (c : ascii) : bool :=
  let n := N_of_ascii c in ((48 <=? n) && (n <=? 57))%N.

Definition digitVal (c : ascii) : Z := Z.of_N (N_of_ascii c) - 48.

(** [String(n)] for a natural number. *)
Definition ofNat (n : nat) : string := NilEmpty.string_of_uint (Nat.to_uint n).

End Js.

(** ** Calendar days

    [Date.parse] on the string [YYYY-MM-DDT00:00:00Z], as Node's engine
    computes it: a month outside 1..12 or a day outside 1..31 is rejected,
    and a day past the end of its month rolls over into the next one. *)

Module JsDate.

Definition msPerDay : Z := 86400000.

(** Days from 1970-01-01 to the civil date [y]-[m]-[d]. *)
Definition daysFromCivil (y m d : Z) : Z :=
  let y' := if m <=? 2 then y - 1 else y in
  let era := y' / 400 in
  let yoe := y' - era * 400 in
  let mp := if m <=? 2 then m + 9 else m - 3 in
  let doy := (153 * mp + 2) / 5 + d - 1 in
  let doe := yoe * 365 + yoe / 4 - yoe / 100 + doy in
  era * 146097 + doe - 719468.

Definition parseUtcMidnight (y m d : Z) : option Z :=
  if (1 <=? m) && (m <=? 12) && (1 <=? d) && (d <=? 31)
  then Some (daysFromCivil y m d * msPerDay)
  else None.

End JsDate.

(** [ISO_DAY = /^\d{4}-\d{2}-\d{2}$/] followed by [Date.parse]; the result is
    the timestamp in milliseconds, [None] for [null]. *)
Definition parseIsoDay (value : string) : option Z :=
  match list_ascii_of_string value with
  | [y1; y2; y3; y4; h1; m1; m2; h2; d1; d2] =>
      if forallb Js.isDigit [y1; y2; y3; y4; m1; m2; d1; d2]
         && Ascii.eqb h1 "-" && Ascii.eqb h2 "-"
      then
        JsDate.parseUtcMidnight
          (Js.digitVal y1 * 1000 + Js.digitVal y2 * 100
           + Js.digitVal y3 * 10 + Js.digitVal y4)
          (Js.digitVal m1 * 10 + Js.digitVal m2)
          (Js.digitVal d1 * 10 + Js.digitVal d2)
      else None
  | _ => None
  end.

(** ** Data model *)

Inductive MemoryStatus := active | pending | deprecated.
Inductive MemoryEnv := env_all | env_prod | env_staging | env_dev.
Inductive Confidence := high | medium | low.

(** The 64-bit pattern of a double. *)
Definition number := Z.

Module Number.

Definition isNaN (x : number) : bool :=
  (Z.land (Z.shiftr x 52) 0x7ff =? 0x7ff) && negb (Z.land x (2 ^ 52 - 1) =? 0).

Definition isZero (x : number) : bool := Z.land x (2 ^ 63 - 1) =? 0.

(** [x === y] on numbers: [NaN] equals nothing, and [+0 === -0]. *)
Definition strictEquals (x y : number) : bool :=
  if isNaN x || isNaN y then false
  else if isZero x && isZero y then true
  else x =? y.

End Number.

Inductive PrimitiveValue :=
| VString (s : string)
| VNumber (x : number)
| VBoolean (b : bool).

(** [a === b] on primitive values. *)
Definition strictEquals (a b : PrimitiveValue) : bool :=
  match a, b with
  | VString s, VString t => String.eqb s t
  | VNumber x, VNumber y => Number.strictEquals x y
  | VBoolean x, VBoolean y => Bool.eqb x y
  | _, _ => false
  end.

Record MemoryScope := {
  env : MemoryEnv;
  service : option string;
  region : option string;
}.

Record MemoryItem := {
  id : string;
  topic : string;
  key : string;
  value : PrimitiveValue;
  status : MemoryStatus;
  source : string;
  effective_from : string;
  expires : string;
  scope : MemoryScope;
  updated : option string;
  confidence : option Confidence;
  next : option string;
}.

Inductive AuditIssueCode :=
| schema | duplicate_id | no_source | stale | conflict.

Record AuditIssue := {
  code : AuditIssueCode;
  message : string;
  ids : list string;
}.

#[global] Instance MemoryStatus_eq_dec : EqDecision MemoryStatus.
Proof. solve_decision. Defined.
#[global] Instance MemoryEnv_eq_dec : EqDecision MemoryEnv.
Proof. solve_decision. Defined.
#[global] Instance Confidence_eq_dec : EqDecision Confidence.
Proof. solve_decision. Defined.
#[global] Instance AuditIssueCode_eq_dec : EqDecision AuditIssueCode.
Proof. solve_decision. Defined.
#[global] Instance PrimitiveValue_eq_dec : EqDecision PrimitiveValue.
Proof. solve_decision. Defined.
#[global] Instance MemoryScope_eq_dec : EqDecision MemoryScope.
Proof. solve_decision. Defined.
#[global] Instance MemoryItem_eq_dec : EqDecision MemoryItem.
Proof. solve_decision. Defined.

Definition statusName (s : MemoryStatus) : string :=
  match s with
  | active => "active" | pending => "pending" | deprecated => "deprecated"
  end.

Definition envName (e : MemoryEnv) : string :=
  match e with
  | env_all => "all" | env_prod => "prod"
  | env_staging => "staging" | env_dev => "dev"
  end.

Definition confidenceName (c : Confidence) : string :=
  match c with high => "high" | medium => "medium" | low => "low" end.

(** ** Audit severity *)

Definition makeIssue (c : AuditIssueCode) (msg : string) (idList : list string)
  : AuditIssue :=
  {| code := c; message := msg; ids := idList |}.

Definition isSevereCode (c : AuditIssueCode) : bool :=
  match c with
  | schema | duplicate_id | no_source | conflict => true
  | stale => false
  end.

Definition isStaleCode (c : AuditIssueCode) : bool :=
  match c with stale => true | _ => false end.

Definition auditExitCode (issues : list AuditIssue) : Z :=
  let hasSevere := existsb (fun issue => isSevereCode (code issue)) issues in
  if hasSevere then 2
  else if existsb (fun issue => isStaleCode (code issue)) issues then 1
  else 0.

(** ** Conflict detector *)

Definition datesOverlap (aStart aEnd bStart bEnd : string) : bool :=
  match parseIsoDay aStart, parseIsoDay aEnd,
        parseIsoDay bStart, parseIsoDay bEnd with
  | Some aStartTs, Some aEndTs, Some bStartTs, Some bEndTs =>
      (aStartTs <=? bEndTs) && (bStartTs <=? aEndTs)
  | _, _, _, _ => false
  end.

(** [!s] for an optional string: unset, or the empty string. *)
Definition unset (s : option string) : bool :=
  match s with
  | None => true
  | Some t => Js.isEmpty t
  end.

Definition sameString (a b : option string) : bool :=
  match a, b with
  | Some x, Some y => String.eqb x y
  | None, None => true
  | _, _ => false
  end.

Definition scopesIntersect (a b : MemoryScope) : bool :=
  let envIntersects :=
    bool_decide (env a = env_all) || bool_decide (env b = env_all)
    || bool_decide (env a = env b) in
  if negb envIntersects then false
  else
    let serviceIntersects :=
      unset (service a) || unset (service b)
      || sameString (service a) (service b) in
    if negb serviceIntersects then false
    else
      unset (region a) || unset (region b) || sameString (region a) (region b).

Definition includes (allowed : list MemoryStatus) (s : MemoryStatus) : bool :=
  bool_decide (s ∈ allowed).

(** [options.allowedStatuses ?? ["active"]] *)
Definition allowedStatusesOf (options : option (list MemoryStatus))
  : list MemoryStatus :=
  default [active] options.

Definition isConflictPair (left right : MemoryItem)
    (options : option (list MemoryStatus)) : bool :=
  let allowedStatuses := allowedStatusesOf options in
  if negb (includes allowedStatuses (status left))
     || negb (includes allowedStatuses (status right)) then false
  else if negb (String.eqb (topic left) (topic right))
          || negb (String.eqb (key left) (key right)) then false
  else if strictEquals (value left) (value right) then false
  else if negb (scopesIntersect (scope left) (scope right)) then false
  else datesOverlap (effective_from left) (expires left)
                    (effective_from right) (expires right).

Definition isActiveConflictPair (left right : MemoryItem) : bool :=
  isConflictPair left right (Some [active]).

Definition isUnresolvedConflictPair (left right : MemoryItem) : bool :=
  isConflictPair left right (Some [active; pending]).

(** ** Raw records

    What [YAML.parse] returns: a value of type [unknown]. *)

#[warnings="-register-all"]
Inductive JsValue :=
| JUndefined
| JNull
| JBoolean (b : bool)
| JNumber (x : number)
| JString (s : string)
| JArray (elements : list JsValue)
| JObject (props : list (string * JsValue)).

Definition RawObject := list (string * JsValue).

Fixpoint getProp (obj : RawObject) (name : string) : JsValue :=
  match obj with
  | [] => JUndefined
  | (k, v) :: rest => if String.eqb k name then v else getProp rest name
  end.

Definition asObject (v : JsValue) : option RawObject :=
  match v with
  | JObject props => Some props
  | _ => None
  end.

Definition asString (v : JsValue) : option string :=
  match v with
  | JString s =>
      let trimmed := Js.trim s in
      if Js.isEmpty trimmed then None else Some trimmed
  | _ => None
  end.

Definition isValidSource (src : string) : bool :=
  Js.startsWith src "https://" || Js.startsWith src "docs/"
  || Js.startsWith src "memory/" || Js.startsWith src "src/".

Definition normalizeEnv (v : JsValue) : option MemoryEnv :=
  match v with
  | JUndefined => Some env_all
  | JString s =>
      let normalized := Js.toLowerCase (Js.trim s) in
      if String.eqb normalized "all" then Some env_all
      else if String.eqb normalized "prod" then Some env_prod
      else if String.eqb normalized "staging" then Some env_staging
      else if String.eqb normalized "dev" then Some env_dev
      else None
  | _ => None
  end.

Definition normalizeStatus (v : JsValue) : option MemoryStatus :=
  match v with
  | JString s =>
      let normalized := Js.toLowerCase (Js.trim s) in
      if String.eqb normalized "active" then Some active
      else if String.eqb normalized "pending" then Some pending
      else if String.eqb normalized "deprecated" then Some deprecated
      else None
  | _ => None
  end.

Definition normalizeConfidence (v : JsValue) : option Confidence :=
  match v with
  | JString s =>
      let normalized := Js.toLowerCase (Js.trim s) in
      if String.eqb normalized "high" then Some high
      else if String.eqb normalized "medium" then Some medium
      else if String.eqb normalized "low" then Some low
      else None
  | _ => None
  end.

Definition primitiveValue (v : JsValue) : option PrimitiveValue :=
  match v with
  | JString s => Some (VString s)
  | JNumber x => Some (VNumber x)
  | JBoolean b => Some (VBoolean b)
  | _ => None
  end.

(** [ID_PATTERN = /^MEM-\d{4}-\d{2}-\d{3}$/] *)
Definition testIdPattern (s : string) : bool :=
  match list_ascii_of_string s with
  | [c1; c2; c3; h1; y1; y2; y3; y4; h2; m1; m2; h3; n1; n2; n3] =>
      Ascii.eqb c1 "M" && Ascii.eqb c2 "E" && Ascii.eqb c3 "M"
      && Ascii.eqb h1 "-" && Ascii.eqb h2 "-" && Ascii.eqb h3 "-"
      && forallb Js.isDigit [y1; y2; y3; y4; m1; m2; n1; n2; n3]
  | _ => false
  end.

(** [obj.scope === undefined ? {} : asObject(obj.scope)] *)
Definition scopeObject (v : JsValue) : option RawObject :=
  match v with
  | JUndefined => Some []
  | _ => asObject v
  end.

Record BuildResult := {
  item : option MemoryItem;
  issues : list AuditIssue;
}.

(** [cond ? [issue] : []]: one conditional [issues.push]. *)
Definition pushIf (cond : bool) (issue : AuditIssue) : list AuditIssue :=
  if cond then [issue] else [].

Definition isNone {A} (o : option A) : bool :=
  match o with None => true | Some _ => false end.

Definition buildItem (raw : JsValue) (index : nat) : BuildResult :=
  let ordinal := "#" +:+ Js.ofNat (index + 1) in
  match asObject raw with
  | None =>
      {| item := None;
         issues :=
           [makeIssue schema ("Item " +:+ ordinal +:+ " is not a valid object") []] |}
  | Some obj =>
      let idS := asString (getProp obj "id") in
      let label := default ordinal idS in
      let idList := match idS with Some i => [i] | None => [] end in
      let issues1 :=
        match idS with
        | None => [makeIssue schema ("Item " +:+ ordinal +:+ " is missing 'id'") []]
        | Some i =>
            pushIf (negb (testIdPattern i))
              (makeIssue schema ("Item " +:+ i +:+ " has invalid id format") [i])
        end in
      let topicS := asString (getProp obj "topic") in
      let issues2 :=
        pushIf (isNone topicS)
          (makeIssue schema ("Item " +:+ label +:+ " is missing 'topic'") idList) in
      let keyS := asString (getProp obj "key") in
      let issues3 :=
        pushIf (isNone keyS)
          (makeIssue schema ("Item " +:+ label +:+ " is missing 'key'") idList) in
      let valueP := primitiveValue (getProp obj "value") in
      let issues4 :=
        pushIf (isNone valueP)
          (makeIssue schema ("Item " +:+ label +:+ " has invalid 'value' type") idList) in
      let statusS := normalizeStatus (getProp obj "status") in
      let issues5 :=
        pushIf (isNone statusS)
          (makeIssue schema ("Item " +:+ label +:+ " has invalid 'status'") idList) in
      let sourceS := asString (getProp obj "source") in
      let issues6 :=
        match sourceS with
        | None =>
            [makeIssue no_source ("Item " +:+ label +:+ " is missing 'source'") idList]
        | Some src =>
            pushIf (negb (isValidSource src))
              (makeIssue no_source
                 ("Item " +:+ label +:+ " has invalid source '" +:+ src +:+ "'")
                 idList)
        end in
      let effectiveFrom := asString (getProp obj "effective_from") in
      let issues7 :=
        pushIf (isNone (effectiveFrom ≫= parseIsoDay))
          (makeIssue schema
             ("Item " +:+ label +:+ " has invalid 'effective_from' date") idList) in
      let expiresS := asString (getProp obj "expires") in
      let issues8 :=
        pushIf (isNone (expiresS ≫= parseIsoDay))
          (makeIssue schema
             ("Item " +:+ label +:+ " has invalid 'expires' date") idList) in
      let issues9 :=
        match effectiveFrom ≫= parseIsoDay, expiresS ≫= parseIsoDay with
        | Some effectiveTs, Some expiresTs =>
            pushIf (expiresTs <? effectiveTs)
              (makeIssue schema
                 ("Item " +:+ label +:+ " has effective_from after expires") idList)
        | _, _ => []
        end in
      let scopeRaw := scopeObject (getProp obj "scope") in
      let issues10 :=
        pushIf (isNone scopeRaw)
          (makeIssue schema ("Item " +:+ label +:+ " has invalid 'scope'") idList) in
      let scopeProp name :=
        match scopeRaw with
        | Some props => getProp props name
        | None => JUndefined
        end in
      let envS := normalizeEnv (scopeProp "env") in
      let issues11 :=
        pushIf (isNone envS)
          (makeIssue schema
             ("Item " +:+ label
              +:+ " has invalid 'scope.env' (use all|prod|staging|dev)") idList) in
      let serviceS := asString (scopeProp "service") in
      let regionS := asString (scopeProp "region") in
      let updatedS := asString (getProp obj "updated") in
      let issues12 :=
        match updatedS with
        | Some u =>
            pushIf (isNone (parseIsoDay u))
              (makeIssue schema
                 ("Item " +:+ label +:+ " has invalid 'updated' date") idList)
        | None => []
        end in
      let nextS := asString (getProp obj "next") in
      let confidenceS := normalizeConfidence (getProp obj "confidence") in
      let collected :=
        issues1 ++ issues2 ++ issues3 ++ issues4 ++ issues5 ++ issues6
        ++ issues7 ++ issues8 ++ issues9 ++ issues10 ++ issues11 ++ issues12 in
      match collected, idS, topicS, keyS, valueP, statusS, sourceS,
            effectiveFrom, expiresS, envS with
      | [], Some i, Some t, Some k, Some v, Some st, Some src,
        Some ef, Some ex, Some e =>
          {| item :=
               Some {| id := i; topic := t; key := k; value := v; status := st;
                       source := src; effective_from := ef; expires := ex;
                       scope := {| env := e; service := serviceS;
                                   region := regionS |};
                       updated := updatedS; confidence := confidenceS;
                       next := nextS |};
             issues := collected |}
      | _, _, _, _, _, _, _, _, _, _ => {| item := None; issues := collected |}
      end
  end.

(** ** Platform services *)

Inductive YamlResult :=
| YamlValue (v : JsValue)
| YamlError (reason : string).

Class Platform := {
  (** [YAML.parse(raw)]; [YamlError] when it throws. *)
  YAML_parse : string → YamlResult;
  (** [YAML.stringify(items, { lineWidth: 0 })] *)
  YAML_stringify : list MemoryItem → string;
  (** [a.localeCompare(b)]: negative, zero or positive. *)
  localeCompare : string → string → Z;
  (** The runtime projection under the workspace root ([MEMORY.md] and the
      topic shards), and what [renderRuntimeActiveMemory] makes of it from
      the flattened item list. *)
  Workspace : Type;
  writeRuntimeProjection : list MemoryItem → Workspace → Workspace;
}.

(** [Array.prototype.toSorted]: a stable sort; [cmp a b > 0] places [a]
    after [b]. *)
Fixpoint insertSorted {A} (cmp : A → A → Z) (x : A) (l : list A) : list A :=
  match l with
  | [] => [x]
  | y :: rest => if cmp x y <=? 0 then x :: l else y :: insertSorted cmp x rest
  end.

Definition toSorted {A} (cmp : A → A → Z) (l : list A) : list A :=
  foldr (insertSorted cmp) [] l.

Section Engine.
Context `{Platform}.

Definition compareItems (a b : MemoryItem) : Z :=
  if negb (String.eqb (topic a) (topic b)) then localeCompare (topic a) (topic b)
  else if negb (String.eqb (key a) (key b)) then localeCompare (key a) (key b)
  else localeCompare (id a) (id b).

Definition sortItems (items : list MemoryItem) : list MemoryItem :=
  toSorted compareItems items.

Definition serializeItems (items : list MemoryItem) : string :=
  YAML_stringify (sortItems items).

Definition conflictPairId (aId bId : string) : string :=
  match toSorted localeCompare [aId; bId] with
  | [leftId; rightId] => leftId +:+ "__" +:+ rightId
  | _ => ""
  end.

(** The [for] loop of [readMemoryItems] over the parsed list, from [index]
    on, with the two accumulators. *)
Fixpoint readRecords (parsed : list JsValue) (index : nat)
    (items : list MemoryItem) (collected : list AuditIssue)
  : list MemoryItem * list AuditIssue :=
  match parsed with
  | [] => (items, collected)
  | raw :: rest =>
      let r := buildItem raw index in
      readRecords rest (S index)
        (match item r with Some it => items ++ [it] | None => items end)
        (collected ++ issues r)
  end.

(** [readMemoryItems(filePath)]; [content] is what the disk holds at
    [filePath], [None] when the file does not exist. *)
Definition readMemoryItems (filePath : string) (content : option string)
  : list MemoryItem * list AuditIssue :=
  match content with
  | None => ([], [makeIssue schema ("Missing memory file: " +:+ filePath) []])
  | Some raw =>
      match YAML_parse raw with
      | YamlError reason =>
          ([], [makeIssue schema
                  ("Failed to parse YAML in " +:+ filePath +:+ ": " +:+ reason) []])
      | YamlValue (JArray parsed) => readRecords parsed 0%nat [] []
      | YamlValue _ =>
          ([], [makeIssue schema
                  (filePath +:+ " must contain a top-level YAML list") []])
      end
  end.

End Engine.

(** Each record of the parsed list validated on its own, at its position. *)
Fixpoint buildAll (parsed : list JsValue) (index : nat) : list BuildResult :=
  match parsed with
  | [] => []
  | raw :: rest => buildItem raw index :: buildAll rest (S index)
  end.

Definition isExpired (it : MemoryItem) (today : string) : bool :=
  match parseIsoDay (expires it), parseIsoDay today with
  | Some itemTs, Some todayTs => itemTs <? todayTs
  | _, _ => false
  end.

Record ActiveConflictPair := {
  left : MemoryItem;
  right : MemoryItem;
}.

(** The two nested loops of [listConflictPairs] over the scoped items. *)
Fixpoint conflictPairsOf (allowedStatuses : list MemoryStatus)
    (scoped : list MemoryItem) : list ActiveConflictPair :=
  match scoped with
  | [] => []
  | l :: rest =>
      map (fun r => {| left := l; right := r |})
          (filter (fun r => isConflictPair l r (Some allowedStatuses) = true) rest)
      ++ conflictPairsOf allowedStatuses rest
  end.

Definition listConflictPairs (items : list MemoryItem)
    (options : option (list MemoryStatus)) : list ActiveConflictPair :=
  let allowedStatuses := allowedStatusesOf options in
  let scoped := filter (fun it => includes allowedStatuses (status it) = true) items in
  conflictPairsOf allowedStatuses scoped.

Definition listActiveConflictPairs (items : list MemoryItem) :=
  listConflictPairs items (Some [active]).

Definition listUnresolvedConflictPairs (items : list MemoryItem) :=
  listConflictPairs items (Some [active; pending]).

(** The [Map<string, string[]>] of [runAudit], in insertion order. *)
Fixpoint mapGet (m : list (string * list string)) (k : string)
  : option (list string) :=
  match m with
  | [] => None
  | (k', v) :: rest => if String.eqb k' k then Some v else mapGet rest k
  end.

Fixpoint mapSet (m : list (string * list string)) (k : string) (v : list string)
  : list (string * list string) :=
  match m with
  | [] => [(k, v)]
  | (k', v') :: rest =>
      if String.eqb k' k then (k, v) :: rest else (k', v') :: mapSet rest k v
  end.

Definition seenIds (items : list MemoryItem) : list (string * list string) :=
  fold_left
    (fun seen it => mapSet seen (id it) (default [] (mapGet seen (id it)) ++ [id it]))
    items [].

Definition runAudit (items : list MemoryItem) (initialIssues : list AuditIssue)
    (today : string) : list AuditIssue :=
  let duplicates :=
    flat_map
      (fun entry : string * list string =>
         let (i, entries) := entry in
         pushIf (1 <? length entries)%nat
           (makeIssue duplicate_id
              ("Duplicate id '" +:+ i +:+ "' appears "
               +:+ Js.ofNat (length entries) +:+ " times") [i]))
      (seenIds items) in
  let activeItems := filter (fun it => status it = active) items in
  let staleIssues :=
    flat_map
      (fun it =>
         pushIf (isExpired it today)
           (makeIssue stale
              ("Item " +:+ id it +:+ " is active but expired on " +:+ expires it)
              [id it]))
      activeItems in
  let conflicts :=
    map
      (fun pair =>
         makeIssue conflict
           ("Conflict between " +:+ id (left pair) +:+ " and " +:+ id (right pair)
            +:+ " (same topic/key with overlapping scope+time but different value)")
           [id (left pair); id (right pair)])
      (listActiveConflictPairs items) in
  initialIssues ++ duplicates ++ staleIssues ++ conflicts.

(** ** Errors and results of asynchronous calls *)

Record JsError := {
  errorMessage : string;
  errorCode : option string;
}.

(** [new Error(message)] *)
Definition newError (msg : string) : JsError :=
  {| errorMessage := msg; errorCode := None |}.

Inductive Outcome (T : Type) :=
| Returned (v : T)
| Thrown (e : JsError).
Arguments Returned {T} v.
Arguments Thrown {T} e.

(** ** File lock manager *)

Definition DEFAULT_LOCK_TIMEOUT_MS : Z := 30000.
Definition DEFAULT_LOCK_RETRY_MS : Z := 200.
Definition DEFAULT_LOCK_STALE_MS : Z := 15 * 60 * 1000.

Record LockParams := {
  lockPath : string;
  timeoutMs : option Z;
  retryMs : option Z;
  staleMs : option Z;
}.

Definition effectiveTimeoutMs (params : LockParams) : Z :=
  Z.max 1000 (default DEFAULT_LOCK_TIMEOUT_MS (timeoutMs params)).

Definition effectiveRetryMs (params : LockParams) : Z :=
  Z.max 50 (default DEFAULT_LOCK_RETRY_MS (retryMs params)).

Definition effectiveStaleMs (params : LockParams) : Z :=
  Z.max 60000 (default DEFAULT_LOCK_STALE_MS (staleMs params)).


(** What one turn of the acquisition loop observes of the world: the result
    of [open(lockPath, "wx")] ([None] when the file was created, the error
    otherwise), the modification time that [stat] reports for the lock file
    ([None] when [stat] throws or the time is not finite), and the clock at
    the reading of the age and at the timeout test. *)
Record Attempt := {
  openError : option JsError;
  lockMtimeMs : option Z;
  nowAtStat : Z;
  nowAtCheck : Z;
}.

Record LockWorld := {
  startedAt : Z;
  attempts : list Attempt;
}.

Inductive LockEvent :=
| EvCreated          (** the lock file was created and the payload written *)
| EvReleased         (** the handle was closed and the lock file unlinked *)
| EvUnlinkedStale    (** a stale lock file was unlinked *)
| EvSlept (ms : Z).  (** [sleep(ms)] *)

Definition readLockAgeMs (a : Attempt) : option Z :=
  match lockMtimeMs a with
  | Some mtimeMs => Some (nowAtStat a - mtimeMs)
  | None => None
  end.

Definition isEEXIST (e : JsError) : bool :=
  match errorCode e with
  | Some c => String.eqb c "EEXIST"
  | None => false
  end.

Definition timeoutError (params : LockParams) : JsError :=
  newError ("Timeout acquiring lock: " +:+ lockPath params).

(** A run of [withFileLock]: the events in order, the result ([None] while
    the loop is still turning when the observations end) and the state the
    task left. *)
Record LockRun (S T : Type) := {
  events : list LockEvent;
  result : option (Outcome T);
  finalState : S;
}.
Arguments events {S T} _.
Arguments result {S T} _.
Arguments finalState {S T} _.

Definition after {S T} (evs : list LockEvent) (run : LockRun S T) : LockRun S T :=
  {| events := evs ++ events run; result := result run;
     finalState := finalState run |}.

Section FileLock.
Context {S T : Type}.
Variable params : LockParams.
Variable task : S → Outcome T * S.

(** The [catch] block of the loop for the error [e] of this turn; [retry]
    is the run of the next turn. *)
Definition onError (start : Z) (a : Attempt) (e : JsError) (s : S)
    (retry : LockRun S T) : LockRun S T :=
  if negb (isEEXIST e) then
    {| events := []; result := Some (Thrown e); finalState := s |}
  else
    let stale :=
      match readLockAgeMs a with
      | Some ageMs => effectiveStaleMs params <? ageMs
      | None => false
      end in
    if stale then after [EvUnlinkedStale] retry
    else if effectiveTimeoutMs params <=? nowAtCheck a - start then
      {| events := []; result := Some (Thrown (timeoutError params));
         finalState := s |}
    else after [EvSlept (effectiveRetryMs params)] retry.

(** The [while (true)] loop, one turn per observation. *)
Fixpoint lockLoop (start : Z) (turns : list Attempt) (s : S) : LockRun S T :=
  match turns with
  | [] => {| events := []; result := None; finalState := s |}
  | a :: rest =>
      match openError a with
      | None =>
          let (r, s') := task s in
          match r with
          | Returned v =>
              {| events := [EvCreated; EvReleased];
                 result := Some (Returned v); finalState := s' |}
          | Thrown e =>
              after [EvCreated; EvReleased]
                (onError start a e s' (lockLoop start rest s'))
          end
      | Some e => onError start a e s (lockLoop start rest s)
      end
  end.

Definition withFileLock (world : LockWorld) (s : S) : LockRun S T :=
  lockLoop (startedAt world) (attempts world) s.

End FileLock.

(** The acquisition phase alone: whether the loop gets to create the lock
    file before the observations end, an error is thrown or the timeout is
    reached. *)
Fixpoint lockGranted (params : LockParams) (start : Z) (turns : list Attempt)
  : bool :=
  match turns with
  | [] => false
  | a :: rest =>
      match openError a with
      | None => true
      | Some e =>
          if negb (isEEXIST e) then false
          else if match readLockAgeMs a with
                  | Some ageMs => effectiveStaleMs params <? ageMs
                  | None => false
                  end
          then lockGranted params start rest
          else if effectiveTimeoutMs params <=? nowAtCheck a - start then false
          else lockGranted params start rest
      end
  end.

(** ** Status store *)

Record StatusBuckets := {
  activeBucket : list MemoryItem;
  pendingBucket : list MemoryItem;
  deprecatedBucket : list MemoryItem;
}.

(** [buckets[status]] *)
Definition bucket (buckets : StatusBuckets) (s : MemoryStatus) : list MemoryItem :=
  match s with
  | active => activeBucket buckets
  | pending => pendingBucket buckets
  | deprecated => deprecatedBucket buckets
  end.

(** [buckets[status] = items] *)
Definition setBucket (buckets : StatusBuckets) (s : MemoryStatus)
    (items : list MemoryItem) : StatusBuckets :=
  match s with
  | active =>
      {| activeBucket := items; pendingBucket := pendingBucket buckets;
         deprecatedBucket := deprecatedBucket buckets |}
  | pending =>
      {| activeBucket := activeBucket buckets; pendingBucket := items;
         deprecatedBucket := deprecatedBucket buckets |}
  | deprecated =>
      {| activeBucket := activeBucket buckets;
         pendingBucket := pendingBucket buckets; deprecatedBucket := items |}
  end.

Definition STATUS_ORDER : list MemoryStatus := [active; pending; deprecated].

Definition emptyBuckets : StatusBuckets :=
  {| activeBucket := []; pendingBucket := []; deprecatedBucket := [] |}.

(** [{ ...item, scope: { ...item.scope } }] *)
Definition cloneItem (it : MemoryItem) : MemoryItem :=
  {| id := id it; topic := topic it; key := key it; value := value it;
     status := status it; source := source it;
     effective_from := effective_from it; expires := expires it;
     scope := {| env := env (scope it); service := service (scope it);
                 region := region (scope it) |};
     updated := updated it; confidence := confidence it; next := next it |}.

Definition cloneBuckets (input : StatusBuckets) : StatusBuckets :=
  {| activeBucket := map cloneItem (activeBucket input);
     pendingBucket := map cloneItem (pendingBucket input);
     deprecatedBucket := map cloneItem (deprecatedBucket input) |}.

(** [item.status = status] *)
Definition withStatus (s : MemoryStatus) (it : MemoryItem) : MemoryItem :=
  {| id := id it; topic := topic it; key := key it; value := value it;
     status := s; source := source it;
     effective_from := effective_from it; expires := expires it;
     scope := scope it; updated := updated it; confidence := confidence it;
     next := next it |}.

(** [{ ...item, status: to, updated: today }] *)
Definition movedItem (it : MemoryItem) (to : MemoryStatus) (today : string)
  : MemoryItem :=
  {| id := id it; topic := topic it; key := key it; value := value it;
     status := to; source := source it;
     effective_from := effective_from it; expires := expires it;
     scope := scope it; updated := Some today; confidence := confidence it;
     next := next it |}.

(** [{ ...keepOriginal, status: "active", value: mergedValue, updated: today,
      next: ... }] *)
Definition mergedItem (keepOriginal : MemoryItem) (mergedValue : PrimitiveValue)
    (today note : string) : MemoryItem :=
  {| id := id keepOriginal; topic := topic keepOriginal; key := key keepOriginal;
     value := mergedValue; status := active; source := source keepOriginal;
     effective_from := effective_from keepOriginal;
     expires := expires keepOriginal; scope := scope keepOriginal;
     updated := Some today; confidence := confidence keepOriginal;
     next := Some note |}.

(** [{ ...otherOriginal, status: "deprecated", updated: today, next: ... }] *)
Definition deprecatedItem (otherOriginal : MemoryItem) (today note : string)
  : MemoryItem :=
  {| id := id otherOriginal; topic := topic otherOriginal;
     key := key otherOriginal; value := value otherOriginal;
     status := deprecated; source := source otherOriginal;
     effective_from := effective_from otherOriginal;
     expires := expires otherOriginal; scope := scope otherOriginal;
     updated := Some today; confidence := confidence otherOriginal;
     next := Some note |}.

Record StatusCounts := {
  activeCount : nat;
  pendingCount : nat;
  deprecatedCount : nat;
}.

Definition countsByStatus (buckets : StatusBuckets) : StatusCounts :=
  {| activeCount := length (activeBucket buckets);
     pendingCount := length (pendingBucket buckets);
     deprecatedCount := length (deprecatedBucket buckets) |}.

Record Located := {
  locatedStatus : MemoryStatus;
  locatedIndex : nat;
  locatedItem : MemoryItem;
}.

(** [items.findIndex((item) => item.id === id)], [None] for [-1]. *)
Fixpoint findIndex (items : list MemoryItem) (i : string) : option nat :=
  match items with
  | [] => None
  | it :: rest =>
      if String.eqb (id it) i then Some 0%nat else S <$> findIndex rest i
  end.

Fixpoint findItemIn (order : list MemoryStatus) (buckets : StatusBuckets)
    (i : string) : option Located :=
  match order with
  | [] => None
  | s :: rest =>
      match findIndex (bucket buckets s) i with
      | None => findItemIn rest buckets i
      | Some index =>
          match bucket buckets s !! index with
          | None => findItemIn rest buckets i
          | Some it =>
              Some {| locatedStatus := s; locatedIndex := index;
                      locatedItem := it |}
          end
      end
  end.

Definition findItemStatus (buckets : StatusBuckets) (i : string) : option Located :=
  findItemIn STATUS_ORDER buckets i.

(** [buckets[status].splice(index, 1)] *)
Definition spliceOut (buckets : StatusBuckets) (s : MemoryStatus) (index : nat)
  : StatusBuckets :=
  setBucket buckets s (delete index (bucket buckets s)).

(** [buckets[status].push(item)] *)
Definition pushItem (buckets : StatusBuckets) (s : MemoryStatus) (it : MemoryItem)
  : StatusBuckets :=
  setBucket buckets s (bucket buckets s ++ [it]).

Definition flattenBuckets `{Platform} (buckets : StatusBuckets) : list MemoryItem :=
  sortItems (activeBucket buckets ++ pendingBucket buckets
             ++ deprecatedBucket buckets).

Record MemoryStatusPaths := {
  memoryRoot : string;
  memoryPath : string;
  activePath : string;
  pendingPath : string;
  deprecatedPath : string;
}.

Inductive StoreFile := ActiveYml | PendingYml | DeprecatedYml | MemoryYml.

Definition bucketPath (s : MemoryStatus) : StoreFile :=
  match s with
  | active => ActiveYml
  | pending => PendingYml
  | deprecated => DeprecatedYml
  end.

Definition pathText (paths : MemoryStatusPaths) (f : StoreFile) : string :=
  match f with
  | ActiveYml => activePath paths
  | PendingYml => pendingPath paths
  | DeprecatedYml => deprecatedPath paths
  | MemoryYml => memoryPath paths
  end.

Definition statusLockPath (paths : MemoryStatusPaths) : string :=
  memoryRoot paths +:+ "/locks/status-store.lock".

Definition statusLock (paths : MemoryStatusPaths) : LockParams :=
  {| lockPath := statusLockPath paths; timeoutMs := None; retryMs := None;
     staleMs := None |}.

Record Disk `{Platform} := {
  activeYml : option string;
  pendingYml : option string;
  deprecatedYml : option string;
  memoryYml : option string;
  workspace : Workspace;
}.

Record StatusChange := {
  changeFrom : MemoryStatus;
  changeTo : MemoryStatus;
  changeItem : MemoryItem;
  changeCounts : StatusCounts;
}.

Record ConflictMerge := {
  mergedId : string;
  deprecatedId : string;
  mergeCounts : StatusCounts;
  pairId : string;
}.

Record AuditSummary := {
  summaryFilePath : string;
  summaryToday : string;
  summaryItems : list MemoryItem;
  summaryIssues : list AuditIssue;
}.


(** [issues.map((i) => i.message).join("; ")] *)
Definition joinMessages (l : list AuditIssue) : string :=
  String.concat "; " (map message l).

Section Store.
Context `{Platform}.
Variable paths : MemoryStatusPaths.

Definition readFile (d : Disk) (f : StoreFile) : option string :=
  match f with
  | ActiveYml => activeYml d
  | PendingYml => pendingYml d
  | DeprecatedYml => deprecatedYml d
  | MemoryYml => memoryYml d
  end.

Definition existsSync (d : Disk) (f : StoreFile) : bool :=
  negb (isNone (readFile d f)).

(** [writeTextFile]: the temporary file is renamed over the destination. *)
Definition writeTextFile (f : StoreFile) (content : string) (d : Disk) : Disk :=
  match f with
  | ActiveYml =>
      {| activeYml := Some content; pendingYml := pendingYml d;
         deprecatedYml := deprecatedYml d; memoryYml := memoryYml d;
         workspace := workspace d |}
  | PendingYml =>
      {| activeYml := activeYml d; pendingYml := Some content;
         deprecatedYml := deprecatedYml d; memoryYml := memoryYml d;
         workspace := workspace d |}
  | DeprecatedYml =>
      {| activeYml := activeYml d; pendingYml := pendingYml d;
         deprecatedYml := Some content; memoryYml := memoryYml d;
         workspace := workspace d |}
  | MemoryYml =>
      {| activeYml := activeYml d; pendingYml := pendingYml d;
         deprecatedYml := deprecatedYml d; memoryYml := Some content;
         workspace := workspace d |}
  end.

Definition writeMemoryItems (f : StoreFile) (items : list MemoryItem) (d : Disk)
  : Disk :=
  writeTextFile f (serializeItems items) d.

Definition auditMemory (f : StoreFile) (today : string) (d : Disk) : AuditSummary :=
  let (items, parseIssues) := readMemoryItems (pathText paths f) (readFile d f) in
  {| summaryFilePath := pathText paths f; summaryToday := today;
     summaryItems := sortItems items;
     summaryIssues := runAudit items parseIssues today |}.

Definition loadStatusBuckets (d : Disk) : StatusBuckets :=
  fold_left
    (fun buckets s =>
       let path := bucketPath s in
       if negb (existsSync d path) then buckets
       else
         let (items, _) := readMemoryItems (pathText paths path) (readFile d path) in
         fold_left (fun acc it => pushItem acc s (withStatus s it)) items buckets)
    STATUS_ORDER emptyBuckets.

Definition saveStatusBuckets (buckets : StatusBuckets) (d : Disk) : Disk :=
  let d1 := writeMemoryItems (bucketPath active) (sortItems (activeBucket buckets)) d in
  let d2 :=
    writeMemoryItems (bucketPath pending) (sortItems (pendingBucket buckets)) d1 in
  writeMemoryItems (bucketPath deprecated) (sortItems (deprecatedBucket buckets)) d2.

Definition ensureStatusBuckets (d : Disk) : Disk :=
  let hasAnyBucket :=
    existsSync d ActiveYml || existsSync d PendingYml || existsSync d DeprecatedYml in
  if hasAnyBucket then
    let existing := loadStatusBuckets d in
    saveStatusBuckets existing d
  else
    let seed := readMemoryItems (memoryPath paths) (readFile d MemoryYml) in
    let buckets :=
      fold_left (fun acc it => pushItem acc (status it) it) (fst seed) emptyBuckets in
    saveStatusBuckets buckets d.

Definition rebuildUnifiedMemory (buckets : StatusBuckets) (d : Disk) : Disk :=
  writeMemoryItems MemoryYml (flattenBuckets buckets) d.

Definition renderRuntimeActiveMemory (buckets : StatusBuckets) (d : Disk) : Disk :=
  {| activeYml := activeYml d; pendingYml := pendingYml d;
     deprecatedYml := deprecatedYml d; memoryYml := memoryYml d;
     workspace := writeRuntimeProjection (flattenBuckets buckets) (workspace d) |}.

(** The exit code of the audit that follows the save of [current] and the
    rebuild of the canonical file. *)
Definition postAuditExit (current : StatusBuckets) (today : string) (d : Disk) : Z :=
  auditExitCode
    (summaryIssues
       (auditMemory MemoryYml today
          (rebuildUnifiedMemory current (saveStatusBuckets current d)))).

(** The [try { ... } catch (error) { ... throw error }] block that ends both
    mutations; [label] names the mutation in the message.  [None] when the
    block completes, the rethrown error otherwise. *)
Definition tryCommit (label : string) (current previous : StatusBuckets)
    (today : string) (d : Disk) : option JsError * Disk :=
  let d1 := saveStatusBuckets current d in
  let d2 := rebuildUnifiedMemory current d1 in
  let audit := auditMemory MemoryYml today d2 in
  let exit := auditExitCode (summaryIssues audit) in
  if exit =? 2 then
    let error :=
      newError ("Audit failed after " +:+ label +:+ ": "
                +:+ joinMessages (summaryIssues audit)) in
    let d3 := saveStatusBuckets previous d2 in
    let d4 := rebuildUnifiedMemory previous d3 in
    let d5 := renderRuntimeActiveMemory previous d4 in
    (Some error, d5)
  else
    (None, renderRuntimeActiveMemory current d2).

(** The buckets after the move of [applyStatusChange]. *)
Definition changedBuckets (current : StatusBuckets) (located : Located)
    (to : MemoryStatus) (today : string) : StatusBuckets :=
  if bool_decide (locatedStatus located ≠ to) then
    pushItem
      (spliceOut current (locatedStatus located) (locatedIndex located))
      to (movedItem (locatedItem located) to today)
  else current.

(** The task that [applyStatusChange] runs under the lock; [clock] is what
    [formatDateNowUtc()] returns. *)
Definition statusChangeTask (i : string) (to : MemoryStatus)
    (todayArg : option string) (clock : string) (d : Disk)
  : Outcome StatusChange * Disk :=
  let today := default clock todayArg in
  let d1 := ensureStatusBuckets d in
  let current := loadStatusBuckets d1 in
  let previous := cloneBuckets current in
  match findItemStatus current i with
  | None => (Thrown (newError ("Item not found: " +:+ i)), d1)
  | Some located =>
      let current' := changedBuckets current located to today in
      match tryCommit "status change" current' previous today d1 with
      | (Some error, d2) => (Thrown error, d2)
      | (None, d2) =>
          match findItemStatus current' i with
          | None => (Thrown (newError ("Item missing after update: " +:+ i)), d2)
          | Some found =>
              (Returned {| changeFrom := locatedStatus located; changeTo := to;
                           changeItem := locatedItem found;
                           changeCounts := countsByStatus current' |}, d2)
          end
      end
  end.

Definition applyStatusChange (world : LockWorld) (i : string) (to : MemoryStatus)
    (todayArg : option string) (clock : string) (d : Disk)
  : LockRun Disk StatusChange :=
  withFileLock (statusLock paths) (statusChangeTask i to todayArg clock) world d.

Definition removeItemById (current : StatusBuckets) (i : string)
  : Outcome (MemoryItem * StatusBuckets) :=
  match findItemStatus current i with
  | None => Thrown (newError ("Item not found during merge: " +:+ i))
  | Some located =>
      match bucket current (locatedStatus located) !! locatedIndex located with
      | None => Thrown (newError ("Unable to remove item during merge: " +:+ i))
      | Some removed =>
          Returned
            (removed,
             spliceOut current (locatedStatus located) (locatedIndex located))
      end
  end.

Definition mergedNote (pair keepId : string) : string :=
  "Merged conflict " +:+ pair +:+ "; resolved by keeping " +:+ keepId +:+ ".".

Definition deprecatedNote (pair merged : string) : string :=
  "Deprecated after conflict merge " +:+ pair +:+ " into " +:+ merged +:+ ".".

Record MergePlan := {
  planMerged : MemoryItem;
  planDeprecated : MemoryItem;
  planPairId : string;
  planBuckets : StatusBuckets;
}.

(** [applyConflictMerge] from the lookup of the two ids to the two pushes:
    the checks and the mutation of the loaded buckets, before the [try]. *)
Definition mergeInMemory (current : StatusBuckets) (leftId rightId : string)
    (mergedValue : PrimitiveValue) (keepIdArg : option string) (today : string)
  : Outcome MergePlan :=
  match findItemStatus current leftId, findItemStatus current rightId with
  | Some leftLocated, Some rightLocated =>
      if String.eqb leftId rightId then
        Thrown (newError "Conflict merge requires two distinct item IDs")
      else if negb (isUnresolvedConflictPair (locatedItem leftLocated)
                      (locatedItem rightLocated)) then
        Thrown (newError ("Items " +:+ leftId +:+ " and " +:+ rightId
                          +:+ " are not an unresolved conflict pair"))
      else
        let keepId := default leftId keepIdArg in
        if negb (String.eqb keepId leftId) && negb (String.eqb keepId rightId) then
          Thrown (newError ("Invalid keepId '" +:+ keepId
                            +:+ "', must match one of the conflict IDs"))
        else
          let keep := if String.eqb keepId leftId then leftLocated else rightLocated in
          let other := if String.eqb keepId leftId then rightLocated else leftLocated in
          let pair := conflictPairId leftId rightId in
          match removeItemById current (id (locatedItem keep)) with
          | Thrown e => Thrown e
          | Returned (keepOriginal, current1) =>
              match removeItemById current1 (id (locatedItem other)) with
              | Thrown e => Thrown e
              | Returned (otherOriginal, current2) =>
                  let merged :=
                    mergedItem keepOriginal mergedValue today
                      (mergedNote pair (id (locatedItem keep))) in
                  let deprecatedOther :=
                    deprecatedItem otherOriginal today
                      (deprecatedNote pair (id merged)) in
                  Returned
                    {| planMerged := merged; planDeprecated := deprecatedOther;
                       planPairId := pair;
                       planBuckets :=
                         pushItem (pushItem current2 active merged)
                           deprecated deprecatedOther |}
              end
          end
  | _, _ =>
      Thrown (newError ("Conflict items not found: " +:+ leftId +:+ ", "
                        +:+ rightId))
  end.

(** The task that [applyConflictMerge] runs under the lock. *)
Definition conflictMergeTask (leftId rightId : string)
    (mergedValue : PrimitiveValue) (keepIdArg todayArg : option string)
    (clock : string) (d : Disk) : Outcome ConflictMerge * Disk :=
  let today := default clock todayArg in
  let d1 := ensureStatusBuckets d in
  let current := loadStatusBuckets d1 in
  let previous := cloneBuckets current in
  match mergeInMemory current leftId rightId mergedValue keepIdArg today with
  | Thrown e => (Thrown e, d1)
  | Returned plan =>
      match tryCommit "conflict merge" (planBuckets plan) previous today d1 with
      | (Some error, d2) => (Thrown error, d2)
      | (None, d2) =>
          (Returned {| mergedId := id (planMerged plan);
                       deprecatedId := id (planDeprecated plan);
                       mergeCounts := countsByStatus (planBuckets plan);
                       pairId := planPairId plan |}, d2)
      end
  end.

Definition applyConflictMerge (world : LockWorld) (leftId rightId : string)
    (mergedValue : PrimitiveValue) (keepIdArg todayArg : option string)
    (clock : string) (d : Disk) : LockRun Disk ConflictMerge :=
  withFileLock (statusLock paths)
    (conflictMergeTask leftId rightId mergedValue keepIdArg todayArg clock) world d.



(** The three bucket files, as the disk holds them. *)
Definition bucketFiles (d : Disk) : list (option string) :=
  [activeYml d; pendingYml d; deprecatedYml d].

End Store.

(** ** The round trip through YAML

    The plain object that [YAML.parse] gives back for an item written by
    [YAML.stringify]: a key whose value is [undefined] is not emitted. *)

Definition jsOfValue (v : PrimitiveValue) : JsValue :=
  match v with
  | VString s => JString s
  | VNumber x => JNumber x
  | VBoolean b => JBoolean b
  end.

Definition optionalProp (name : string) (v : option string)
  : list (string * JsValue) :=
  match v with
  | Some s => [(name, JString s)]
  | None => []
  end.

Definition jsOfScope (s : MemoryScope) : JsValue :=
  JObject ([("env", JString (envName (env s)))]
           ++ optionalProp "service" (service s)
           ++ optionalProp "region" (region s)).

Definition itemProps (it : MemoryItem) : RawObject :=
  [("id", JString (id it)); ("topic", JString (topic it));
   ("key", JString (key it)); ("value", jsOfValue (value it));
   ("status", JString (statusName (status it)));
   ("source", JString (source it));
   ("effective_from", JString (effective_from it));
   ("expires", JString (expires it));
   ("scope", jsOfScope (scope it))]
  ++ optionalProp "updated" (updated it)
  ++ optionalProp "confidence" (confidenceName <$> confidence it)
  ++ optionalProp "next" (next it).

Definition jsOfItem (it : MemoryItem) : JsValue := JObject (itemProps it).

(** The laws of the platform that the store relies on: what was stringified
    parses back to the same records, and the collation never places two
    strings each after the other. *)
Class PlatformLaws `{Platform} : Prop := {
  YAML_round_trip :
    ∀ items, YAML_parse (YAML_stringify items) = YamlValue (JArray (map jsOfItem items));
  localeCompare_antisym :
    ∀ a b, 0 < localeCompare a b → localeCompare b a <= 0;
}.

(** ** A reference platform

    One platform that obeys the laws, on which the store can be run: the
    codec writes the binary digits of an enumeration of the item lists, the
    collation is the code-unit order, and the projection keeps the active
    items. *)

Module Reference.

Fixpoint posBits (p : positive) : string :=
  match p with
  | xH => EmptyString
  | xO q => String "0"%char (posBits q)
  | xI q => String "1"%char (posBits q)
  end.

Fixpoint bitsPos (s : string) : option positive :=
  match s with
  | EmptyString => Some xH
  | String c rest =>
      if Ascii.eqb c "0"%char then xO <$> bitsPos rest
      else if Ascii.eqb c "1"%char then xI <$> bitsPos rest
      else None
  end.

Definition statusCode (s : MemoryStatus) : nat :=
  match s with active => 0 | pending => 1 | deprecated => 2 end%nat.
Definition codeStatus (n : nat) : MemoryStatus :=
  match n with O => active | S O => pending | _ => deprecated end.
Definition envCode (e : MemoryEnv) : nat :=
  match e with env_all => 0 | env_prod => 1 | env_staging => 2 | env_dev => 3 end%nat.
Definition codeEnv (n : nat) : MemoryEnv :=
  match n with
  | O => env_all | S O => env_prod | S (S O) => env_staging | _ => env_dev
  end.
Definition confidenceCode (c : Confidence) : nat :=
  match c with high => 0 | medium => 1 | low => 2 end%nat.
Definition codeConfidence (n : nat) : Confidence :=
  match n with O => high | S O => medium | _ => low end.
Definition valueCode (v : PrimitiveValue) : string + (Z + bool) :=
  match v with
  | VString s => inl s
  | VNumber x => inr (inl x)
  | VBoolean b => inr (inr b)
  end.
Definition codeValue (c : string + (Z + bool)) : PrimitiveValue :=
  match c with
  | inl s => VString s
  | inr (inl x) => VNumber x
  | inr (inr b) => VBoolean b
  end.

Definition ItemCode : Type :=
  (((string * string) * (string * (string + (Z + bool))))
   * ((nat * string) * (string * string)))
  * (((nat * option string) * (option string * option string))
     * (option nat * option string)).

Definition itemCode (it : MemoryItem) : ItemCode :=
  ((((id it, topic it), (key it, valueCode (value it))),
    ((statusCode (status it), source it), (effective_from it, expires it))),
   (((envCode (env (scope it)), service (scope it)),
     (region (scope it), updated it)),
    (confidenceCode <$> confidence it, next it))).

Definition codeItem (c : ItemCode) : MemoryItem :=
  let '((((i, t), (k, v)), ((st, src), (ef, ex))),
        (((e, sv), (rg, up)), (cf, nx))) := c in
  {| id := i; topic := t; key := k; value := codeValue v;
     status := codeStatus st; source := src; effective_from := ef;
     expires := ex;
     scope := {| env := codeEnv e; service := sv; region := rg |};
     updated := up; confidence := codeConfidence <$> cf; next := nx |}.

Lemma codeItem_itemCode it : codeItem (itemCode it) = it.
Proof.
  destruct it as [? ? ? v st ? ? ? [e ? ?] ? cf ?].
  destruct v, st, e, cf as [[]|]; reflexivity.
Qed.

#[export] Instance MemoryItem_countable : Countable MemoryItem :=
  inj_countable' itemCode codeItem codeItem_itemCode.

Definition stringify (items : list MemoryItem) : string :=
  posBits (encode items).

Definition parse (raw : string) : YamlResult :=
  match bitsPos raw ≫= decode with
  | Some items => YamlValue (JArray (map jsOfItem items))
  | None => YamlError "unexpected input"
  end.

Definition compareStrings (a b : string) : Z :=
  match String.compare a b with
  | Lt => -1
  | Eq => 0
  | Gt => 1
  end.

#[export] Instance platform : Platform := {|
  YAML_parse := parse;
  YAML_stringify := stringify;
  localeCompare := compareStrings;
  Workspace := list MemoryItem;
  writeRuntimeProjection :=
    fun all _ => filter (fun it => status it = active) all;
|}.

End Reference.

(** Stores on the reference platform, for the runs below. *)

Module Fixtures.
Import Reference.

Definition paths : MemoryStatusPaths :=
  {| memoryRoot := "/home/agent/.openclaw-ytb/memory";
     memoryPath := "/home/agent/.openclaw-ytb/memory/MEMORY.yml";
     activePath := "/home/agent/.openclaw-ytb/memory/status/active.yml";
     pendingPath := "/home/agent/.openclaw-ytb/memory/status/pending.yml";
     deprecatedPath := "/home/agent/.openclaw-ytb/memory/status/deprecated.yml" |}.

(** The lock file is created at the first attempt. *)
Definition freeLock : LockWorld :=
  {| startedAt := 1700000000000;
     attempts := [{| openError := None; lockMtimeMs := None;
                     nowAtStat := 1700000000000;
                     nowAtCheck := 1700000000000 |}] |}.

Definition deployMode (i v : string) (s : MemoryStatus) (e : MemoryEnv)
    (from to : string) : MemoryItem :=
  {| id := i; topic := "deploy"; key := "mode"; value := VString v;
     status := s; source := "docs/deploy.md"; effective_from := from;
     expires := to;
     scope := {| env := e; service := None; region := None |};
     updated := None; confidence := None; next := None |}.

Definition canary : MemoryItem :=
  deployMode "MEM-2024-01-001" "canary" active env_all "2024-01-01" "2024-06-01".
Definition blueGreen : MemoryItem :=
  deployMode "MEM-2024-01-002" "blue-green" pending env_prod "2024-03-01" "2024-09-01".
Definition blueGreenActive : MemoryItem :=
  deployMode "MEM-2024-01-002" "blue-green" active env_prod "2024-03-01" "2024-09-01".

Definition diskOf (a p : list MemoryItem) (dp : option (list MemoryItem)) : Disk :=
  {| activeYml := Some (stringify a); pendingYml := Some (stringify p);
     deprecatedYml := stringify <$> dp; memoryYml := None; workspace := [] |}.

End Fixtures.

(** ** Further functions of the libraries and their callers *)

(** [groupIssues]: the record with one list per issue code. *)
Record IssueGroups := {
  groupSchema : list AuditIssue;
  groupDuplicateId : list AuditIssue;
  groupNoSource : list AuditIssue;
  groupStale : list AuditIssue;
  groupConflict : list AuditIssue;
}.

Definition groupIssues (all : list AuditIssue) : IssueGroups :=
  {| groupSchema := filter (fun issue => code issue = schema) all;
     groupDuplicateId := filter (fun issue => code issue = duplicate_id) all;
     groupNoSource := filter (fun issue => code issue = no_source) all;
     groupStale := filter (fun issue => code issue = stale) all;
     groupConflict := filter (fun issue => code issue = conflict) all |}.

(** [MemoryConflictPair] of [memory-status-lib.ts]. *)
Record MemoryConflictPair := {
  pair_id : string;
  pairTopic : string;
  pairKey : string;
  pairLeft : MemoryItem;
  pairRight : MemoryItem;
}.

Definition listConflicts `{Platform} (items : list MemoryItem)
  : list MemoryConflictPair :=
  toSorted (fun a b => localeCompare (pair_id a) (pair_id b))
    (map
       (fun pair =>
          {| pair_id := conflictPairId (id (left pair)) (id (right pair));
             pairTopic := topic (left pair); pairKey := key (left pair);
             pairLeft := cloneItem (left pair);
             pairRight := cloneItem (right pair) |})
       (listUnresolvedConflictPairs items)).

(** [{ ...item, status: "pending", updated: today, next: note }] of the
    triage script. *)
Definition demotedItem (it : MemoryItem) (today note : string) : MemoryItem :=
  {| id := id it; topic := topic it; key := key it; value := value it;
     status := pending; source := source it;
     effective_from := effective_from it; expires := expires it;
     scope := scope it; updated := Some today; confidence := confidence it;
     next := Some note |}.

(** The loop of [moveActiveIdsToPending] over the active bucket: the items
    kept, the ids moved and the pending bucket, in this order. *)
Fixpoint moveLoop (targetIds : gset string) (today : string)
    (reason : string → MemoryItem → string) (activeItems : list MemoryItem)
    (keptActive : list MemoryItem) (movedIds : list string)
    (pendingItems : list MemoryItem)
  : list MemoryItem * list string * list MemoryItem :=
  match activeItems with
  | [] => (keptActive, movedIds, pendingItems)
  | it :: rest =>
      if negb (bool_decide (id it ∈ targetIds)) then
        moveLoop targetIds today reason rest (keptActive ++ [it]) movedIds
          pendingItems
      else
        let note := reason (id it) it in
        moveLoop targetIds today reason rest keptActive (movedIds ++ [id it])
          (pendingItems ++ [demotedItem it today note])
  end.

(** [moveActiveIdsToPending]: the ids moved and the buckets as the call
    leaves them. *)
Definition moveActiveIdsToPending (buckets : StatusBuckets) (ids : list string)
    (today : string) (reason : string → MemoryItem → string)
  : list string * StatusBuckets :=
  let targetIds : gset string := list_to_set ids in
  if bool_decide (size targetIds = 0%nat) then ([], buckets)
  else
    let '(keptActive, movedIds, pendingItems) :=
      moveLoop targetIds today reason (activeBucket buckets) [] []
        (pendingBucket buckets) in
    (movedIds,
     {| activeBucket := keptActive; pendingBucket := pendingItems;
        deprecatedBucket := deprecatedBucket buckets |}).

(** [map.has(id)] and insertion at the end, for the [Map<string, MemoryItem>]
    of [dedupeById]. *)
Fixpoint mapHas (m : list (string * MemoryItem)) (k : string) : bool :=
  match m with
  | [] => false
  | (k', _) :: rest => String.eqb k' k || mapHas rest k
  end.

Definition dedupeById `{Platform} (items : list MemoryItem) : list MemoryItem :=
  let m :=
    fold_left
      (fun m it => if negb (mapHas m (id it)) then m ++ [(id it, it)] else m)
      items [] in
  toSorted (fun a b => localeCompare (id a) (id b)) (map snd m).

(** The two filters of the prune script: the items to archive and the items
    to keep. *)
Definition pruneSplit (items : list MemoryItem) (today : string)
  : list MemoryItem * list MemoryItem :=
  let toArchive :=
    filter (fun it => status it = deprecated ∨ isExpired it today = true) items in
  let archiveIds : gset string := list_to_set (map id toArchive) in
  let keep := filter (fun it => id it ∉ archiveIds) items in
  (keep, toArchive).

(** [s.replace(/[^...]+/g, "-")] for a character class given by [keep]:
    every maximal run of characters outside the class becomes one dash. *)
Fixpoint replaceRuns (keep : ascii → bool) (inRun : bool) (s : string) : string :=
  match s with
  | EmptyString => EmptyString
  | String c rest =>
      if keep c then String c (replaceRuns keep false rest)
      else if inRun then replaceRuns keep true rest
      else String "-"%char (replaceRuns keep true rest)
  end.

Definition isAsciiLetter (c : ascii) : bool :=
  let n := N_of_ascii c in
  (((65 <=? n) && (n <=? 90)) || ((97 <=? n) && (n <=? 122)))%N.

(** The class [[a-z0-9._-]] under the flag [i]. *)
Definition isLockNameChar (c : ascii) : bool :=
  isAsciiLetter c || Js.isDigit c || Ascii.eqb c "."%char
  || Ascii.eqb c "_"%char || Ascii.eqb c "-"%char.

(** [lockName.replace(/[^a-z0-9._-]+/gi, "-")], the file name that
    [resolveMemoryLockPath] gives the lock, before [".lock"]. *)
Definition safeLockName (lockName : string) : string :=
  replaceRuns isLockNameChar false lockName.

(** A value of the record that [asCliArgMap] returns. *)
Inductive ArgValue :=
| ArgString (s : string)
| ArgTrue.

(** [args[key] = v] on the object literal: the key [__proto__] names the
    prototype, and assigning a string or [true] to it stores nothing. *)
Definition setArg (key : string) (v : ArgValue) (args : gmap string ArgValue)
  : gmap string ArgValue :=
  if String.eqb key "__proto__" then args else <[key := v]> args.

(** The loop of [asCliArgMap] from some index on, with the record so far. *)
Fixpoint asCliArgLoop (argv : list string) (args : gmap string ArgValue)
  : gmap string ArgValue :=
  match argv with
  | [] => args
  | arg :: rest =>
      if negb (Js.startsWith arg "--") then asCliArgLoop rest args
      else
        let key := String.substring 2 (String.length arg - 2) arg in
        match rest with
        | value :: rest' =>
            if negb (Js.isEmpty value) && negb (Js.startsWith value "--")
            then asCliArgLoop rest' (setArg key (ArgString value) args)
            else asCliArgLoop rest (setArg key ArgTrue args)
        | [] => setArg key ArgTrue args
        end
  end.

Definition asCliArgMap (argv : list string) : gmap string ArgValue :=
  asCliArgLoop argv ∅.

(** [peers.add(id)] on a [Set<string>], in insertion order. *)
Definition setAdd (peers : list string) (x : string) : list string :=
  if bool_decide (x ∈ peers) then peers else peers ++ [x].

(** [findActiveConflictPeers] of the triage script: the ids of the active
    items in conflict with [item]. *)
Definition findActiveConflictPeers `{Platform} (item : MemoryItem)
    (activeItems : list MemoryItem) : list string :=
  if negb (bool_decide (status item = active)) then []
  else
    let peers :=
      fold_left
        (fun peers pair =>
           if String.eqb (id (left pair)) (id item)
           then setAdd peers (id (right pair))
           else if String.eqb (id (right pair)) (id item)
                then setAdd peers (id (left pair))
                else peers)
        (listActiveConflictPairs (activeItems ++ [item])) [] in
    toSorted localeCompare peers.

(** [main] of the prune script up to its two filters: the audit of the
    memory file, the refusal on a severe verdict ([None]) and the items to
    keep and to archive. *)
Definition prunePlan `{Platform} (paths : MemoryStatusPaths) (f : StoreFile)
    (today : string) (d : Disk) : option (list MemoryItem * list MemoryItem) :=
  let summary := auditMemory paths f today d in
  let exitCode := auditExitCode (summaryIssues summary) in
  if exitCode =? 2 then None else Some (pruneSplit (summaryItems summary) today).

(** ** Vocabulary of the proofs *)

(** A string that does not start with white space. *)
Definition startTrimmed (s : string) : Prop :=
  match s with
  | EmptyString => True
  | String c _ => Js.isWhiteSpace c = false
  end.

(** What [buildItem] requires of the properties [obj] of a record to build
    the item [it] from it. *)
Record Accepts (obj : RawObject) (it : MemoryItem) : Prop := {
  acc_id : asString (getProp obj "id") = Some (id it);
  acc_id_format : testIdPattern (id it) = true;
  acc_topic : asString (getProp obj "topic") = Some (topic it);
  acc_key : asString (getProp obj "key") = Some (key it);
  acc_value : primitiveValue (getProp obj "value") = Some (value it);
  acc_status : normalizeStatus (getProp obj "status") = Some (status it);
  acc_source : asString (getProp obj "source") = Some (source it);
  acc_source_valid : isValidSource (source it) = true;
  acc_from : asString (getProp obj "effective_from") = Some (effective_from it);
  acc_expires : asString (getProp obj "expires") = Some (expires it);
  acc_window :
    ∃ fromTs toTs, parseIsoDay (effective_from it) = Some fromTs
                   ∧ parseIsoDay (expires it) = Some toTs ∧ fromTs <= toTs;
  acc_scope :
    ∃ props,
      scopeObject (getProp obj "scope") = Some props
      ∧ normalizeEnv (getProp props "env") = Some (env (scope it))
      ∧ asString (getProp props "service") = service (scope it)
      ∧ asString (getProp props "region") = region (scope it);
  acc_updated : asString (getProp obj "updated") = updated it;
  acc_updated_day : ∀ u, updated it = Some u → is_Some (parseIsoDay u);
  acc_next : asString (getProp obj "next") = next it;
  acc_confidence : normalizeConfidence (getProp obj "confidence") = confidence it;
}.

(** An item whose own plain object yields it back. *)
Definition WellFormed (it : MemoryItem) : Prop := Accepts (itemProps it) it.

(** [a] may stand before [b] in a list sorted by [cmp]. *)
Definition ordered {A : Type} (cmp : A → A → Z) (a b : A) : Prop := cmp a b <= 0.

(** What a load makes of one bucket file. *)
Definition loadedBucket `{Platform} (paths : MemoryStatusPaths) (d : Disk)
    (s : MemoryStatus) : list MemoryItem :=
  match readFile d (bucketPath s) with
  | None => []
  | Some raw =>
      withStatus s
      <$> (readMemoryItems (pathText paths (bucketPath s)) (Some raw)).1
  end.

(** The first item of a list with the given id. *)
Definition firstWithId (items : list MemoryItem) (i : string) : option MemoryItem :=
  findIndex items i ≫= (items !!.).

(** The bucket and the item that [findItemStatus] reports. *)
Fixpoint locate (order : list MemoryStatus) (buckets : StatusBuckets)
    (i : string) : option (MemoryStatus * MemoryItem) :=
  match order with
  | [] => None
  | s :: rest =>
      match firstWithId (bucket buckets s) i with
      | Some it => Some (s, it)
      | None => locate rest buckets i
      end
  end.

(** Every item of every bucket is well formed and carries the status of its
    bucket. *)
Definition GoodBuckets (buckets : StatusBuckets) : Prop :=
  ∀ s, Forall (fun it => WellFormed it ∧ status it = s) (bucket buckets s).

(** The buckets with each list sorted. *)
Definition sortedBuckets `{Platform} (buckets : StatusBuckets) : StatusBuckets :=
  {| activeBucket := sortItems (activeBucket buckets);
     pendingBucket := sortItems (pendingBucket buckets);
     deprecatedBucket := sortItems (deprecatedBucket buckets) |}.

(** [a] stands before [b] in the list. *)
Definition occursBefore {A} (a b : A) (l : list A) : Prop :=
  ∃ l1 l2 l3, l = l1 ++ a :: l2 ++ b :: l3.

(** How many items of the list have the id [i]. *)
Definition occurrences (i : string) (items : list MemoryItem) : nat :=
  length (filter (fun it => id it = i) items).

(** The message of the duplicate-id issue for an id that occurs [n] times. *)
Definition duplicateMessage (i : string) (n : nat) : string :=
  "Duplicate id '" +:+ i +:+ "' appears " +:+ Js.ofNat n +:+ " times".

(** All the items of the three buckets, in the order in which
    [flattenBuckets] concatenates them. *)
Definition allItems (buckets : StatusBuckets) : list MemoryItem :=
  activeBucket buckets ++ pendingBucket buckets ++ deprecatedBucket buckets.

#[global] Instance LockEvent_eq_dec : EqDecision LockEvent.
Proof. solve_decision. Defined.

(** How many times a run created the lock file, and released it. *)
Definition createdCount (evs : list LockEvent) : nat :=
  length (filter (fun ev => ev = EvCreated) evs).
Definition releasedCount (evs : list LockEvent) : nat :=
  length (filter (fun ev => ev = EvReleased) evs).

(** What an entry of the record says about the command line [whole]. *)
Definition argFrom (whole : list string) (k : string) (val : ArgValue) : Prop :=
  k ≠ "__proto__"
  ∧ match val with
    | ArgString v =>
        v ≠ "" ∧ Js.startsWith v "--" = false
        ∧ ∃ l1 l2, whole = l1 ++ ("--" +:+ k) :: v :: l2
    | ArgTrue =>
        ∃ l1 l2, whole = l1 ++ ("--" +:+ k) :: l2
                 ∧ match l2 with
                   | [] => True
                   | following :: _ =>
                       following = "" ∨ Js.startsWith following "--" = true
                   end
    end.

(** * Properties *)

(** ** Audit severity *)

Lemma existsb_code (p : AuditIssueCode → bool) (issues : list AuditIssue) :
  existsb (fun issue => p (code issue)) issues = true
  ↔ ∃ issue, issue ∈ issues ∧ p (code issue) = true.
Proof.
  rewrite existsb_exists. split; intros (issue & Hin & Hp); exists issue;
    (split; [by apply list_elem_of_In | done]).
Qed.

Lemma isSevereCode_true c :
  isSevereCode c = true
  ↔ c = schema ∨ c = duplicate_id ∨ c = no_source ∨ c = conflict.
Proof. destruct c; simpl; intuition congruence. Qed.

Lemma isStaleCode_true c : isStaleCode c = true ↔ c = stale.
Proof. destruct c; simpl; intuition congruence. Qed.

(** C2: the exit code is 2 exactly when some issue is a schema, duplicate-id,
    no-source or conflict issue; it is 1 exactly when there is none of those
    and some issue is stale; it is 0 exactly when there is neither. *)
Theorem auditExitCode_severity (issues : list AuditIssue) :
  let severe :=
    ∃ issue, issue ∈ issues
             ∧ (code issue = schema ∨ code issue = duplicate_id
                ∨ code issue = no_source ∨ code issue = conflict) in
  let staleOnly := ∃ issue, issue ∈ issues ∧ code issue = stale in
  (auditExitCode issues = 2 ↔ severe)
  ∧ (auditExitCode issues = 1 ↔ ¬ severe ∧ staleOnly)
  ∧ (auditExitCode issues = 0 ↔ ¬ severe ∧ ¬ staleOnly).
Proof.
  intros severe staleOnly.
  assert (Hsev : existsb (fun issue => isSevereCode (code issue)) issues = true
                 ↔ severe).
  { rewrite existsb_code. unfold severe.
    split; intros (issue & Hin & Hc); exists issue; split; try done;
      by apply isSevereCode_true. }
  assert (Hst : existsb (fun issue => isStaleCode (code issue)) issues = true
                ↔ staleOnly).
  { rewrite existsb_code. unfold staleOnly.
    split; intros (issue & Hin & Hc); exists issue; split; try done;
      by apply isStaleCode_true. }
  unfold auditExitCode.
  destruct (existsb (fun issue => isSevereCode (code issue)) issues);
    destruct (existsb (fun issue => isStaleCode (code issue)) issues);
    repeat split; intros; try done; intuition (try discriminate; try lia).
Qed.

(** ** Conflict detector *)

Lemma sameString_true (a b : option string) : sameString a b = true ↔ a = b.
Proof.
  destruct a as [x|], b as [y|]; simpl; try (intuition congruence).
  rewrite String.eqb_eq. intuition congruence.
Qed.

Lemma includes_true allowed s : includes allowed s = true ↔ s ∈ allowed.
Proof. unfold includes. by rewrite bool_decide_eq_true. Qed.

Lemma scopesIntersect_true (a b : MemoryScope) :
  scopesIntersect a b = true
  ↔ (env a = env_all ∨ env b = env_all ∨ env a = env b)
    ∧ (unset (service a) = true ∨ unset (service b) = true ∨ service a = service b)
    ∧ (unset (region a) = true ∨ unset (region b) = true ∨ region a = region b).
Proof.
  unfold scopesIntersect.
  rewrite <- !sameString_true.
  repeat case_bool_decide; simpl;
    destruct (unset (service a)), (unset (service b)),
      (sameString (service a) (service b)); simpl;
    destruct (unset (region a)), (unset (region b)),
      (sameString (region a) (region b)); simpl;
    intuition congruence.
Qed.

Lemma datesOverlap_true (aStart aEnd bStart bEnd : string) :
  datesOverlap aStart aEnd bStart bEnd = true
  ↔ ∃ aStartTs aEndTs bStartTs bEndTs,
      parseIsoDay aStart = Some aStartTs ∧ parseIsoDay aEnd = Some aEndTs
      ∧ parseIsoDay bStart = Some bStartTs ∧ parseIsoDay bEnd = Some bEndTs
      ∧ aStartTs <= bEndTs ∧ bStartTs <= aEndTs.
Proof.
  unfold datesOverlap.
  destruct (parseIsoDay aStart) as [t1|], (parseIsoDay aEnd) as [t2|],
    (parseIsoDay bStart) as [t3|], (parseIsoDay bEnd) as [t4|];
    try (split; [discriminate | by intros (? & ? & ? & ? & ? & ? & ? & ? & ?)]).
  rewrite andb_true_iff, !Z.leb_le. split.
  - intros [? ?]. by exists t1, t2, t3, t4.
  - intros (? & ? & ? & ? & ? & ? & ? & ? & ? & ?). by simplify_eq.
Qed.

(** C3, as the code has it: the predicate holds exactly when both statuses
    are among the allowed ones (active alone by default), topic and key are
    equal, the values are not strictly equal, the scopes intersect (env equal
    or either is all; service equal or either unset or empty; region
    likewise), and the four dates parse as ISO days with the closed windows
    overlapping. *)
Theorem isConflictPair_iff (l r : MemoryItem) (options : option (list MemoryStatus)) :
  isConflictPair l r options = true
  ↔ status l ∈ allowedStatusesOf options
    ∧ status r ∈ allowedStatusesOf options
    ∧ topic l = topic r
    ∧ key l = key r
    ∧ strictEquals (value l) (value r) = false
    ∧ (env (scope l) = env_all ∨ env (scope r) = env_all
       ∨ env (scope l) = env (scope r))
    ∧ (unset (service (scope l)) = true ∨ unset (service (scope r)) = true
       ∨ service (scope l) = service (scope r))
    ∧ (unset (region (scope l)) = true ∨ unset (region (scope r)) = true
       ∨ region (scope l) = region (scope r))
    ∧ ∃ lStart lEnd rStart rEnd,
        parseIsoDay (effective_from l) = Some lStart
        ∧ parseIsoDay (expires l) = Some lEnd
        ∧ parseIsoDay (effective_from r) = Some rStart
        ∧ parseIsoDay (expires r) = Some rEnd
        ∧ lStart <= rEnd ∧ rStart <= lEnd.
Proof.
  unfold isConflictPair.
  rewrite <- datesOverlap_true, <- !includes_true, <- !String.eqb_eq.
  pose proof (scopesIntersect_true (scope l) (scope r)) as Hscope.
  split.
  - intros Hc.
    destruct (includes _ (status l)), (includes _ (status r)),
      (String.eqb (topic l) (topic r)), (String.eqb (key l) (key r)),
      (strictEquals (value l) (value r)),
      (scopesIntersect (scope l) (scope r)); simpl in Hc; try discriminate.
    destruct Hscope as [(He & Hs & Hr) _]; [done |].
    by repeat split.
  - intros (H1 & H2 & H3 & H4 & H5 & He & Hs & Hr & Hd).
    rewrite H1, H2, H3, H4, H5. simpl.
    destruct Hscope as [_ ->]; [| done]. done.
Qed.

(** Counterexample to C3 as stated: two deprecated items with the same topic
    and key, different values, intersecting scopes and overlapping windows
    are not a conflict pair, under the default options and under the
    active+pending ones. *)
Lemma deprecated_pair_is_no_conflict :
  let a := {| id := "MEM-2024-01-001"; topic := "deploy"; key := "mode";
              value := VString "canary"; status := deprecated;
              source := "docs/deploy.md"; effective_from := "2024-01-01";
              expires := "2024-06-01";
              scope := {| env := env_all; service := None; region := None |};
              updated := None; confidence := None; next := None |} in
  let b := {| id := "MEM-2024-01-002"; topic := "deploy"; key := "mode";
              value := VString "blue-green"; status := deprecated;
              source := "docs/deploy.md"; effective_from := "2024-03-01";
              expires := "2024-09-01";
              scope := {| env := env_prod; service := None; region := None |};
              updated := None; confidence := None; next := None |} in
  topic a = topic b ∧ key a = key b ∧ value a ≠ value b
  ∧ scopesIntersect (scope a) (scope b) = true
  ∧ datesOverlap (effective_from a) (expires a) (effective_from b) (expires b) = true
  ∧ isConflictPair a b None = false
  ∧ isUnresolvedConflictPair a b = false.
Proof. vm_compute. repeat split; congruence. Qed.

(** ** File lock manager *)






Lemma lockLoop_granted {S T} params (task : S → Outcome T * S) start turns s :
  (∀ s0 e0, (task s0).1 = Thrown e0 → isEEXIST e0 = false) →
  lockGranted params start turns = true →
  result (lockLoop params task start turns s) = Some (task s).1
  ∧ finalState (lockLoop params task start turns s) = (task s).2.
Proof.
  intros Hplain. induction turns as [|a rest IH]; [done |].
  simpl. destruct (openError a) as [e|].
  - unfold onError. destruct (isEEXIST e); simpl; [| done].
    destruct (match readLockAgeMs a with
              | Some ageMs => effectiveStaleMs params <? ageMs
              | None => false
              end); [exact IH |].
    destruct (effectiveTimeoutMs params <=? nowAtCheck a - start); [done |].
    exact IH.
  - intros _. specialize (Hplain s).
    destruct (task s) as [[v|e] s']; simpl in *; [done |].
    unfold onError. by rewrite (Hplain e eq_refl).
Qed.

(** ** Validation of one record *)

Lemma trimEnd_idem s : Js.trimEnd (Js.trimEnd s) = Js.trimEnd s.
Proof.
  induction s as [|c r IH]; [done |]. simpl.
  destruct (Js.isWhiteSpace c && Js.isEmpty (Js.trimEnd r)) eqn:Hc; [done |].
  simpl. by rewrite IH, Hc.
Qed.

Lemma trimStart_startTrimmed s : startTrimmed (Js.trimStart s).
Proof.
  induction s as [|c r IH]; [done |]. simpl.
  destruct (Js.isWhiteSpace c) eqn:Hc; [done | exact Hc].
Qed.

Lemma trimStart_fixed s : startTrimmed s → Js.trimStart s = s.
Proof. destruct s as [|c r]; [done |]. simpl. by intros ->. Qed.

Lemma trimEnd_startTrimmed s : startTrimmed s → startTrimmed (Js.trimEnd s).
Proof.
  destruct s as [|c r]; [done |]. simpl. intros Hc. rewrite Hc. simpl. exact Hc.
Qed.

Lemma trim_idem s : Js.trim (Js.trim s) = Js.trim s.
Proof.
  unfold Js.trim.
  rewrite (trimStart_fixed (Js.trimEnd (Js.trimStart s))).
  - apply trimEnd_idem.
  - apply trimEnd_startTrimmed, trimStart_startTrimmed.
Qed.

(** A string that [asString] produced is returned unchanged by [asString]. *)
Lemma asString_fixed v s : asString v = Some s → asString (JString s) = Some s.
Proof.
  destruct v as [| | | |raw| |]; try done. simpl.
  destruct (Js.isEmpty (Js.trim raw)) eqn:He; [done |].
  intros [= <-]. by rewrite trim_idem, He.
Qed.

#[local] Arguments String.append : simpl never.

Lemma buildItem_inv raw index it :
  item (buildItem raw index) = Some it →
  ∃ obj, asObject raw = Some obj ∧ Accepts obj it.
Proof.
  unfold buildItem. destruct (asObject raw) as [obj|]; [| done].
  intros Hit. exists obj. split; [done |]. cbv zeta in Hit.
  destruct (asString (getProp obj "id")) as [i|] eqn:Hid; [| done].
  simpl in Hit.
  destruct (testIdPattern i) eqn:Hfmt; [| done]. simpl in Hit.
  destruct (asString (getProp obj "topic")) as [t|] eqn:Ht; [| done].
  simpl in Hit.
  destruct (asString (getProp obj "key")) as [k|] eqn:Hk; [| done].
  simpl in Hit.
  destruct (primitiveValue (getProp obj "value")) as [v|] eqn:Hv; [| done].
  simpl in Hit.
  destruct (normalizeStatus (getProp obj "status")) as [st|] eqn:Hst; [| done].
  simpl in Hit.
  destruct (asString (getProp obj "source")) as [src|] eqn:Hsrc; [| done].
  simpl in Hit.
  destruct (isValidSource src) eqn:Hvalid; [| done]. simpl in Hit.
  destruct (asString (getProp obj "effective_from")) as [ef|] eqn:Hef; [| done].
  simpl in Hit.
  destruct (parseIsoDay ef) as [fromTs|] eqn:Hfrom; [| done]. simpl in Hit.
  destruct (asString (getProp obj "expires")) as [ex|] eqn:Hex; [| done].
  simpl in Hit.
  destruct (parseIsoDay ex) as [toTs|] eqn:Hto; [| done]. simpl in Hit.
  destruct (Z.ltb_spec toTs fromTs) as [|Hle]; [done |]. simpl in Hit.
  destruct (scopeObject (getProp obj "scope")) as [props|] eqn:Hscope; [| done].
  simpl in Hit.
  destruct (normalizeEnv (getProp props "env")) as [e|] eqn:Henv; [| done].
  simpl in Hit.
  destruct (asString (getProp obj "updated")) as [u|] eqn:Hup; simpl in Hit.
  - destruct (parseIsoDay u) as [upTs|] eqn:Hupd; [| done]. simpl in Hit.
    injection Hit as <-. split; simpl; try done.
    + by exists fromTs, toTs.
    + by exists props.
    + intros ? [= <-]. by rewrite Hupd.
  - injection Hit as <-. split; simpl; try done.
    + by exists fromTs, toTs.
    + by exists props.
Qed.

Lemma buildItem_accepts raw obj it index :
  asObject raw = Some obj → Accepts obj it →
  buildItem raw index = {| item := Some it; issues := [] |}.
Proof.
  intros Hobj [Hid Hfmt Ht Hk Hv Hst Hsrc Hvalid Hef Hex
                 (fromTs & toTs & Hfrom & Hto & Hle)
                 (props & Hscope & Henv & Hsv & Hrg) Hup Hupd Hnx Hcf].
  unfold buildItem. rewrite Hobj. cbv zeta.
  rewrite Hid, Ht, Hk, Hv, Hst, Hsrc, Hef, Hex, Hscope. simpl.
  rewrite Hfmt, Hvalid, Hfrom, Hto, Henv, Hsv, Hrg, Hup, Hnx, Hcf. simpl.
  destruct (Z.ltb_spec toTs fromTs); [lia |]. simpl.
  destruct it as [? ? ? ? ? ? ? ? [? ? ?] up ? ?]; simpl in *.
  destruct up as [u|]; simpl; [| done].
  destruct (Hupd u eq_refl) as [upTs ->]. done.
Qed.

(** An item is built exactly when no issue was collected. *)
Lemma buildItem_item_iff_clean raw index :
  is_Some (item (buildItem raw index)) ↔ issues (buildItem raw index) = [].
Proof.
  split.
  - intros [it Hit]. destruct (buildItem_inv _ _ _ Hit) as (obj & Hobj & Hacc).
    by rewrite (buildItem_accepts _ _ _ index Hobj Hacc).
  - unfold buildItem. destruct (asObject raw) as [obj|]; [| done]. cbv zeta.
    match goal with
    | |- issues (match ?c with _ => _ end) = [] → _ =>
        destruct c as [|x rest] eqn:Hc
    end.
    + intros _.
      repeat (apply app_eq_nil in Hc;
              let H1 := fresh "Hnil" in destruct Hc as [H1 Hc]).
      destruct (asString (getProp obj "id")); [| done].
      destruct (asString (getProp obj "topic")); [| done].
      destruct (asString (getProp obj "key")); [| done].
      destruct (primitiveValue (getProp obj "value")); [| done].
      destruct (normalizeStatus (getProp obj "status")); [| done].
      destruct (asString (getProp obj "source")); [| done].
      destruct (asString (getProp obj "effective_from")); [| done].
      destruct (asString (getProp obj "expires")); [| done].
      destruct (normalizeEnv _); [| done].
      by eexists.
    + by repeat case_match.
Qed.

(** The item that a record yields does not depend on its position. *)
Lemma buildItem_item_index raw i j :
  item (buildItem raw i) = item (buildItem raw j).
Proof.
  destruct (item (buildItem raw i)) as [it|] eqn:Hi.
  - destruct (buildItem_inv _ _ _ Hi) as (obj & Hobj & Hacc).
    by rewrite (buildItem_accepts _ _ _ j Hobj Hacc).
  - destruct (item (buildItem raw j)) as [it|] eqn:Hj; [| done].
    destruct (buildItem_inv _ _ _ Hj) as (obj & Hobj & Hacc).
    rewrite (buildItem_accepts _ _ _ i Hobj Hacc) in Hi. done.
Qed.

(** Every issue of a record is a schema issue or a no-source issue. *)
Lemma buildItem_codes raw index issue :
  issue ∈ issues (buildItem raw index) →
  code issue = schema ∨ code issue = no_source.
Proof.
  unfold buildItem. destruct (asObject raw) as [obj|].
  - cbv zeta.
    set (collected := _ ++ _).
    assert (Hall : ∀ x, x ∈ collected → code x = schema ∨ code x = no_source).
    { subst collected. intros x Hx.
      repeat (apply elem_of_app in Hx; destruct Hx as [Hx|Hx]);
        repeat match type of Hx with
               | _ ∈ match ?o with _ => _ end => destruct o
               | _ ∈ pushIf ?c _ => destruct c; simpl in Hx
               end;
        try (by apply elem_of_nil in Hx);
        apply list_elem_of_singleton in Hx; subst x; simpl; auto. }
    intros Hin. apply Hall.
    by repeat match type of Hin with
              | _ ∈ issues (match ?o with _ => _ end) => destruct o
              end.
  - simpl. intros Hin. apply list_elem_of_singleton in Hin. subst. by left.
Qed.

(** ** Reading a list of records *)

Lemma readRecords_buildAll parsed index items collected :
  readRecords parsed index items collected
  = (items ++ omap item (buildAll parsed index),
     collected ++ concat (issues <$> buildAll parsed index)).
Proof.
  revert index items collected.
  induction parsed as [|raw rest IH]; intros index items collected; simpl.
  - by rewrite !app_nil_r.
  - rewrite IH. destruct (item (buildItem raw index)); simpl;
      by rewrite <- ?app_assoc.
Qed.

Lemma buildAll_items parsed index :
  omap item (buildAll parsed index)
  = omap (fun raw => item (buildItem raw 0)) parsed.
Proof.
  revert index. induction parsed as [|raw rest IH]; intros index; [done |].
  simpl. by rewrite IH, (buildItem_item_index raw index 0).
Qed.

(** C7, as the code has it: the items read from a parsed list are the items
    of its records, each validated alone, and do not depend on the other
    records or on the position; the issues are those of the records in
    order; every issue of a record has code schema or no-source; a record
    yields no item exactly when it has an issue; and reading a file whose
    text parses to a list returns these two lists without throwing. *)
Theorem records_validated_independently `{Platform}
    (filePath raw : string) (parsed : list JsValue) :
  (∀ index items collected,
     readRecords parsed index items collected
     = (items ++ omap (fun record => item (buildItem record 0)) parsed,
        collected ++ concat (issues <$> buildAll parsed index)))
  ∧ (YAML_parse raw = YamlValue (JArray parsed) →
     readMemoryItems filePath (Some raw)
     = (omap (fun record => item (buildItem record 0)) parsed,
        concat (issues <$> buildAll parsed 0)))
  ∧ (∀ record index,
       (∀ issue, issue ∈ issues (buildItem record index) →
                 code issue = schema ∨ code issue = no_source)
       ∧ (item (buildItem record index) = None
          ↔ issues (buildItem record index) ≠ [])
       ∧ (∀ other, item (buildItem record other) = item (buildItem record index))).
Proof.
  split; [| split].
  - intros index items collected.
    by rewrite readRecords_buildAll, buildAll_items.
  - intros Hparse. unfold readMemoryItems. rewrite Hparse.
    by rewrite readRecords_buildAll, buildAll_items.
  - intros record index. split; [| split].
    + apply buildItem_codes.
    + pose proof (buildItem_item_iff_clean record index) as Hclean.
      destruct (item (buildItem record index)) as [it|].
      * split; [done |]. intros Hne. destruct Hne. by apply Hclean.
      * split; [| done]. intros _ Hnil. apply Hclean in Hnil.
        by destruct Hnil.
    + intros other. apply buildItem_item_index.
Qed.

(** Counterexample to C7 as stated: a record whose only field error is its
    source contributes one issue, and its code is no-source, not schema. *)
Lemma invalid_source_is_not_a_schema_issue :
  let record :=
    JObject [("id", JString "MEM-2024-01-001"); ("topic", JString "deploy");
             ("key", JString "mode"); ("value", JString "canary");
             ("status", JString "active");
             ("source", JString "ftp://example.com/runbook");
             ("effective_from", JString "2024-01-01");
             ("expires", JString "2024-06-01")] in
  readRecords [record] 0 [] []
  = ([], [makeIssue no_source
            "Item MEM-2024-01-001 has invalid source 'ftp://example.com/runbook'"
            ["MEM-2024-01-001"]])
  ∧ ∀ issue, issue ∈ issues (buildItem record 0) → code issue ≠ schema.
Proof.
  split; [vm_compute; reflexivity |].
  intros issue Hin. vm_compute in Hin.
  apply list_elem_of_singleton in Hin. by subst.
Qed.

(** ** Items that survive the round trip *)

Lemma normalizeStatus_name st : normalizeStatus (JString (statusName st)) = Some st.
Proof. by destruct st. Qed.

Lemma normalizeEnv_name e : normalizeEnv (JString (envName e)) = Some e.
Proof. by destruct e. Qed.

Lemma normalizeConfidence_name c :
  normalizeConfidence (JString (confidenceName c)) = Some c.
Proof. by destruct c. Qed.

Lemma asString_fixed_option v (o : option string) :
  asString v = o →
  asString (match o with Some s => JString s | None => JUndefined end) = o.
Proof. destruct o as [s|]; [apply asString_fixed | done]. Qed.

Lemma accepts_wellFormed obj it st :
  Accepts obj it → WellFormed (withStatus st it).
Proof.
  intros [Hid Hfmt Ht Hk Hv Hst Hsrc Hvalid Hef Hex Hwin
            (props & Hscope & Henv & Hsv & Hrg) Hup Hupd Hnx Hcf].
  apply asString_fixed in Hid, Ht, Hk, Hsrc, Hef, Hex.
  apply asString_fixed_option in Hsv, Hrg, Hup, Hnx.
  destruct it as [i t k v st0 src ef ex [e sv rg] up cf nx]; simpl in *.
  split; simpl; try done.
  - by destruct v.
  - apply normalizeStatus_name.
  - eexists. split; [reflexivity |]. simpl.
    split; [apply normalizeEnv_name |].
    by destruct sv, rg.
  - by destruct up, cf, nx.
  - by destruct up, cf, nx.
  - destruct cf as [c|]; [| by destruct up, nx].
    destruct up, nx; apply normalizeConfidence_name.
Qed.

Lemma withStatus_same it : withStatus (status it) it = it.
Proof. by destruct it. Qed.

Lemma buildItem_wellFormed raw index it :
  item (buildItem raw index) = Some it → WellFormed it.
Proof.
  intros Hit. destruct (buildItem_inv _ _ _ Hit) as (obj & _ & Hacc).
  rewrite <- (withStatus_same it). by eapply accepts_wellFormed.
Qed.

Lemma wellFormed_withStatus it st : WellFormed it → WellFormed (withStatus st it).
Proof. apply accepts_wellFormed. Qed.

Lemma wellFormed_build it index :
  WellFormed it → buildItem (jsOfItem it) index = {| item := Some it; issues := [] |}.
Proof. intros Hwf. by apply (buildItem_accepts _ (itemProps it)). Qed.

Lemma readRecords_wellFormed (l : list MemoryItem) index items collected :
  Forall WellFormed l →
  readRecords (map jsOfItem l) index items collected = (items ++ l, collected).
Proof.
  intros Hall. revert index items collected.
  induction Hall as [|it rest Hit _ IH]; intros index items collected; simpl.
  - by rewrite app_nil_r.
  - rewrite (wellFormed_build it index Hit). simpl.
    by rewrite IH, <- app_assoc, app_nil_r.
Qed.

(** ** Sorting *)

Section Sorting.
Context {A : Type} (cmp : A → A → Z).

Lemma insertSorted_perm x l : insertSorted cmp x l ≡ₚ x :: l.
Proof.
  induction l as [|y rest IH]; simpl; [done |].
  destruct (cmp x y <=? 0); [done |]. rewrite IH. apply perm_swap.
Qed.

Lemma toSorted_perm l : toSorted cmp l ≡ₚ l.
Proof.
  induction l as [|x rest IH]; simpl; [done |].
  rewrite insertSorted_perm. by rewrite IH.
Qed.

Lemma toSorted_elem x l : x ∈ toSorted cmp l ↔ x ∈ l.
Proof. by rewrite toSorted_perm. Qed.

Lemma toSorted_fixed l : Sorted (ordered cmp) l → toSorted cmp l = l.
Proof.
  induction 1 as [|x rest Hrest IH Hhd]; simpl; [done |].
  rewrite IH. destruct Hhd as [|y rest' Hxy]; simpl; [done |].
  unfold ordered in Hxy. by destruct (Z.leb_spec (cmp x y) 0); [| lia].
Qed.

Lemma insertSorted_sorted x l :
  (∀ a b, 0 < cmp a b → cmp b a <= 0) →
  Sorted (ordered cmp) l → Sorted (ordered cmp) (insertSorted cmp x l).
Proof.
  intros Hanti. induction 1 as [|y rest Hrest IH Hhd]; simpl.
  - by repeat constructor.
  - destruct (Z.leb_spec (cmp x y) 0) as [Hle|Hgt].
    + constructor; [by constructor | by constructor].
    + constructor; [done |].
      destruct Hhd as [|z rest' Hyz]; simpl.
      * constructor. by apply Hanti.
      * destruct (cmp x z <=? 0); constructor; [by apply Hanti | done].
Qed.

Lemma toSorted_sorted l :
  (∀ a b, 0 < cmp a b → cmp b a <= 0) → Sorted (ordered cmp) (toSorted cmp l).
Proof.
  intros Hanti. induction l as [|x rest IH]; simpl; [constructor |].
  by apply insertSorted_sorted.
Qed.

Lemma toSorted_idem l :
  (∀ a b, 0 < cmp a b → cmp b a <= 0) →
  toSorted cmp (toSorted cmp l) = toSorted cmp l.
Proof. intros Hanti. by apply toSorted_fixed, toSorted_sorted. Qed.

End Sorting.

Lemma compareItems_antisym `{PlatformLaws} a b :
  0 < compareItems a b → compareItems b a <= 0.
Proof.
  unfold compareItems.
  rewrite (String.eqb_sym (topic b)), (String.eqb_sym (key b)).
  destruct (String.eqb (topic a) (topic b)); simpl;
    [| apply localeCompare_antisym].
  destruct (String.eqb (key a) (key b)); simpl; apply localeCompare_antisym.
Qed.

Lemma sortItems_idem `{PlatformLaws} items :
  sortItems (sortItems items) = sortItems items.
Proof. apply toSorted_idem. intros a b. apply compareItems_antisym. Qed.

Lemma sortItems_elem `{Platform} it items : it ∈ sortItems items ↔ it ∈ items.
Proof. apply toSorted_elem. Qed.

Lemma sortItems_Forall `{Platform} (P : MemoryItem → Prop) items :
  Forall P items → Forall P (sortItems items).
Proof.
  rewrite !Forall_forall. intros Hall it Hin. apply Hall.
  by apply sortItems_elem.
Qed.

(** ** Loading and saving the buckets *)

Section StoreFacts.
Context `{Platform} (paths : MemoryStatusPaths).

Lemma fold_pushItem s items b :
  fold_left (fun acc it => pushItem acc s (withStatus s it)) items b
  = setBucket b s (bucket b s ++ (withStatus s <$> items)).
Proof.
  revert b. induction items as [|it rest IH]; intros b; simpl.
  - rewrite app_nil_r. by destruct b, s.
  - rewrite IH. unfold pushItem. destruct b, s; simpl; by rewrite <- app_assoc.
Qed.

Lemma load_step d b s :
  (if negb (existsSync d (bucketPath s)) then b
   else
     let (items, _) :=
       readMemoryItems (pathText paths (bucketPath s)) (readFile d (bucketPath s)) in
     fold_left (fun acc it => pushItem acc s (withStatus s it)) items b)
  = setBucket b s (bucket b s ++ loadedBucket paths d s).
Proof.
  unfold existsSync, loadedBucket.
  destruct (readFile d (bucketPath s)) as [raw|]; cbn [isNone negb].
  - destruct (readMemoryItems (pathText paths (bucketPath s)) (Some raw))
      as [items ?].
    apply fold_pushItem.
  - rewrite app_nil_r. by destruct b, s.
Qed.

Lemma loadStatusBuckets_buckets d :
  loadStatusBuckets paths d
  = {| activeBucket := loadedBucket paths d active;
       pendingBucket := loadedBucket paths d pending;
       deprecatedBucket := loadedBucket paths d deprecated |}.
Proof.
  unfold loadStatusBuckets, STATUS_ORDER. cbn [fold_left].
  by rewrite !load_step.
Qed.

Lemma bucket_load d s : bucket (loadStatusBuckets paths d) s = loadedBucket paths d s.
Proof. rewrite loadStatusBuckets_buckets. by destruct s. Qed.


Lemma readFile_save buckets d s :
  readFile (saveStatusBuckets buckets d) (bucketPath s)
  = Some (serializeItems (sortItems (bucket buckets s))).
Proof. by destruct s. Qed.

Lemma bucketFiles_save buckets d :
  bucketFiles (saveStatusBuckets buckets d)
  = [Some (serializeItems (sortItems (activeBucket buckets)));
     Some (serializeItems (sortItems (pendingBucket buckets)));
     Some (serializeItems (sortItems (deprecatedBucket buckets)))].
Proof. done. Qed.

Lemma loaded_status d s it :
  it ∈ bucket (loadStatusBuckets paths d) s → status it = s.
Proof.
  rewrite bucket_load. unfold loadedBucket.
  destruct (readFile d (bucketPath s)); [| by intros ?%elem_of_nil].
  intros (x & -> & _)%list_elem_of_fmap. done.
Qed.

End StoreFacts.

(** C9: after a load every item of a bucket has the status of that bucket;
    the bucket is the list of the items read from its file with their status
    overwritten, whatever status the file stores; and the save that follows
    writes, for each bucket, a list all of whose items carry the status of
    the bucket. *)
Theorem bucket_membership_is_authoritative `{Platform}
    (paths : MemoryStatusPaths) (d : Disk) :
  (∀ s it, it ∈ bucket (loadStatusBuckets paths d) s → status it = s)
  ∧ (∀ s,
       bucket (loadStatusBuckets paths d) s
       = match readFile d (bucketPath s) with
         | None => []
         | Some raw =>
             withStatus s
             <$> (readMemoryItems (pathText paths (bucketPath s)) (Some raw)).1
         end)
  ∧ (∀ s d',
       let written := sortItems (sortItems (bucket (loadStatusBuckets paths d) s)) in
       readFile (saveStatusBuckets (loadStatusBuckets paths d) d') (bucketPath s)
       = Some (YAML_stringify written)
       ∧ Forall (fun it => status it = s) written).
Proof.
  split; [| split].
  - intros s it. apply loaded_status.
  - intros s. apply bucket_load.
  - intros s d' written. split; [apply readFile_save |].
    subst written. do 2 apply sortItems_Forall.
    apply Forall_forall. intros it. apply loaded_status.
Qed.

(** ** Locating and removing items *)

Lemma firstWithId_cons it items i :
  firstWithId (it :: items) i
  = if String.eqb (id it) i then Some it else firstWithId items i.
Proof.
  unfold firstWithId. simpl. destruct (String.eqb (id it) i); [done |].
  by destruct (findIndex items i).
Qed.

Lemma firstWithId_id items i it : firstWithId items i = Some it → id it = i.
Proof.
  induction items as [|x rest IH]; [done |]. rewrite firstWithId_cons.
  destruct (String.eqb_spec (id x) i); [by intros [= <-] | done].
Qed.

Lemma firstWithId_elem items i it : firstWithId items i = Some it → it ∈ items.
Proof.
  unfold firstWithId. destruct (findIndex items i) as [n|]; [| done]. simpl.
  apply list_elem_of_lookup_2.
Qed.


Lemma bucket_setBucket b s items s' :
  bucket (setBucket b s items) s' = if decide (s = s') then items else bucket b s'.
Proof. by destruct s, s'. Qed.

Lemma findItemIn_locate order buckets i :
  (fun loc => (locatedStatus loc, locatedItem loc)) <$> findItemIn order buckets i
  = locate order buckets i.
Proof.
  induction order as [|s rest IH]; [done |]. simpl. unfold firstWithId.
  destruct (findIndex (bucket buckets s) i) as [n|]; simpl; [| exact IH].
  destruct (bucket buckets s !! n); [done | exact IH].
Qed.

Lemma findItemIn_lookup order buckets i loc :
  findItemIn order buckets i = Some loc →
  bucket buckets (locatedStatus loc) !! locatedIndex loc = Some (locatedItem loc).
Proof.
  induction order as [|s rest IH]; [done |]. simpl.
  destruct (findIndex (bucket buckets s) i) as [n|]; [| exact IH].
  destruct (bucket buckets s !! n) as [it|] eqn:Hn; [| exact IH].
  by intros [= <-].
Qed.

Lemma locate_id order buckets i s it :
  locate order buckets i = Some (s, it) → id it = i ∧ it ∈ bucket buckets s.
Proof.
  induction order as [|s0 rest IH]; [done |]. simpl.
  destruct (firstWithId (bucket buckets s0) i) as [x|] eqn:Hx; [| exact IH].
  intros [= <- <-]. split; [by eapply firstWithId_id | by eapply firstWithId_elem].
Qed.

Lemma findItemStatus_item buckets i loc :
  findItemStatus buckets i = Some loc →
  id (locatedItem loc) = i
  ∧ locatedItem loc ∈ bucket buckets (locatedStatus loc)
  ∧ bucket buckets (locatedStatus loc) !! locatedIndex loc = Some (locatedItem loc).
Proof.
  intros Hloc. pose proof (findItemIn_locate STATUS_ORDER buckets i) as Hview.
  unfold findItemStatus in Hloc. rewrite Hloc in Hview.
  cbn [fmap option_fmap option_map] in Hview.
  symmetry in Hview. apply locate_id in Hview as [Hid Hin].
  repeat split; try done. by eapply findItemIn_lookup.
Qed.



Lemma cloneBuckets_same buckets : cloneBuckets buckets = buckets.
Proof.
  assert (Hmap : ∀ l, map cloneItem l = l).
  { induction l as [|it rest IH]; [done |]. simpl. rewrite IH.
    by destruct it as [? ? ? ? ? ? ? ? [? ? ?] ? ? ?]. }
  destruct buckets. unfold cloneBuckets. simpl. by rewrite !Hmap.
Qed.

(** ** The commit block and the tasks *)

Section Commit.
Context `{Platform} (paths : MemoryStatusPaths).

Lemma tryCommit_severe label current previous today d :
  postAuditExit paths current today d = 2 →
  ∃ e,
    tryCommit paths label current previous today d
    = (Some e,
       renderRuntimeActiveMemory previous
         (rebuildUnifiedMemory previous
            (saveStatusBuckets previous
               (rebuildUnifiedMemory current (saveStatusBuckets current d)))))
    ∧ isEEXIST e = false.
Proof.
  unfold postAuditExit, tryCommit. intros ->. by eexists.
Qed.


Lemma tryCommit_plain label current previous today d e d' :
  tryCommit paths label current previous today d = (Some e, d') →
  isEEXIST e = false.
Proof.
  unfold tryCommit. destruct (_ =? 2); [| done]. by intros [= <- _].
Qed.

Lemma removeItemById_plain current i e :
  removeItemById current i = Thrown e → isEEXIST e = false.
Proof.
  unfold removeItemById. destruct (findItemStatus current i) as [loc|].
  - destruct (bucket current _ !! _); [done | by intros [= <-]].
  - by intros [= <-].
Qed.

Lemma mergeInMemory_plain current leftId rightId mergedValue keepIdArg today e :
  mergeInMemory current leftId rightId mergedValue keepIdArg today = Thrown e →
  isEEXIST e = false.
Proof.
  unfold mergeInMemory.
  destruct (findItemStatus current leftId) as [l|]; [| by intros [= <-]].
  destruct (findItemStatus current rightId) as [r|]; [| by intros [= <-]].
  destruct (String.eqb leftId rightId); [by intros [= <-] |].
  destruct (negb (isUnresolvedConflictPair _ _)); [by intros [= <-] |].
  destruct (negb _ && negb _); [by intros [= <-] |].
  destruct (removeItemById current _) as [[keepOriginal current1]|e1] eqn:H1;
    [| intros [= <-]; by eapply removeItemById_plain].
  destruct (removeItemById current1 _) as [[otherOriginal current2]|e2] eqn:H2;
    [done | intros [= <-]; by eapply removeItemById_plain].
Qed.

Lemma statusChangeTask_plain i to todayArg clock d e :
  (statusChangeTask paths i to todayArg clock d).1 = Thrown e →
  isEEXIST e = false.
Proof.
  unfold statusChangeTask.
  destruct (findItemStatus _ i) as [located|]; [| by intros [= <-]].
  destruct (tryCommit _ _ _ _ _ _) as [[err|] d2] eqn:Hc; simpl.
  - intros [= <-]. by eapply tryCommit_plain.
  - destruct (findItemStatus _ i); [done | by intros [= <-]].
Qed.

Lemma conflictMergeTask_plain leftId rightId mergedValue keepIdArg todayArg clock d e :
  (conflictMergeTask paths leftId rightId mergedValue keepIdArg todayArg clock d).1
  = Thrown e →
  isEEXIST e = false.
Proof.
  unfold conflictMergeTask.
  destruct (mergeInMemory _ _ _ _ _ _) as [plan|e1] eqn:Hm; simpl.
  - destruct (tryCommit _ _ _ _ _ _) as [[err|] d2] eqn:Hc; simpl; [| done].
    intros [= <-]. by eapply tryCommit_plain.
  - intros [= <-]. by eapply mergeInMemory_plain.
Qed.

Lemma applyStatusChange_granted world i to todayArg clock d :
  lockGranted (statusLock paths) (startedAt world) (attempts world) = true →
  result (applyStatusChange paths world i to todayArg clock d)
  = Some (statusChangeTask paths i to todayArg clock d).1
  ∧ finalState (applyStatusChange paths world i to todayArg clock d)
    = (statusChangeTask paths i to todayArg clock d).2.
Proof.
  intros Hlock. apply lockLoop_granted; [| done].
  intros d0 e0. apply statusChangeTask_plain.
Qed.

Lemma applyConflictMerge_granted world leftId rightId mergedValue keepIdArg
    todayArg clock d :
  lockGranted (statusLock paths) (startedAt world) (attempts world) = true →
  result (applyConflictMerge paths world leftId rightId mergedValue keepIdArg
            todayArg clock d)
  = Some (conflictMergeTask paths leftId rightId mergedValue keepIdArg todayArg
            clock d).1
  ∧ finalState (applyConflictMerge paths world leftId rightId mergedValue
                  keepIdArg todayArg clock d)
    = (conflictMergeTask paths leftId rightId mergedValue keepIdArg todayArg
         clock d).2.
Proof.
  intros Hlock. apply lockLoop_granted; [| done].
  intros d0 e0. apply conflictMergeTask_plain.
Qed.


(** A disk whose bucket files a save of what is loaded leaves as they are
    is left as it is by [ensureStatusBuckets]. *)
Lemma ensure_normalized d :
  bucketFiles (saveStatusBuckets (loadStatusBuckets paths d) d) = bucketFiles d →
  ensureStatusBuckets paths d = d.
Proof.
  intros Hnorm. rewrite bucketFiles_save in Hnorm.
  injection Hnorm as Ha Hp Hd.
  assert (Hex : existsSync d ActiveYml = true).
  { unfold existsSync. simpl. by rewrite <- Ha. }
  unfold ensureStatusBuckets. rewrite Hex. cbn [orb].
  destruct d as [a p dp m w].
  unfold saveStatusBuckets, writeMemoryItems, writeTextFile, bucketPath.
  cbn [activeYml pendingYml deprecatedYml memoryYml workspace] in *.
  f_equal; assumption.
Qed.

End Commit.

(** ** The two mutations *)

Section Mutations.
Context `{Platform} (paths : MemoryStatusPaths).


(** The disk that the [catch] block leaves. *)
Lemma rollback_disk current previous d :
  let d' :=
    renderRuntimeActiveMemory previous
      (rebuildUnifiedMemory previous
         (saveStatusBuckets previous
            (rebuildUnifiedMemory current (saveStatusBuckets current d)))) in
  bucketFiles d' = bucketFiles (saveStatusBuckets previous d)
  ∧ memoryYml d' = Some (serializeItems (flattenBuckets previous))
  ∧ workspace d' = writeRuntimeProjection (flattenBuckets previous) (workspace d).
Proof. done. Qed.


(** C1, as the code has it: on a store whose bucket files a save of what is
    loaded leaves unchanged, a changeStatus or mergeConflict call whose
    audit after the mutation is severe throws, and leaves the three bucket
    files as they were before the call; the canonical file and the runtime
    projection are rewritten from the buckets loaded before the mutation. *)
Theorem severe_audit_rolls_back (world : LockWorld) (d : Disk) :
  lockGranted (statusLock paths) (startedAt world) (attempts world) = true →
  bucketFiles (saveStatusBuckets (loadStatusBuckets paths d) d) = bucketFiles d →
  let current := loadStatusBuckets paths d in
  let restored (d' : Disk) :=
    bucketFiles d' = bucketFiles d
    ∧ memoryYml d' = Some (serializeItems (flattenBuckets current))
    ∧ workspace d' = writeRuntimeProjection (flattenBuckets current) (workspace d) in
  (∀ i to todayArg clock located,
     let today := default clock todayArg in
     let run := applyStatusChange paths world i to todayArg clock d in
     findItemStatus current i = Some located →
     postAuditExit paths (changedBuckets current located to today) today d = 2 →
     (∃ e, result run = Some (Thrown e)) ∧ restored (finalState run))
  ∧ (∀ leftId rightId mergedValue keepIdArg todayArg clock plan,
       let today := default clock todayArg in
       let run :=
         applyConflictMerge paths world leftId rightId mergedValue keepIdArg
           todayArg clock d in
       mergeInMemory current leftId rightId mergedValue keepIdArg today
       = Returned plan →
       postAuditExit paths (planBuckets plan) today d = 2 →
       (∃ e, result run = Some (Thrown e)) ∧ restored (finalState run)).
Proof.
  intros Hlock Hnorm current restored.
  pose proof (ensure_normalized paths d Hnorm) as Hensure.
  split.
  - intros i to todayArg clock located today run Hfound Hsevere.
    destruct (applyStatusChange_granted paths world i to todayArg clock d Hlock)
      as [Hres Hfin].
    subst run. rewrite Hres, Hfin. unfold statusChangeTask.
    rewrite Hensure. fold current. fold today. rewrite Hfound.
    destruct (tryCommit_severe paths "status change"
                (changedBuckets current located to today)
                (cloneBuckets current) today d Hsevere) as (e & -> & _).
    simpl. split; [by exists e |].
    rewrite cloneBuckets_same. unfold restored.
    destruct (rollback_disk (changedBuckets current located to today) current d)
      as (Hb & Hm & Hw).
    rewrite Hb. split; [exact Hnorm | done].
  - intros leftId rightId mergedValue keepIdArg todayArg clock plan today run
      Hplan Hsevere.
    destruct (applyConflictMerge_granted paths world leftId rightId mergedValue
                keepIdArg todayArg clock d Hlock) as [Hres Hfin].
    subst run. rewrite Hres, Hfin. unfold conflictMergeTask.
    rewrite Hensure. fold current. fold today. rewrite Hplan.
    destruct (tryCommit_severe paths "conflict merge" (planBuckets plan)
                (cloneBuckets current) today d Hsevere) as (e & -> & _).
    simpl. split; [by exists e |].
    rewrite cloneBuckets_same. unfold restored.
    destruct (rollback_disk (planBuckets plan) current d) as (Hb & Hm & Hw).
    rewrite Hb. split; [exact Hnorm | done].
Qed.





End Mutations.

(** ** Initialisation is idempotent *)

Section Idempotence.
Context `{PlatformLaws} (paths : MemoryStatusPaths).


Lemma readMemoryItems_wellFormed filePath content :
  Forall WellFormed (readMemoryItems filePath content).1.
Proof.
  unfold readMemoryItems. destruct content as [raw|]; [| by constructor].
  destruct (YAML_parse raw) as [v|]; [| by constructor].
  destruct v; try by constructor.
  rewrite readRecords_buildAll. simpl.
  generalize 0%nat. induction elements as [|r rest IH]; intros n; simpl.
  - constructor.
  - destruct (item (buildItem r n)) as [it|] eqn:Hit; [| apply IH].
    constructor; [by eapply buildItem_wellFormed | apply IH].
Qed.

Lemma load_good d : GoodBuckets (loadStatusBuckets paths d).
Proof.
  intros s. rewrite bucket_load. unfold loadedBucket.
  destruct (readFile d (bucketPath s)) as [raw|]; [| constructor].
  apply Forall_fmap.
  eapply Forall_impl; [apply readMemoryItems_wellFormed |].
  intros it Hwf. simpl. split; [by apply wellFormed_withStatus | done].
Qed.


Lemma withStatus_fixed s (l : list MemoryItem) :
  Forall (fun it => status it = s) l → withStatus s <$> l = l.
Proof.
  induction 1 as [|it rest Hit _ IH]; [done |].
  rewrite fmap_cons, IH. f_equal. by rewrite <- Hit, withStatus_same.
Qed.

Lemma read_serialized filePath (l : list MemoryItem) :
  Forall WellFormed l →
  (readMemoryItems filePath (Some (serializeItems l))).1 = sortItems l.
Proof.
  intros Hwf. unfold readMemoryItems, serializeItems.
  rewrite YAML_round_trip, readRecords_wellFormed; [done |].
  by apply sortItems_Forall.
Qed.

(** Loading what was saved gives the saved buckets, sorted. *)
Lemma load_save buckets d :
  GoodBuckets buckets →
  loadStatusBuckets paths (saveStatusBuckets buckets d) = sortedBuckets buckets.
Proof.
  intros Hgood.
  assert (Hb : ∀ s, loadedBucket paths (saveStatusBuckets buckets d) s
                    = sortItems (bucket buckets s)).
  { intros s. unfold loadedBucket. rewrite readFile_save.
    rewrite read_serialized.
    - rewrite sortItems_idem. apply withStatus_fixed, sortItems_Forall.
      eapply Forall_impl; [apply (Hgood s) |]. by intros it [_ ?].
    - apply sortItems_Forall.
      eapply Forall_impl; [apply (Hgood s) |]. by intros it [? _]. }
  rewrite loadStatusBuckets_buckets, !Hb. done.
Qed.


Lemma bucketFiles_save_sorted buckets d d' :
  bucketFiles (saveStatusBuckets (sortedBuckets buckets) d)
  = bucketFiles (saveStatusBuckets buckets d').
Proof.
  rewrite !bucketFiles_save. unfold serializeItems. simpl.
  by rewrite !sortItems_idem.
Qed.

Lemma ensure_existing d :
  existsSync d ActiveYml = true →
  ensureStatusBuckets paths d
  = saveStatusBuckets (loadStatusBuckets paths d) d.
Proof. unfold ensureStatusBuckets. by intros ->. Qed.



End Idempotence.


(** ** Runs on the reference platform *)

Lemma bitsPos_posBits p : Reference.bitsPos (Reference.posBits p) = Some p.
Proof. induction p as [q IH|q IH|]; simpl; [by rewrite IH | by rewrite IH | done]. Qed.

Lemma compareStrings_antisym a b :
  0 < Reference.compareStrings a b → Reference.compareStrings b a <= 0.
Proof.
  unfold Reference.compareStrings. rewrite (String.compare_antisym a b).
  destruct (String.compare b a); simpl; lia.
Qed.

#[export] Instance reference_laws : @PlatformLaws Reference.platform.
Proof.
  split.
  - intros items. simpl. unfold Reference.parse, Reference.stringify.
    rewrite bitsPos_posBits. simpl. by rewrite decode_encode.
  - apply compareStrings_antisym.
Qed.


Section Runs.
Import Reference Fixtures.

(** C1 on a store in saved form: promoting the pending blue-green item next
    to the active canary item makes the audit severe; the call throws and
    the three bucket files are as before. *)
Lemma severe_audit_rolls_back_witness :
  let d := diskOf [canary] [blueGreen] (Some []) in
  let run :=
    applyStatusChange paths freeLock "MEM-2024-01-002" active
      (Some "2024-04-01") "2024-04-02" d in
  (∃ e, result run = Some (Thrown e))
  ∧ bucketFiles (finalState run) = bucketFiles d.
Proof.
  intros d run.
  destruct (severe_audit_rolls_back paths freeLock d) as [Hchange _].
  - vm_compute. reflexivity.
  - vm_compute. reflexivity.
  - destruct (Hchange "MEM-2024-01-002" active (Some "2024-04-01") "2024-04-02"
                {| locatedStatus := pending; locatedIndex := 0;
                   locatedItem := blueGreen |}) as [Hthrown [Hfiles _]].
    + vm_compute. reflexivity.
    + vm_compute. reflexivity.
    + split; assumption.
Defined.

(** Counterexample to C1 as stated: the same call on a store whose
    deprecated bucket file does not exist yet.  The audit after the mutation
    is severe and the call throws, but the rollback writes the snapshot taken
    after [ensureStatusBuckets], so the deprecated bucket file exists
    afterwards: the bucket files are not what they were before the call. *)
Lemma rollback_creates_missing_bucket_file :
  let d := diskOf [canary] [blueGreen] None in
  let d1 := ensureStatusBuckets paths d in
  let current := loadStatusBuckets paths d1 in
  let located :=
    {| locatedStatus := pending; locatedIndex := 0%nat; locatedItem := blueGreen |} in
  let run :=
    applyStatusChange paths freeLock "MEM-2024-01-002" active
      (Some "2024-04-01") "2024-04-02" d in
  findItemStatus current "MEM-2024-01-002" = Some located
  ∧ postAuditExit paths (changedBuckets current located active "2024-04-01")
      "2024-04-01" d1 = 2
  ∧ (∃ e, result run = Some (Thrown e))
  ∧ deprecatedYml d = None
  ∧ deprecatedYml (finalState run) = Some (stringify [])
  ∧ bucketFiles (finalState run) ≠ bucketFiles d.
Proof.
  intros d d1 current located run.
  split; [vm_compute; reflexivity |].
  split; [vm_compute; reflexivity |].
  split; [eexists; vm_compute; reflexivity |].
  split; [reflexivity |].
  split; [vm_compute; reflexivity |].
  intros Heq. apply (f_equal (fun l => l !! 2%nat)) in Heq.
  vm_compute in Heq. discriminate.
Qed.






(** A pending status stored in the active bucket file is ignored: the item is
    loaded as active. *)
Example load_overwrites_stored_status :
  let d :=
    {| activeYml := Some (stringify [blueGreen]); pendingYml := None;
       deprecatedYml := None; memoryYml := None; workspace := [] |} in
  loadStatusBuckets paths d
  = {| activeBucket := [blueGreenActive]; pendingBucket := [];
       deprecatedBucket := [] |}.
Proof. vm_compute. reflexivity. Qed.

End Runs.

(** * Further properties *)

(** ** Conflict detector *)

Lemma numberStrictEquals_sym x y : Number.strictEquals x y = Number.strictEquals y x.
Proof.
  unfold Number.strictEquals. rewrite (orb_comm (Number.isNaN x)).
  rewrite (andb_comm (Number.isZero x)), (Z.eqb_sym x). done.
Qed.

Lemma strictEquals_sym a b : strictEquals a b = strictEquals b a.
Proof.
  destruct a, b; simpl; try done.
  - apply String.eqb_sym.
  - apply numberStrictEquals_sym.
  - by destruct b0, b.
Qed.

Lemma sameString_sym a b : sameString a b = sameString b a.
Proof. destruct a, b; simpl; try done. apply String.eqb_sym. Qed.

Lemma scopesIntersect_sym a b : scopesIntersect a b = scopesIntersect b a.
Proof.
  unfold scopesIntersect.
  rewrite (sameString_sym (service a)), (sameString_sym (region a)).
  assert (bool_decide (env a = env b) = bool_decide (env b = env a)) as ->.
  { apply bool_decide_ext. split; congruence. }
  destruct (bool_decide (env a = env_all)), (bool_decide (env b = env_all)),
    (bool_decide (env b = env a)), (unset (service a)), (unset (service b)),
    (sameString (service b) (service a)), (unset (region a)),
    (unset (region b)); done.
Qed.

Lemma datesOverlap_sym aStart aEnd bStart bEnd :
  datesOverlap aStart aEnd bStart bEnd = datesOverlap bStart bEnd aStart aEnd.
Proof.
  unfold datesOverlap.
  destruct (parseIsoDay aStart), (parseIsoDay aEnd), (parseIsoDay bStart),
    (parseIsoDay bEnd); try done.
  apply andb_comm.
Qed.

(** X1: the conflict predicate is symmetric in its two items, for every
    choice of allowed statuses. *)
Theorem isConflictPair_sym (l r : MemoryItem) (options : option (list MemoryStatus)) :
  isConflictPair l r options = isConflictPair r l options.
Proof.
  unfold isConflictPair.
  rewrite (String.eqb_sym (topic r)), (String.eqb_sym (key r)).
  rewrite (strictEquals_sym (value r)), (scopesIntersect_sym (scope r)).
  rewrite (datesOverlap_sym (effective_from r)).
  by destruct (includes _ (status l)), (includes _ (status r)).
Qed.

Lemma isConflictPair_allowed l r options :
  isConflictPair l r options = true →
  includes (allowedStatusesOf options) (status l) = true
  ∧ includes (allowedStatusesOf options) (status r) = true.
Proof.
  unfold isConflictPair.
  by destruct (includes _ (status l)), (includes _ (status r)).
Qed.

Lemma isConflictPair_widen l r (narrow wide : list MemoryStatus) :
  narrow ⊆ wide →
  isConflictPair l r (Some narrow) = true → isConflictPair l r (Some wide) = true.
Proof.
  intros Hsub. unfold isConflictPair, includes. simpl.
  destruct (bool_decide (status l ∈ narrow)) eqn:Hl; [| done].
  destruct (bool_decide (status r ∈ narrow)) eqn:Hr; [| done].
  apply bool_decide_eq_true in Hl, Hr.
  rewrite !bool_decide_eq_true_2 by (by apply Hsub). done.
Qed.

Lemma conflictPairsOf_elem allowed scoped a b :
  {| left := a; right := b |} ∈ conflictPairsOf allowed scoped
  ↔ occursBefore a b scoped ∧ isConflictPair a b (Some allowed) = true.
Proof.
  induction scoped as [|x rest IH]; simpl.
  - split; [by intros ?%elem_of_nil |].
    intros [(l1 & l2 & l3 & Heq) _]. by destruct l1.
  - rewrite elem_of_app, IH, list_elem_of_fmap. split.
    + intros [(r & [= -> ->] & Hr)|[(l1 & l2 & l3 & ->) Hc]].
      * apply list_elem_of_filter in Hr as [Hc Hin].
        apply list_elem_of_split in Hin as (l2 & l3 & ->).
        split; [by exists [], l2, l3 | done].
      * split; [by exists (x :: l1), l2, l3 | done].
    + intros [(l1 & l2 & l3 & Heq) Hc]. destruct l1 as [|y l1].
      * injection Heq as -> ->. left. exists b. split; [done |].
        apply list_elem_of_filter. split; [done |].
        apply elem_of_app. right. by left.
      * injection Heq as -> ->. right. split; [by exists l1, l2, l3 | done].
Qed.

Lemma filter_split {A} (P : A → Prop) `{!∀ x, Decision (P x)} l l1 x r :
  filter P l = l1 ++ x :: r →
  ∃ l1' r', l = l1' ++ x :: r' ∧ filter P r' = r.
Proof.
  revert l1. induction l as [|y l IH]; intros l1 Heq.
  - by destruct l1.
  - rewrite filter_cons in Heq. destruct (decide (P y)) as [Hy|Hy].
    + destruct l1 as [|z l1]; simpl in Heq.
      * injection Heq as -> Hr. by exists [], l.
      * injection Heq as -> Hr.
        destruct (IH l1 Hr) as (l1' & r' & -> & Hr').
        by exists (z :: l1'), r'.
    + destruct (IH l1 Heq) as (l1' & r' & -> & Hr').
      by exists (y :: l1'), r'.
Qed.

Lemma occursBefore_filter {A} (P : A → Prop) `{!∀ x, Decision (P x)} a b l :
  P a → P b → (occursBefore a b (filter P l) ↔ occursBefore a b l).
Proof.
  intros Ha Hb. split.
  - intros (l1 & l2 & l3 & Heq).
    destruct (filter_split P l l1 a _ Heq) as (l1' & r' & -> & Hr).
    destruct (filter_split P r' l2 b _ Hr) as (l2' & l3' & -> & _).
    by exists l1', l2', l3'.
  - intros (l1 & l2 & l3 & ->).
    exists (filter P l1), (filter P l2), (filter P l3).
    rewrite filter_app, filter_cons_True by done.
    by rewrite filter_app, filter_cons_True by done.
Qed.

(** The pairs that [listActiveConflictPairs] lists. *)
Lemma listActiveConflictPairs_iff (items : list MemoryItem) (a b : MemoryItem) :
  {| left := a; right := b |} ∈ listActiveConflictPairs items
  ↔ occursBefore a b items ∧ isActiveConflictPair a b = true.
Proof.
  unfold listActiveConflictPairs, listConflictPairs, isActiveConflictPair.
  rewrite conflictPairsOf_elem.
  split; intros [Hpos Hc]; (split; [| done]);
    destruct (isConflictPair_allowed _ _ _ Hc) as [Ha Hb];
    by apply (occursBefore_filter
                (fun it => includes (allowedStatusesOf (Some [active]))
                             (status it) = true)
                a b items Ha Hb).
Qed.

(** X2: a pair is listed exactly when its left item stands before its right
    item in the list and the two are a conflict pair under the options: no
    conflicting pair is missed, and nothing else is reported. *)
Theorem listConflictPairs_elem (items : list MemoryItem)
    (options : option (list MemoryStatus)) (a b : MemoryItem) :
  {| left := a; right := b |} ∈ listConflictPairs items options
  ↔ occursBefore a b items ∧ isConflictPair a b options = true.
Proof.
  unfold listConflictPairs. rewrite conflictPairsOf_elem.
  change (isConflictPair a b (Some (allowedStatusesOf options)))
    with (isConflictPair a b options).
  split; intros [Hpos Hc]; (split; [| done]);
    destruct (isConflictPair_allowed _ _ _ Hc) as [Ha Hb];
    by apply (occursBefore_filter
                (fun it => includes (allowedStatusesOf options) (status it) = true)
                a b items Ha Hb).
Qed.

(** X3: every pair that the audit reports (active items only) is among the
    unresolved pairs (active or pending items) that a merge accepts. *)
Theorem active_pairs_are_unresolved (items : list MemoryItem)
    (pair : ActiveConflictPair) :
  pair ∈ listActiveConflictPairs items →
  pair ∈ listUnresolvedConflictPairs items
  ∧ isUnresolvedConflictPair (left pair) (right pair) = true.
Proof.
  destruct pair as [a b]. unfold listActiveConflictPairs,
    listUnresolvedConflictPairs, listConflictPairs.
  rewrite !conflictPairsOf_elem. simpl. intros [Hpos Hc].
  assert (Hwide : isConflictPair a b (Some [active; pending]) = true).
  { eapply isConflictPair_widen; [| exact Hc].
    intros s Hs. apply list_elem_of_singleton in Hs as ->. by left. }
  split; [| exact Hwide]. split; [| exact Hwide].
  destruct (isConflictPair_allowed _ _ _ Hc) as [Ha Hb].
  destruct (isConflictPair_allowed _ _ _ Hwide) as [Ha' Hb'].
  apply (occursBefore_filter
           (fun it => includes (allowedStatusesOf (Some [active; pending]))
                        (status it) = true) a b items Ha' Hb').
  by apply (occursBefore_filter
              (fun it => includes (allowedStatusesOf (Some [active]))
                           (status it) = true) a b items Ha Hb).
Qed.

(** ** Audit engine *)

Lemma mapGet_mapSet m k v k' :
  mapGet (mapSet m k v) k' = if String.eqb k k' then Some v else mapGet m k'.
Proof.
  induction m as [|[k0 v0] rest IH]; simpl.
  - done.
  - destruct (String.eqb_spec k0 k) as [->|Hne]; simpl.
    + by destruct (String.eqb k k').
    + rewrite IH. destruct (String.eqb_spec k0 k') as [->|Hne'].
      * by destruct (String.eqb_spec k k').
      * done.
Qed.

Lemma mapSet_keys m k v x : x ∈ (mapSet m k v).*1 ↔ x = k ∨ x ∈ m.*1.
Proof.
  induction m as [|[k0 v0] rest IH]; simpl.
  - rewrite list_elem_of_singleton. split; [auto | by intros [|?%elem_of_nil]].
  - destruct (String.eqb_spec k0 k) as [->|Hne]; simpl.
    + rewrite !elem_of_cons. tauto.
    + rewrite !elem_of_cons, IH. tauto.
Qed.

Lemma mapSet_NoDup m k v : NoDup m.*1 → NoDup (mapSet m k v).*1.
Proof.
  induction m as [|[k0 v0] rest IH]; simpl; intros Hnd.
  - apply NoDup_singleton.
  - apply NoDup_cons in Hnd as [Hnin Hnd].
    destruct (String.eqb_spec k0 k) as [->|Hne]; simpl.
    + by apply NoDup_cons.
    + apply NoDup_cons. split; [| by apply IH].
      rewrite mapSet_keys. by intros [?|?].
Qed.

Lemma mapGet_elem m k v : NoDup m.*1 → (k, v) ∈ m ↔ mapGet m k = Some v.
Proof.
  induction m as [|[k0 v0] rest IH]; simpl; intros Hnd.
  - split; [by intros ?%elem_of_nil | done].
  - apply NoDup_cons in Hnd as [Hnin Hnd]. rewrite elem_of_cons.
    destruct (String.eqb_spec k0 k) as [->|Hne].
    + split.
      * intros [[= <-]|Hin]; [done |]. destruct Hnin.
        apply list_elem_of_fmap. by exists (k, v).
      * intros [= <-]. by left.
    + rewrite <- (IH Hnd). split; [| auto]. by intros [[= ? ?]|?].
Qed.

Lemma seenIds_snoc items it :
  seenIds (items ++ [it])
  = mapSet (seenIds items) (id it)
      (default [] (mapGet (seenIds items) (id it)) ++ [id it]).
Proof. unfold seenIds. by rewrite fold_left_app. Qed.

Lemma occurrences_snoc i items it :
  occurrences i (items ++ [it])
  = (occurrences i items + if decide (id it = i) then 1 else 0)%nat.
Proof.
  unfold occurrences. rewrite filter_app, length_app, filter_cons, filter_nil.
  by destruct (decide (id it = i)).
Qed.

Lemma replicate_snoc {A} n (x : A) : replicate n x ++ [x] = replicate (S n) x.
Proof. induction n as [|n IH]; simpl; [done | by rewrite IH]. Qed.

Lemma seenIds_NoDup items : NoDup (seenIds items).*1.
Proof.
  induction items as [|it items IH] using rev_ind; [constructor |].
  rewrite seenIds_snoc. by apply mapSet_NoDup.
Qed.

(** The entry of an id in the map of [runAudit]: one copy of the id for each
    of its occurrences. *)
Lemma seenIds_get items i :
  mapGet (seenIds items) i
  = match occurrences i items with
    | O => None
    | S n => Some (replicate (S n) i)
    end.
Proof.
  induction items as [|it items IH] using rev_ind; [done |].
  rewrite seenIds_snoc, mapGet_mapSet, occurrences_snoc.
  destruct (String.eqb_spec (id it) i) as [->|Hne].
  - rewrite decide_True by done. rewrite IH.
    destruct (occurrences i items) as [|n]; simpl; [done |].
    rewrite Nat.add_1_r. f_equal. f_equal. apply (replicate_snoc n).
  - rewrite decide_False by done. by rewrite IH, Nat.add_0_r.
Qed.

Lemma seenIds_elem items i entries :
  (i, entries) ∈ seenIds items
  ↔ (0 < occurrences i items)%nat ∧ entries = replicate (occurrences i items) i.
Proof.
  rewrite (mapGet_elem _ _ _ (seenIds_NoDup items)), seenIds_get.
  destruct (occurrences i items) as [|n]; split.
  - done.
  - intros [? _]. lia.
  - intros [= <-]. split; [lia | done].
  - by intros [_ ->].
Qed.

Lemma NoDup_occurrences items :
  NoDup (id <$> items) ↔ ∀ i, (occurrences i items <= 1)%nat.
Proof.
  unfold occurrences. induction items as [|it items IH]; simpl.
  - split; [intros _ i; simpl; lia | constructor].
  - rewrite NoDup_cons, IH. split.
    + intros [Hnin Hall] i. rewrite filter_cons.
      destruct (decide (id it = i)) as [<-|Hne]; [| apply Hall].
      simpl. assert (filter (fun x => id x = id it) items = []) as ->; [| simpl; lia].
      destruct (filter (fun x => id x = id it) items) as [|x l] eqn:Hf; [done |].
      exfalso. assert (Hx : x ∈ filter (fun x => id x = id it) items).
      { rewrite Hf. by left. }
      apply list_elem_of_filter in Hx as [Heq Hx]. apply Hnin.
      apply list_elem_of_fmap. by exists x.
    + intros Hall. split.
      * intros (x & Heq & Hx)%list_elem_of_fmap.
        specialize (Hall (id it)). rewrite filter_cons_True in Hall by done.
        simpl in Hall.
        assert (x ∈ filter (fun y => id y = id it) items) as Hin.
        { by apply list_elem_of_filter. }
        destruct (filter (fun y => id y = id it) items);
          [by apply elem_of_nil in Hin | simpl in Hall; lia].
      * intros i. specialize (Hall i). rewrite filter_cons in Hall.
        destruct (decide (id it = i)); simpl in Hall; lia.
Qed.

(** The three lists that [runAudit] appends to the initial issues. *)
Lemma runAudit_app items initial today :
  ∃ duplicates staleOnes conflicts,
    runAudit items initial today = initial ++ duplicates ++ staleOnes ++ conflicts
    ∧ (∀ issue, issue ∈ duplicates
         ↔ ∃ i, (2 <= occurrences i items)%nat
                ∧ issue = makeIssue duplicate_id
                            (duplicateMessage i (occurrences i items)) [i])
    ∧ (∀ issue, issue ∈ staleOnes
         ↔ ∃ it, it ∈ items ∧ status it = active ∧ isExpired it today = true
                 ∧ issue = makeIssue stale
                             ("Item " +:+ id it +:+ " is active but expired on "
                              +:+ expires it) [id it])
    ∧ (∀ issue, issue ∈ conflicts → code issue = conflict)
    ∧ (conflicts = [] ↔ listActiveConflictPairs items = []).
Proof.
  unfold runAudit. eexists _, _, _. split; [reflexivity |].
  split; [| split; [| split]].
  - intros issue. rewrite list_elem_of_In, in_flat_map. split.
    + intros ([i entries] & Hin%list_elem_of_In & Hissue%list_elem_of_In).
      apply seenIds_elem in Hin as [Hpos ->].
      rewrite length_replicate in Hissue.
      destruct (Nat.ltb_spec 1 (occurrences i items)); simpl in Hissue;
        [| by apply elem_of_nil in Hissue].
      apply list_elem_of_singleton in Hissue. exists i. split; [lia | done].
    + intros (i & Hocc & ->).
      exists (i, replicate (occurrences i items) i). split.
      * apply list_elem_of_In, seenIds_elem. split; [lia | done].
      * rewrite length_replicate.
        destruct (Nat.ltb_spec 1 (occurrences i items)); [| lia].
        by left.
  - intros issue. rewrite list_elem_of_In, in_flat_map. split.
    + intros (it & Hin%list_elem_of_In & Hissue%list_elem_of_In).
      apply list_elem_of_filter in Hin as [Hactive Hin].
      destruct (isExpired it today) eqn:Hexp; simpl in Hissue;
        [| by apply elem_of_nil in Hissue].
      apply list_elem_of_singleton in Hissue. by exists it.
    + intros (it & Hin & Hactive & Hexp & ->). exists it. split.
      * apply list_elem_of_In, list_elem_of_filter. done.
      * rewrite Hexp. by left.
  - intros issue (pair & -> & _)%list_elem_of_fmap. done.
  - split; [apply map_eq_nil | by intros ->].
Qed.

Lemma existsb_false {A} (p : A → bool) l :
  existsb p l = false ↔ ∀ x, x ∈ l → p x = false.
Proof.
  induction l as [|y l IH]; simpl.
  - split; [by intros _ x ?%elem_of_nil | done].
  - rewrite orb_false_iff, IH. split.
    + intros [Hy Hl] x [->|Hx]%elem_of_cons; auto.
    + intros Hall. split; [apply Hall; by left |].
      intros x Hx. apply Hall. by right.
Qed.

Lemma existsb_all_true {A} (p : A → bool) l :
  (∀ x, x ∈ l → p x = true) → existsb p l = false ↔ l = [].
Proof.
  intros Hall. destruct l as [|y l]; simpl; [done |].
  rewrite (Hall y) by by left. done.
Qed.

Lemma auditExitCode_cases all :
  (auditExitCode all = 2
   ↔ existsb (fun issue => isSevereCode (code issue)) all = true)
  ∧ (auditExitCode all = 0
     ↔ existsb (fun issue => isSevereCode (code issue)) all = false
       ∧ existsb (fun issue => isStaleCode (code issue)) all = false).
Proof.
  unfold auditExitCode.
  destruct (existsb (fun issue => isSevereCode (code issue)) all),
    (existsb (fun issue => isStaleCode (code issue)) all);
    split; split; try done; try (by intros [? ?]); lia.
Qed.

(** X4: with no parse issue to start from, the audit holds a duplicate-id
    issue exactly for the ids that occur at least twice, one issue for each,
    whose message gives the number of occurrences. *)
Theorem runAudit_duplicate_ids (items : list MemoryItem) (today : string)
    (issue : AuditIssue) :
  issue ∈ runAudit items [] today ∧ code issue = duplicate_id
  ↔ ∃ i, (2 <= occurrences i items)%nat
         ∧ issue = makeIssue duplicate_id
                     (duplicateMessage i (occurrences i items)) [i].
Proof.
  destruct (runAudit_app items [] today)
    as (duplicates & staleOnes & conflicts & -> & Hdup & Hstale & Hconf & _).
  rewrite app_nil_l, !elem_of_app, Hdup, Hstale. split.
  - intros [[Hd|[(it & _ & _ & _ & ->)|Hc]] Hcode]; [done | done |].
    apply Hconf in Hc. congruence.
  - intros (i & Hocc & ->). split; [| done]. left. by exists i.
Qed.


(** X5: the verdict on a list of items read without parse issues.  It is
    severe exactly when two items share an id or two active items conflict;
    it is clean exactly when the ids are distinct, no two active items
    conflict and no active item has expired; and a severe verdict on the
    parse issues is never lost. *)
Theorem runAudit_verdict (items : list MemoryItem) (today : string) :
  (auditExitCode (runAudit items [] today) = 2
   ↔ ¬ NoDup (id <$> items) ∨ listActiveConflictPairs items ≠ [])
  ∧ (auditExitCode (runAudit items [] today) = 0
     ↔ NoDup (id <$> items)
       ∧ listActiveConflictPairs items = []
       ∧ ∀ it, it ∈ items → status it = active → isExpired it today = false)
  ∧ (∀ initial, auditExitCode initial = 2 →
                auditExitCode (runAudit items initial today) = 2).
Proof.
  destruct (auditExitCode_cases (runAudit items [] today)) as [Hsev Hclean].
  destruct (runAudit_app items [] today)
    as (duplicates & staleOnes & conflicts & Heq & Hdup & Hstale & Hconf & Hnil).
  rewrite Heq in Hsev, Hclean. rewrite Heq. clear Heq.
  rewrite app_nil_l in Hsev, Hclean.
  repeat rewrite existsb_app in Hsev. repeat rewrite existsb_app in Hclean.
  assert (Hnodup : NoDup (id <$> items) ↔ duplicates = []).
  { rewrite NoDup_occurrences. split.
    - intros Hall. destruct duplicates as [|x l]; [done |].
      destruct (proj1 (Hdup x)) as (i & Hocc & _); [by left |].
      specialize (Hall i). lia.
    - intros -> i. destruct (Nat.le_gt_cases (occurrences i items) 1); [done |].
      exfalso. eapply elem_of_nil, Hdup. exists i. split; [lia | done]. }
  assert (Hexpired : staleOnes = []
                     ↔ ∀ it, it ∈ items → status it = active →
                             isExpired it today = false).
  { split.
    - intros -> it Hin Hactive. destruct (isExpired it today) eqn:Hexp; [| done].
      exfalso. eapply elem_of_nil, Hstale. by exists it.
    - intros Hall. destruct staleOnes as [|x l]; [done |].
      destruct (proj1 (Hstale x)) as (it & Hin & Hactive & Hexp & _); [by left |].
      rewrite (Hall it Hin Hactive) in Hexp. done. }
  assert (Sd : existsb (fun issue => isSevereCode (code issue)) duplicates = false
               ↔ duplicates = []).
  { apply existsb_all_true. by intros x (i & _ & ->)%Hdup. }
  assert (Ss : existsb (fun issue => isSevereCode (code issue)) staleOnes = false).
  { apply existsb_false. by intros x (it & _ & _ & _ & ->)%Hstale. }
  assert (Sc : existsb (fun issue => isSevereCode (code issue)) conflicts = false
               ↔ conflicts = []).
  { apply existsb_all_true. intros x Hx. by rewrite (Hconf x Hx). }
  assert (Td : existsb (fun issue => isStaleCode (code issue)) duplicates = false).
  { apply existsb_false. by intros x (i & _ & ->)%Hdup. }
  assert (Ts : existsb (fun issue => isStaleCode (code issue)) staleOnes = false
               ↔ staleOnes = []).
  { apply existsb_all_true. by intros x (it & _ & _ & _ & ->)%Hstale. }
  assert (Tc : existsb (fun issue => isStaleCode (code issue)) conflicts = false).
  { apply existsb_false. intros x Hx. by rewrite (Hconf x Hx). }
  rewrite Ss in Hsev, Hclean. rewrite Td, Tc in Hclean.
  rewrite Hnodup, <- Hnil, <- Hexpired.
  split; [| split].
  - rewrite Hsev.
    destruct (existsb _ duplicates); destruct (existsb _ conflicts); simpl.
    + split; [intros _ | done]. left. intros Hd. by apply Sd in Hd.
    + split; [intros _ | done]. left. intros Hd. by apply Sd in Hd.
    + split; [intros _ | done]. right. intros Hc. by apply Sc in Hc.
    + split; [done |]. intros [Hd|Hc]; [destruct Hd | destruct Hc]; tauto.
  - rewrite Hclean, !orb_false_iff, Sd, Sc, Ts. simpl. tauto.
  - intros initial Hinit. unfold runAudit.
    apply auditExitCode_cases. rewrite existsb_app.
    apply auditExitCode_cases in Hinit. by rewrite Hinit.
Qed.

(** X6: the five groups of [groupIssues], in the order in which the report
    prints them, hold every issue exactly once. *)
Theorem groupIssues_partition (all : list AuditIssue) :
  let groups := groupIssues all in
  groupSchema groups ++ groupDuplicateId groups ++ groupNoSource groups
  ++ groupConflict groups ++ groupStale groups ≡ₚ all
  ∧ (length (groupSchema groups) + length (groupDuplicateId groups)
     + length (groupNoSource groups) + length (groupConflict groups)
     + length (groupStale groups) = length all)%nat.
Proof.
  intros groups.
  assert (Hperm : groupSchema groups ++ groupDuplicateId groups
                  ++ groupNoSource groups ++ groupConflict groups
                  ++ groupStale groups ≡ₚ all).
  { subst groups. unfold groupIssues. simpl.
    induction all as [|issue rest IH]; [done |].
    rewrite !filter_cons. destruct issue as [c m i]. simpl.
    destruct c; simpl;
      repeat (rewrite decide_True by done || rewrite decide_False by done);
      rewrite <- IH at 6; solve_Permutation. }
  split; [exact Hperm |].
  apply Permutation_length in Hperm. rewrite !length_app in Hperm. lia.
Qed.

(** ** Sorting and flattening *)

(** X7: [flattenBuckets] keeps every item of the three buckets exactly once,
    so its length is the sum of the three counts of [countsByStatus]; and
    [sortItems] returns a permutation of its input. *)
Theorem flattenBuckets_keeps_items `{Platform} (buckets : StatusBuckets)
    (items : list MemoryItem) :
  flattenBuckets buckets ≡ₚ allItems buckets
  ∧ (length (flattenBuckets buckets)
     = activeCount (countsByStatus buckets)
       + pendingCount (countsByStatus buckets)
       + deprecatedCount (countsByStatus buckets))%nat
  ∧ sortItems items ≡ₚ items.
Proof.
  assert (Hflat : flattenBuckets buckets ≡ₚ allItems buckets).
  { unfold flattenBuckets, sortItems, allItems. apply toSorted_perm. }
  split; [exact Hflat |]. split; [| apply toSorted_perm].
  apply Permutation_length in Hflat. rewrite Hflat. unfold allItems.
  rewrite !length_app. simpl. lia.
Qed.


(** ** File lock manager *)

Lemma events_after {S T} evs (run : LockRun S T) :
  events (after evs run) = evs ++ events run.
Proof. done. Qed.

Lemma createdCount_app evs evs' :
  createdCount (evs ++ evs') = (createdCount evs + createdCount evs')%nat.
Proof. unfold createdCount. by rewrite filter_app, length_app. Qed.

Lemma releasedCount_app evs evs' :
  releasedCount (evs ++ evs') = (releasedCount evs + releasedCount evs')%nat.
Proof. unfold releasedCount. by rewrite filter_app, length_app. Qed.

Section LockRuns.
Context {S T : Type} (params : LockParams) (task : S → Outcome T * S).

Lemma onError_cases start a e s (retry : LockRun S T) :
  (onError params start a e s retry
   = {| events := []; result := Some (Thrown e); finalState := s |})
  ∨ (onError params start a e s retry
     = {| events := []; result := Some (Thrown (timeoutError params));
          finalState := s |})
  ∨ (isEEXIST e = true
     ∧ ∃ ev, (ev = EvUnlinkedStale ∨ ev = EvSlept (effectiveRetryMs params))
             ∧ onError params start a e s retry = after [ev] retry).
Proof.
  unfold onError. destruct (isEEXIST e); simpl; [| by left].
  destruct (match readLockAgeMs a with
            | Some ageMs => effectiveStaleMs params <? ageMs
            | None => false
            end).
  - right; right. split; [done |]. exists EvUnlinkedStale. auto.
  - destruct (effectiveTimeoutMs params <=? nowAtCheck a - start).
    + right; left. done.
    + right; right. split; [done |]. eexists. split; [by right | done].
Qed.

(** X9: whatever the task does and whatever the world shows, a run releases
    the lock file as many times as it created it, and each creation is
    followed at once by its release; and when no attempt creates the lock
    file, the task is not run: the state is left as it was. *)
Theorem lock_is_always_released (start : Z) (turns : list Attempt) (s : S) :
  let run := lockLoop params task start turns s in
  createdCount (events run) = releasedCount (events run)
  ∧ (∀ before rest, events run = before ++ EvCreated :: rest →
                    ∃ rest', rest = EvReleased :: rest')
  ∧ ((∀ a, a ∈ turns → openError a ≠ None) →
     finalState run = s ∧ createdCount (events run) = 0%nat).
Proof.
  revert s. induction turns as [|a rest IH]; intros s; simpl.
  - repeat split; try done. intros before rest' Heq. by destruct before.
  - assert (Hretry : ∀ e s0,
              let run := onError params start a e s0 (lockLoop params task start rest s0) in
              createdCount (events run) = releasedCount (events run)
              ∧ (∀ before rest0, events run = before ++ EvCreated :: rest0 →
                                 ∃ rest', rest0 = EvReleased :: rest')
              ∧ ((∀ a0, a0 ∈ rest → openError a0 ≠ None) →
                 finalState run = s0 ∧ createdCount (events run) = 0%nat)).
    { intros e s0 run. subst run.
      destruct (IH s0) as (Hcount & Hnext & Hnone).
      destruct (onError_cases start a e s0 (lockLoop params task start rest s0))
        as [-> | [-> | (_ & ev & Hev & ->)]]; simpl.
      - repeat split; try done. intros before rest' Heq. by destruct before.
      - repeat split; try done. intros before rest' Heq. by destruct before.
      - unfold createdCount, releasedCount in *.
        rewrite !filter_cons.
        assert (ev ≠ EvCreated ∧ ev ≠ EvReleased) as [Hc Hr].
        { by destruct Hev as [-> | ->]. }
        rewrite !decide_False by done. split; [exact Hcount |]. split.
        + intros before rest0 Heq. destruct before as [|b before].
          * simpl in Heq. injection Heq as Heq _. by destruct Hc.
          * simpl in Heq. injection Heq as _ Heq. by eapply Hnext.
        + exact Hnone. }
    destruct (openError a) as [e|] eqn:Hopen.
    + destruct (Hretry e s) as (Hcount & Hnext & Hnone).
      split; [exact Hcount |]. split; [exact Hnext |].
      intros Hall. apply Hnone. intros a0 Ha0. apply Hall. by right.
    + destruct (task s) as [[v|e] s'].
      * simpl. split; [done |]. split.
        -- intros before rest' Heq.
           destruct before as [|b [|b' before]]; simpl in Heq.
           ++ injection Heq as <-. by eexists.
           ++ discriminate.
           ++ injection Heq as _ _ Heq. by destruct before.
        -- intros Hall. destruct (Hall a); [by left | done].
      * destruct (Hretry e s') as (Hcount & Hnext & Hnone).
        rewrite events_after, createdCount_app, releasedCount_app.
        split; [by rewrite Hcount |]. split.
        -- intros before rest' Heq.
           destruct before as [|b [|b' before]]; simpl in Heq.
           ++ injection Heq as <-. by eexists.
           ++ discriminate.
           ++ injection Heq as _ _ Heq. by eapply Hnext.
        -- intros Hall. destruct (Hall a); [by left | done].
Qed.

(** X10: when the errors of the task never carry the code EEXIST, a run
    creates the lock file at most once, so the task is run at most once; and
    every sleep of a run lasts the effective poll interval. *)
Theorem task_runs_at_most_once (start : Z) (turns : list Attempt) (s : S) :
  (∀ s0 e0, (task s0).1 = Thrown e0 → isEEXIST e0 = false) →
  let run := lockLoop params task start turns s in
  (createdCount (events run) <= 1)%nat
  ∧ ∀ ms, EvSlept ms ∈ events run → ms = effectiveRetryMs params.
Proof.
  intros Hplain. revert s. induction turns as [|a rest IH]; intros s; simpl.
  - split; [unfold createdCount; simpl; lia | by intros ms ?%elem_of_nil].
  - destruct (openError a) as [e|].
    + destruct (IH s) as [Hcount Hsleep].
      destruct (onError_cases start a e s (lockLoop params task start rest s))
        as [-> | [-> | (_ & ev & Hev & ->)]]; simpl.
      * split; [unfold createdCount; simpl; lia | by intros ms ?%elem_of_nil].
      * split; [unfold createdCount; simpl; lia | by intros ms ?%elem_of_nil].
      * unfold createdCount in *. rewrite filter_cons.
        rewrite decide_False by (by destruct Hev as [-> | ->]).
        split; [exact Hcount |].
        intros ms [Hms|Hms]%elem_of_cons; [| by apply Hsleep].
        destruct Hev as [-> | ->]; [done | by injection Hms].
    + specialize (Hplain s). destruct (task s) as [[v|e] s']; simpl in *.
      * split; [unfold createdCount; simpl; lia |].
        intros ms Hms. by repeat (apply elem_of_cons in Hms as [Hms|Hms]; [done |]);
          apply elem_of_nil in Hms.
      * unfold onError. rewrite (Hplain e eq_refl). simpl.
        split; [unfold createdCount; simpl; lia |].
        intros ms Hms. by repeat (apply elem_of_cons in Hms as [Hms|Hms]; [done |]);
          apply elem_of_nil in Hms.
Qed.

End LockRuns.

(** ** Locating and moving items *)

Lemma firstWithId_head items i :
  firstWithId items i = head (filter (fun it => id it = i) items).
Proof.
  induction items as [|x rest IH]; [done |].
  rewrite firstWithId_cons, filter_cons.
  destruct (String.eqb_spec (id x) i) as [Heq|Hne].
  - by rewrite decide_True.
  - by rewrite decide_False.
Qed.

Lemma locate_allItems buckets i :
  snd <$> locate STATUS_ORDER buckets i = firstWithId (allItems buckets) i.
Proof.
  rewrite !firstWithId_head. unfold allItems. rewrite !filter_app.
  unfold STATUS_ORDER. cbn [locate bucket]. rewrite !firstWithId_head.
  destruct (filter _ (activeBucket buckets)); [| done].
  destruct (filter _ (pendingBucket buckets)); [| done].
  by destruct (filter _ (deprecatedBucket buckets)).
Qed.

Lemma findItemStatus_head buckets i :
  locatedItem <$> findItemStatus buckets i
  = head (filter (fun it => id it = i) (allItems buckets)).
Proof.
  rewrite <- firstWithId_head, <- locate_allItems, <- findItemIn_locate.
  unfold findItemStatus. by destruct (findItemIn STATUS_ORDER buckets i).
Qed.

Lemma allItems_spliceOut buckets s n x :
  bucket buckets s !! n = Some x →
  allItems buckets ≡ₚ x :: allItems (spliceOut buckets s n).
Proof.
  intros Hn. apply delete_Permutation in Hn.
  unfold allItems, spliceOut. destruct buckets, s; simpl in *.
  - by rewrite Hn at 1.
  - rewrite Hn at 1. solve_Permutation.
  - rewrite Hn at 1. solve_Permutation.
Qed.

Lemma allItems_pushItem buckets s x :
  allItems (pushItem buckets s x) ≡ₚ x :: allItems buckets.
Proof.
  unfold allItems, pushItem. destruct buckets, s; simpl; solve_Permutation.
Qed.

Lemma bucket_pushItem buckets s x s' :
  bucket (pushItem buckets s x) s'
  = if decide (s = s') then bucket buckets s ++ [x] else bucket buckets s'.
Proof. unfold pushItem. apply bucket_setBucket. Qed.

Lemma bucket_spliceOut buckets s n s' :
  bucket (spliceOut buckets s n) s'
  = if decide (s = s') then delete n (bucket buckets s) else bucket buckets s'.
Proof. unfold spliceOut. apply bucket_setBucket. Qed.

(** X11: [findItemStatus] reports the first item with the id in the order
    active, pending, deprecated: no item when no bucket holds the id; and
    the position it reports is one at which the bucket holds that item. *)
Theorem findItemStatus_first_match (buckets : StatusBuckets) (i : string) :
  locatedItem <$> findItemStatus buckets i
  = head (filter (fun it => id it = i) (allItems buckets))
  ∧ (findItemStatus buckets i = None
     ↔ ∀ it, it ∈ allItems buckets → id it ≠ i)
  ∧ ∀ loc, findItemStatus buckets i = Some loc →
           id (locatedItem loc) = i
           ∧ bucket buckets (locatedStatus loc) !! locatedIndex loc
             = Some (locatedItem loc).
Proof.
  split; [apply findItemStatus_head |]. split.
  - pose proof (findItemStatus_head buckets i) as Hhead. split.
    + intros Hnone it Hin Hid. rewrite Hnone in Hhead.
      assert (Hf : it ∈ filter (fun it => id it = i) (allItems buckets)).
      { by apply list_elem_of_filter. }
      destruct (filter _ (allItems buckets)); [by apply elem_of_nil in Hf | done].
    + intros Hall. destruct (findItemStatus buckets i) as [loc|] eqn:Hloc; [| done].
      destruct (findItemStatus_item _ _ _ Hloc) as (Hid & Hin & _).
      destruct (Hall (locatedItem loc)); [| done].
      unfold allItems. rewrite !elem_of_app.
      destruct (locatedStatus loc); simpl in Hin; auto.
  - intros loc Hloc. by destruct (findItemStatus_item _ _ _ Hloc) as (? & _ & ?).
Qed.

(** X12: a status change of an item that [findItemStatus] locates touches
    that item alone: the items of the buckets after the change are those
    before it with the located item replaced by its moved copy (status the
    target, updated today) or, when it already has the target status, by
    itself; the item is then in the target bucket, the third bucket is as it
    was and the number of items is the same. *)
Theorem changedBuckets_moves_one_item (current : StatusBuckets) (i : string)
    (loc : Located) (to : MemoryStatus) (today : string) :
  findItemStatus current i = Some loc →
  let changed := changedBuckets current loc to today in
  let moved :=
    if decide (locatedStatus loc = to) then locatedItem loc
    else movedItem (locatedItem loc) to today in
  (∃ rest, allItems current ≡ₚ locatedItem loc :: rest
           ∧ allItems changed ≡ₚ moved :: rest)
  ∧ moved ∈ bucket changed to
  ∧ id moved = i
  ∧ (∀ s, s ≠ locatedStatus loc → s ≠ to → bucket changed s = bucket current s)
  ∧ length (allItems changed) = length (allItems current).
Proof.
  intros Hloc changed moved.
  destruct (findItemStatus_item _ _ _ Hloc) as (Hid & Hin & Hlook).
  assert (Hperm : ∃ rest, allItems current ≡ₚ locatedItem loc :: rest
                          ∧ allItems changed ≡ₚ moved :: rest).
  { exists (allItems (spliceOut current (locatedStatus loc) (locatedIndex loc))).
    split; [by apply allItems_spliceOut |].
    subst changed moved. unfold changedBuckets.
    destruct (decide (locatedStatus loc = to)) as [Heq|Hne].
    - rewrite bool_decide_eq_false_2 by (by intros ?).
      by apply allItems_spliceOut.
    - rewrite bool_decide_eq_true_2 by done. apply allItems_pushItem. }
  split; [exact Hperm |].
  split; [| split; [| split]].
  - subst changed moved. unfold changedBuckets.
    destruct (decide (locatedStatus loc = to)) as [Heq|Hne].
    + rewrite bool_decide_eq_false_2 by (by intros ?). by rewrite <- Heq.
    + rewrite bool_decide_eq_true_2 by done. rewrite bucket_pushItem.
      rewrite decide_True by done. apply elem_of_app. right.
      by apply list_elem_of_singleton.
  - subst moved. by destruct (decide (locatedStatus loc = to)).
  - intros s Hfrom Hto. subst changed. unfold changedBuckets.
    destruct (bool_decide (locatedStatus loc ≠ to)); [| done].
    rewrite bucket_pushItem, decide_False by done.
    by rewrite bucket_spliceOut, decide_False.
  - destruct Hperm as (rest & Hcur & Hnew).
    apply Permutation_length in Hcur, Hnew. rewrite Hcur, Hnew. done.
Qed.

Section FurtherMutations.
Context `{Platform} (paths : MemoryStatusPaths).

Lemma ensure_keeps_canonical d :
  memoryYml (ensureStatusBuckets paths d) = memoryYml d
  ∧ workspace (ensureStatusBuckets paths d) = workspace d.
Proof. unfold ensureStatusBuckets. by destruct (_ || _). Qed.

(** X13: a changeStatus call that acquires the lock for an id that no bucket
    holds throws "Item not found: <id>"; it has then normalised the bucket
    files and nothing else: the canonical file and the runtime projection
    are as they were. *)
Theorem changeStatus_unknown_id (world : LockWorld) (i : string)
    (to : MemoryStatus) (todayArg : option string) (clock : string) (d : Disk) :
  lockGranted (statusLock paths) (startedAt world) (attempts world) = true →
  (∀ it,
     it ∈ allItems (loadStatusBuckets paths (ensureStatusBuckets paths d)) →
     id it ≠ i) →
  let run := applyStatusChange paths world i to todayArg clock d in
  result run = Some (Thrown (newError ("Item not found: " +:+ i)))
  ∧ finalState run = ensureStatusBuckets paths d
  ∧ memoryYml (finalState run) = memoryYml d
  ∧ workspace (finalState run) = workspace d.
Proof.
  intros Hlock Habsent run.
  destruct (applyStatusChange_granted paths world i to todayArg clock d Hlock)
    as [Hres Hfin].
  assert (Hnone : findItemStatus
                    (loadStatusBuckets paths (ensureStatusBuckets paths d)) i
                  = None).
  { pose proof (findItemStatus_head
                  (loadStatusBuckets paths (ensureStatusBuckets paths d)) i)
      as Hhead.
    destruct (findItemStatus _ i) as [loc|] eqn:Hloc; [| done].
    destruct (findItemStatus_item _ _ _ Hloc) as (Hid & Hin & _).
    destruct (Habsent (locatedItem loc)); [| done].
    unfold allItems. rewrite !elem_of_app.
    destruct (locatedStatus loc); simpl in Hin; auto. }
  subst run. rewrite Hres, Hfin. unfold statusChangeTask. rewrite Hnone.
  cbn [fst snd]. repeat split; apply ensure_keeps_canonical.
Qed.


End FurtherMutations.

(** ** Merging, seeding and reading back *)

(** X15: a merge that returns a plan touches the two located items alone:
    the items of the planned buckets are those of the buckets before it with
    the two items replaced by the merged item and the deprecated item, which
    keep their ids; the number of items is the same. *)
Theorem mergeInMemory_touches_two_items `{Platform} (current : StatusBuckets)
    (leftId rightId : string) (mergedValue : PrimitiveValue)
    (keepIdArg : option string) (today : string) (plan : MergePlan) :
  mergeInMemory current leftId rightId mergedValue keepIdArg today
  = Returned plan →
  (∃ kept other rest,
     allItems current ≡ₚ kept :: other :: rest
     ∧ allItems (planBuckets plan)
       ≡ₚ planMerged plan :: planDeprecated plan :: rest
     ∧ id (planMerged plan) = id kept
     ∧ id (planDeprecated plan) = id other
     ∧ ((id kept = leftId ∧ id other = rightId)
        ∨ (id kept = rightId ∧ id other = leftId)))
  ∧ length (allItems (planBuckets plan)) = length (allItems current).
Proof.
  intros Hplan.
  assert (Hperm : ∃ kept other rest,
             allItems current ≡ₚ kept :: other :: rest
             ∧ allItems (planBuckets plan)
               ≡ₚ planMerged plan :: planDeprecated plan :: rest
             ∧ id (planMerged plan) = id kept
             ∧ id (planDeprecated plan) = id other
             ∧ ((id kept = leftId ∧ id other = rightId)
                ∨ (id kept = rightId ∧ id other = leftId))).
  { unfold mergeInMemory in Hplan.
    destruct (findItemStatus current leftId) as [l|] eqn:Hl; [| done].
    destruct (findItemStatus current rightId) as [r|] eqn:Hr; [| done].
    destruct (String.eqb leftId rightId); [done |].
    destruct (negb (isUnresolvedConflictPair _ _)); [done |].
    destruct (negb _ && negb _); [done |].
    destruct (findItemStatus_item _ _ _ Hl) as (Hlid & _ & _).
    destruct (findItemStatus_item _ _ _ Hr) as (Hrid & _ & _).
    set (keep := if String.eqb (default leftId keepIdArg) leftId then l else r)
      in *.
    set (other := if String.eqb (default leftId keepIdArg) leftId then r else l)
      in *.
    assert (Hids : (id (locatedItem keep) = leftId
                    ∧ id (locatedItem other) = rightId)
                   ∨ (id (locatedItem keep) = rightId
                      ∧ id (locatedItem other) = leftId)).
    { subst keep other.
      destruct (String.eqb (default leftId keepIdArg) leftId); auto. }
    unfold removeItemById in Hplan.
    destruct (findItemStatus current (id (locatedItem keep))) as [k|] eqn:Hk;
      [| done].
    destruct (findItemStatus_item _ _ _ Hk) as (Hkid & _ & Hklook).
    rewrite Hklook in Hplan.
    destruct (findItemStatus
                (spliceOut current (locatedStatus k) (locatedIndex k))
                (id (locatedItem other))) as [o|] eqn:Ho; [| done].
    destruct (findItemStatus_item _ _ _ Ho) as (Hoid & _ & Holook).
    rewrite Holook in Hplan. injection Hplan as <-.
    cbn [planBuckets planMerged planDeprecated].
    exists (locatedItem k), (locatedItem o),
      (allItems (spliceOut
                   (spliceOut current (locatedStatus k) (locatedIndex k))
                   (locatedStatus o) (locatedIndex o))).
    split; [| split; [| split; [| split]]].
    - rewrite (allItems_spliceOut _ _ _ _ Hklook).
      by rewrite (allItems_spliceOut _ _ _ _ Holook).
    - unfold allItems. cbn [activeBucket pendingBucket deprecatedBucket].
      solve_Permutation.
    - done.
    - done.
    - rewrite Hkid, Hoid. exact Hids. }
  split; [exact Hperm |].
  destruct Hperm as (kept & other & rest & Hcur & Hnew & _).
  apply Permutation_length in Hcur, Hnew. by rewrite Hcur, Hnew.
Qed.

Section Seeding.
Context `{Platform} (paths : MemoryStatusPaths).

Lemma fold_pushByStatus items b :
  fold_left (fun acc it => pushItem acc (status it) it) items b
  = {| activeBucket :=
         activeBucket b ++ filter (fun it => status it = active) items;
       pendingBucket :=
         pendingBucket b ++ filter (fun it => status it = pending) items;
       deprecatedBucket :=
         deprecatedBucket b ++ filter (fun it => status it = deprecated) items |}.
Proof.
  revert b. induction items as [|it rest IH]; intros b.
  - simpl. rewrite !app_nil_r. by destruct b.
  - cbn [fold_left]. rewrite IH, !filter_cons. unfold pushItem.
    destruct b as [a p dp]. destruct (status it); simpl;
      rewrite ?decide_True by done; rewrite ?decide_False by done;
      by rewrite <- ?app_assoc.
Qed.

(** X16: on a disk without any bucket file, [ensureStatusBuckets] seeds the
    three bucket files from the canonical file, each with the items of the
    canonical file that carry its status (none when the canonical file is
    missing or unreadable); on a disk with at least one bucket file it
    writes what it loads from them; in both cases all three bucket files
    exist afterwards and the canonical file is left as it was. *)
Theorem ensureStatusBuckets_seeds (d : Disk) :
  let seed := (readMemoryItems (memoryPath paths) (memoryYml d)).1 in
  let hasStatus (s : MemoryStatus) := filter (fun it => status it = s) seed in
  (activeYml d = None → pendingYml d = None → deprecatedYml d = None →
   bucketFiles (ensureStatusBuckets paths d)
   = [Some (serializeItems (sortItems (hasStatus active)));
      Some (serializeItems (sortItems (hasStatus pending)));
      Some (serializeItems (sortItems (hasStatus deprecated)))])
  ∧ (bucketFiles d ≠ [None; None; None] →
     ensureStatusBuckets paths d
     = saveStatusBuckets (loadStatusBuckets paths d) d)
  ∧ Forall (fun file => is_Some file) (bucketFiles (ensureStatusBuckets paths d))
  ∧ memoryYml (ensureStatusBuckets paths d) = memoryYml d.
Proof.
  intros seed hasStatus. split; [| split; [| split]].
  - intros Ha Hp Hd. unfold ensureStatusBuckets, existsSync. simpl.
    rewrite Ha, Hp, Hd. cbn [isNone negb orb].
    by rewrite bucketFiles_save, fold_pushByStatus.
  - intros Hsome. unfold ensureStatusBuckets, existsSync, bucketFiles in *.
    simpl in *.
    destruct (activeYml d), (pendingYml d), (deprecatedYml d); done.
  - unfold ensureStatusBuckets. destruct (_ || _); rewrite bucketFiles_save;
      repeat constructor; by eexists.
  - apply ensure_keeps_canonical.
Qed.

End Seeding.

(** ** The store on a platform that obeys the laws *)




Lemma good_allItems buckets :
  GoodBuckets buckets → Forall WellFormed (allItems buckets).
Proof.
  intros Hgood. unfold allItems. rewrite !Forall_app.
  repeat split.
  - eapply Forall_impl; [apply (Hgood active) |]. by intros it [? _].
  - eapply Forall_impl; [apply (Hgood pending) |]. by intros it [? _].
  - eapply Forall_impl; [apply (Hgood deprecated) |]. by intros it [? _].
Qed.


Section UnderLaws.
Context `{PlatformLaws} (paths : MemoryStatusPaths).

Lemma read_serialized_issues filePath (l : list MemoryItem) :
  Forall WellFormed l →
  readMemoryItems filePath (Some (serializeItems l)) = (sortItems l, []).
Proof.
  intros Hwf. unfold readMemoryItems, serializeItems.
  rewrite YAML_round_trip, readRecords_wellFormed; [done |].
  by apply sortItems_Forall.
Qed.

Lemma flattenBuckets_fixed buckets :
  sortItems (flattenBuckets buckets) = flattenBuckets buckets.
Proof. unfold flattenBuckets. apply sortItems_idem. Qed.

Lemma auditMemory_commit current today d :
  Forall WellFormed (allItems current) →
  auditMemory paths MemoryYml today
    (rebuildUnifiedMemory current (saveStatusBuckets current d))
  = {| summaryFilePath := memoryPath paths; summaryToday := today;
       summaryItems := flattenBuckets current;
       summaryIssues := runAudit (flattenBuckets current) [] today |}.
Proof.
  intros Hwf. unfold auditMemory, rebuildUnifiedMemory, writeMemoryItems.
  cbn [readFile writeTextFile memoryYml pathText].
  rewrite read_serialized_issues.
  - by rewrite !flattenBuckets_fixed.
  - unfold flattenBuckets. by apply sortItems_Forall.
Qed.


(** X18: on a platform that obeys the laws, the audit that follows a save
    and the rebuild of the canonical file reads back the items of the saved
    buckets, without any parse issue: its verdict is the verdict of
    [runAudit] on the flattened buckets. *)
Theorem commit_audit_reads_saved_items (current : StatusBuckets)
    (today : string) (d : Disk) :
  Forall WellFormed (allItems current) →
  let audit :=
    auditMemory paths MemoryYml today
      (rebuildUnifiedMemory current (saveStatusBuckets current d)) in
  summaryItems audit = flattenBuckets current
  ∧ summaryIssues audit = runAudit (flattenBuckets current) [] today
  ∧ postAuditExit paths current today d
    = auditExitCode (runAudit (flattenBuckets current) [] today).
Proof.
  intros Hwf audit. unfold postAuditExit. fold audit.
  unfold audit. by rewrite auditMemory_commit.
Qed.


End UnderLaws.

(** ** The triage and prune scripts *)

Lemma moveLoop_filters (targetIds : gset string) today reason l k m p :
  moveLoop targetIds today reason l k m p
  = (k ++ filter (fun it => id it ∉ targetIds) l,
     m ++ (id <$> filter (fun it => id it ∈ targetIds) l),
     p ++ ((fun it => demotedItem it today (reason (id it) it))
           <$> filter (fun it => id it ∈ targetIds) l)).
Proof.
  revert k m p. induction l as [|it rest IH]; intros k m p.
  - simpl. by rewrite !app_nil_r.
  - cbn [moveLoop]. rewrite !filter_cons.
    destruct (decide (id it ∈ targetIds)) as [Hin|Hout].
    + rewrite bool_decide_eq_true_2 by done. cbn [negb].
      rewrite decide_False by (by intros Hn). rewrite IH.
      by rewrite !fmap_cons, <- !app_assoc.
    + rewrite bool_decide_eq_false_2 by done. cbn [negb].
      rewrite decide_True by done. rewrite IH. by rewrite <- !app_assoc.
Qed.

Lemma length_filter_split {A} (P : A → Prop) `{!∀ x, Decision (P x)} (l : list A) :
  (length (filter (fun x => ¬ P x) l) + length (filter P l) = length l)%nat.
Proof.
  induction l as [|x rest IH]; [done |]. rewrite !filter_cons.
  destruct (decide (P x)).
  - rewrite decide_False by tauto. simpl. lia.
  - rewrite decide_True by done. simpl. lia.
Qed.

Lemma filter_none {A} (P : A → Prop) `{!∀ x, Decision (P x)} (l : list A) :
  (∀ x, x ∈ l → ¬ P x) → filter P l = [].
Proof.
  induction l as [|x rest IH]; intros Hall; [done |].
  rewrite filter_cons, decide_False by (apply Hall; by left).
  apply IH. intros y Hy. apply Hall. by right.
Qed.

Lemma filter_all {A} (P : A → Prop) `{!∀ x, Decision (P x)} (l : list A) :
  (∀ x, x ∈ l → P x) → filter P l = l.
Proof.
  induction l as [|x rest IH]; intros Hall; [done |].
  rewrite filter_cons, decide_True by (apply Hall; by left).
  f_equal. apply IH. intros y Hy. apply Hall. by right.
Qed.

Lemma filter_agree {A} (P Q : A → Prop) `{!∀ x, Decision (P x)}
    `{!∀ x, Decision (Q x)} (l : list A) :
  (∀ x, x ∈ l → P x ↔ Q x) → filter P l = filter Q l.
Proof.
  induction l as [|x rest IH]; intros Hall; [done |].
  rewrite !filter_cons.
  assert (Hrest : filter P rest = filter Q rest).
  { apply IH. intros y Hy. apply Hall. by right. }
  destruct (decide (P x)) as [Hp|Hp].
  - rewrite decide_True by (apply Hall; [by left | done]). by rewrite Hrest.
  - rewrite decide_False; [done |]. intros Hq. apply Hp, Hall; [by left | done].
Qed.

(** X20: [moveActiveIdsToPending] demotes exactly the active items whose id
    is among the given ids: it returns their ids in bucket order, leaves the
    other active items in place and in order, appends the demoted copies
    (status pending, updated today, next the reason) to the pending bucket,
    and leaves the deprecated bucket alone; no item is lost. *)
Theorem moveActiveIdsToPending_demotes (buckets : StatusBuckets)
    (ids : list string) (today : string)
    (reason : string → MemoryItem → string) :
  let targeted (it : MemoryItem) := id it ∈ ids in
  let demote (it : MemoryItem) := demotedItem it today (reason (id it) it) in
  let moved := (moveActiveIdsToPending buckets ids today reason).1 in
  let after := (moveActiveIdsToPending buckets ids today reason).2 in
  moved = id <$> filter targeted (activeBucket buckets)
  ∧ activeBucket after = filter (fun it => ¬ targeted it) (activeBucket buckets)
  ∧ pendingBucket after
    = pendingBucket buckets ++ (demote <$> filter targeted (activeBucket buckets))
  ∧ deprecatedBucket after = deprecatedBucket buckets
  ∧ length (allItems after) = length (allItems buckets).
Proof.
  intros targeted demote moved after.
  assert (Hclosed :
    moved = id <$> filter targeted (activeBucket buckets)
    ∧ activeBucket after = filter (fun it => ¬ targeted it) (activeBucket buckets)
    ∧ pendingBucket after
      = pendingBucket buckets ++ (demote <$> filter targeted (activeBucket buckets))
    ∧ deprecatedBucket after = deprecatedBucket buckets).
  { subst moved after. unfold moveActiveIdsToPending.
    destruct (decide (size (list_to_set ids : gset string) = 0%nat)) as [Hsize|Hsize].
    - rewrite bool_decide_eq_true_2 by done. cbn [fst snd].
      apply size_empty_inv in Hsize.
      assert (Hnone : ∀ it : MemoryItem, ¬ targeted it).
      { intros it Hit. apply (elem_of_list_to_set (C := gset string)) in Hit.
        rewrite Hsize in Hit. by apply elem_of_empty in Hit. }
      rewrite (filter_none targeted) by (intros; apply Hnone).
      rewrite (filter_all (fun it => ¬ targeted it)) by (intros; apply Hnone).
      by rewrite app_nil_r.
    - rewrite bool_decide_eq_false_2 by done. rewrite moveLoop_filters.
      cbn [fst snd activeBucket pendingBucket deprecatedBucket app].
      assert (Hin : ∀ it : MemoryItem,
                id it ∈ (list_to_set ids : gset string) ↔ targeted it).
      { intros it. apply elem_of_list_to_set. }
      rewrite (list_filter_iff (fun it => id it ∈ (list_to_set ids : gset string))
                 targeted) by done.
      rewrite (list_filter_iff (fun it => id it ∉ (list_to_set ids : gset string))
                 (fun it => ¬ targeted it)); [done |].
      intros it. by rewrite Hin. }
  destruct Hclosed as (Hmoved & Hactive & Hpending & Hdeprecated).
  repeat split; try done.
  unfold allItems. rewrite Hactive, Hpending, Hdeprecated.
  rewrite !length_app, length_fmap.
  pose proof (length_filter_split targeted (activeBucket buckets)). lia.
Qed.

Lemma mapHas_true (m : list (string * MemoryItem)) k :
  mapHas m k = true ↔ k ∈ m.*1.
Proof.
  induction m as [|[k' v] rest IH]; simpl.
  - split; [done | by intros ?%elem_of_nil].
  - rewrite orb_true_iff, IH, elem_of_cons.
    destruct (String.eqb_spec k' k); split; intros [?|?]; auto; congruence.
Qed.

Lemma head_filter_snoc {A} (P : A → Prop) `{!∀ x, Decision (P x)} l x :
  head (filter P (l ++ [x]))
  = match head (filter P l) with
    | Some y => Some y
    | None => if decide (P x) then Some x else None
    end.
Proof.
  rewrite filter_app. destruct (filter P l) as [|y rest]; simpl; [| done].
  rewrite filter_cons. by destruct (decide (P x)).
Qed.

(** What the [Map] of [dedupeById] holds after the loop over [items]. *)
Lemma dedupe_loop items :
  let m :=
    fold_left
      (fun m it => if negb (mapHas m (id it)) then m ++ [(id it, it)] else m)
      items [] in
  m.*1 = id <$> m.*2
  ∧ NoDup m.*1
  ∧ (∀ i, i ∈ m.*1 ↔ i ∈ id <$> items)
  ∧ (∀ it, it ∈ m.*2 ↔ head (filter (fun y => id y = id it) items) = Some it)
  ∧ (length m <= length items)%nat
  ∧ (NoDup (id <$> items) → m.*2 = items).
Proof.
  induction items as [|x items IH] using rev_ind.
  - simpl. repeat split; try done; try constructor.
    by intros ?%elem_of_nil.
  - rewrite fold_left_app. cbn [fold_left].
    set (m := fold_left _ items []) in *. cbv zeta in IH.
    destruct IH as (Hkeys & Hnodup & Hids & Hfirst & Hlen & Hsame).
    destruct (mapHas m (id x)) eqn:Hhas; cbn [negb].
    + apply mapHas_true in Hhas.
      split; [done |]. split; [done |]. split; [| split; [| split]].
      * intros i. rewrite Hids, fmap_app, elem_of_app. simpl.
        split; [by left |]. intros [?|Hx%list_elem_of_singleton]; [done |].
        subst i. by apply Hids.
      * intros it. rewrite Hfirst, head_filter_snoc.
        destruct (head (filter (fun y => id y = id it) items)) as [y|] eqn:Hhead;
          [done |].
        destruct (decide (id x = id it)) as [Heq|]; [| done].
        exfalso. apply Hids in Hhas.
        apply list_elem_of_fmap in Hhas as (y & Hy & Hin).
        assert (Hf : y ∈ filter (fun y => id y = id it) items).
        { apply list_elem_of_filter. split; [congruence | done]. }
        destruct (filter (fun y => id y = id it) items);
          [by apply elem_of_nil in Hf | done].
      * rewrite !length_app. simpl. lia.
      * rewrite fmap_app. intros Hnd. apply NoDup_app in Hnd as (_ & Hdisj & _).
        exfalso. apply Hids in Hhas. eapply Hdisj; [exact Hhas |]. by left.
    + assert (Hnew : id x ∉ m.*1).
      { intros Hin. apply mapHas_true in Hin. congruence. }
      rewrite !fmap_app. simpl.
      split; [by rewrite Hkeys |]. split; [| split; [| split; [| split]]].
      * apply NoDup_app. split; [done |]. split; [| apply NoDup_singleton].
        intros i Hi Hx%list_elem_of_singleton. by subst i.
      * intros i. rewrite !elem_of_app, Hids. done.
      * intros it. rewrite elem_of_app, Hfirst, head_filter_snoc.
        rewrite list_elem_of_singleton.
        destruct (head (filter (fun y => id y = id it) items)) as [y|] eqn:Hhead.
        -- assert (Hy : id y = id it ∧ y ∈ items).
           { assert (Hy : y ∈ filter (fun y => id y = id it) items).
             { destruct (filter _ items) as [|z l]; [done |].
               injection Hhead as ->. by left. }
             by apply list_elem_of_filter in Hy. }
           destruct Hy as [Hyid Hyin].
           split; [| by left]. intros [?| ->]; [done |]. exfalso.
           apply Hnew, Hids. apply list_elem_of_fmap. by exists y.
        -- destruct (decide (id x = id it)) as [Heq|Hne].
           ++ split; [intros [?|?]; [done | by subst] | intros [= ->]; by right].
           ++ split; [intros [?|?]; [done | by subst] | done].
      * rewrite !length_app. simpl. lia.
      * intros Hnd. apply NoDup_app in Hnd as (Hnd & _ & _).
        by rewrite (Hsame Hnd).
Qed.

(** X21: [dedupeById] returns one item per id, the first of the list with
    that id: the ids of the result are distinct and are the ids of the
    list; a list without a repeated id comes back whole, reordered. *)
Theorem dedupeById_keeps_first `{Platform} (items : list MemoryItem) :
  NoDup (id <$> dedupeById items)
  ∧ (∀ it, it ∈ dedupeById items
           ↔ head (filter (fun y => id y = id it) items) = Some it)
  ∧ (∀ i, i ∈ (id <$> dedupeById items) ↔ i ∈ (id <$> items))
  ∧ (length (dedupeById items) <= length items)%nat
  ∧ (NoDup (id <$> items) → dedupeById items ≡ₚ items).
Proof.
  destruct (dedupe_loop items) as (Hkeys & Hnodup & Hids & Hfirst & Hlen & Hsame).
  cbv zeta in *. unfold dedupeById.
  set (m := fold_left _ items []) in *.
  pose proof (toSorted_perm (fun a b => localeCompare (id a) (id b)) (map snd m))
    as Hperm.
  change (map snd m) with (m.*2) in Hperm |- *.
  split; [| split; [| split; [| split]]].
  - rewrite Hperm. by rewrite <- Hkeys.
  - intros it. by rewrite Hperm, Hfirst.
  - intros i. by rewrite Hperm, <- Hkeys, Hids.
  - rewrite (Permutation_length Hperm), length_fmap. done.
  - intros Hnd. by rewrite Hperm, (Hsame Hnd).
Qed.

Lemma NoDup_fmap_eq {A B} (f : A → B) (l : list A) x y :
  NoDup (f <$> l) → x ∈ l → y ∈ l → f x = f y → x = y.
Proof.
  induction l as [|z rest IH]; [by intros _ ?%elem_of_nil |].
  rewrite fmap_cons, NoDup_cons. intros [Hz Hnd] Hx Hy Heq.
  apply elem_of_cons in Hx as [->|Hx]; apply elem_of_cons in Hy as [->|Hy].
  - done.
  - destruct Hz. rewrite Heq. by apply list_elem_of_fmap_2.
  - destruct Hz. rewrite <- Heq. by apply list_elem_of_fmap_2.
  - by apply IH.
Qed.

Lemma filter_complement_perm {A} (P : A → Prop) `{!∀ x, Decision (P x)}
    (l : list A) :
  filter (fun x => ¬ P x) l ++ filter P l ≡ₚ l.
Proof.
  induction l as [|x rest IH]; [done |]. rewrite !filter_cons.
  destruct (decide (P x)).
  - rewrite decide_False by tauto. rewrite <- Permutation_middle. by rewrite IH.
  - rewrite decide_True by done. simpl. by rewrite IH.
Qed.

(** An audit that is not severe has seen no id twice, whatever the initial
    issues. *)
Lemma audit_not_severe_NoDup items initial today :
  auditExitCode (runAudit items initial today) ≠ 2 → NoDup (id <$> items).
Proof.
  intros Hexit. apply NoDup_occurrences. intros i.
  destruct (Nat.le_gt_cases (occurrences i items) 1) as [|Hmany]; [done |].
  exfalso. apply Hexit, auditExitCode_cases.
  destruct (runAudit_app items initial today)
    as (duplicates & staleOnes & conflicts & -> & Hdup & _).
  rewrite !existsb_app.
  assert (Hsev : existsb (fun issue => isSevereCode (code issue)) duplicates = true).
  { apply existsb_exists.
    exists (makeIssue duplicate_id (duplicateMessage i (occurrences i items)) [i]).
    split; [| done]. apply list_elem_of_In, Hdup. exists i. split; [lia | done]. }
  rewrite Hsev. by rewrite orb_true_r.
Qed.

(** X22: when the prune script goes on (the audit of the memory file is not
    severe), the ids of the audited items are distinct, the items to
    archive are the deprecated or expired ones, the items to keep are all
    the others, and the two lists together hold every audited item exactly
    once: a prune loses no item. *)
Theorem prune_keeps_every_item `{Platform} (paths : MemoryStatusPaths)
    (f : StoreFile) (today : string) (d : Disk)
    (keep toArchive : list MemoryItem) :
  prunePlan paths f today d = Some (keep, toArchive) →
  let items := summaryItems (auditMemory paths f today d) in
  NoDup (id <$> items)
  ∧ toArchive
    = filter (fun it => status it = deprecated ∨ isExpired it today = true) items
  ∧ keep
    = filter (fun it => ¬ (status it = deprecated ∨ isExpired it today = true))
        items
  ∧ keep ++ toArchive ≡ₚ items.
Proof.
  intros Hplan items. unfold prunePlan in Hplan. cbv zeta in Hplan.
  destruct (Z.eqb_spec
              (auditExitCode (summaryIssues (auditMemory paths f today d))) 2)
    as [|Hexit]; [done |].
  fold items in Hplan.
  assert (Hnodup : NoDup (id <$> items)).
  { subst items. unfold auditMemory in *.
    destruct (readMemoryItems (pathText paths f) (readFile d f))
      as [read parseIssues].
    cbn [summaryItems summaryIssues] in *.
    apply audit_not_severe_NoDup in Hexit.
    unfold sortItems. by rewrite toSorted_perm. }
  unfold pruneSplit in Hplan. injection Hplan as Hkeep Harchive.
  split; [exact Hnodup |]. split; [done |].
  assert (Hkeep' : keep
                   = filter (fun it => ¬ (status it = deprecated
                                          ∨ isExpired it today = true)) items).
  { rewrite <- Hkeep. apply filter_agree. intros it Hit.
    rewrite elem_of_list_to_set. split.
    - intros Hout Hp. apply Hout. apply list_elem_of_fmap_2.
      by apply list_elem_of_filter.
    - intros Hnp (y & Hid & [Hp Hy]%list_elem_of_filter)%list_elem_of_fmap.
      apply Hnp. by rewrite (NoDup_fmap_eq id items it y Hnodup Hit Hy Hid). }
  split; [exact Hkeep' |].
  rewrite Hkeep', <- Harchive. apply filter_complement_perm.
Qed.

(** ** Lock names and command lines *)

Lemma replaceRuns_kept keep inRun s :
  keep "-"%char = true →
  Forall (fun c => keep c = true) (list_ascii_of_string (replaceRuns keep inRun s)).
Proof.
  intros Hdash. revert inRun. induction s as [|c rest IH]; intros inRun; simpl.
  - constructor.
  - destruct (keep c) eqn:Hc; simpl.
    + constructor; [done | apply IH].
    + destruct inRun; [apply IH |]. simpl. constructor; [done | apply IH].
Qed.

Lemma replaceRuns_length keep inRun s :
  (String.length (replaceRuns keep inRun s) <= String.length s)%nat.
Proof.
  revert inRun. induction s as [|c rest IH]; intros inRun; simpl; [done |].
  destruct (keep c); simpl.
  - specialize (IH false). lia.
  - destruct inRun; simpl; specialize (IH true); lia.
Qed.

Lemma replaceRuns_fixed keep inRun s :
  Forall (fun c => keep c = true) (list_ascii_of_string s) →
  replaceRuns keep inRun s = s.
Proof.
  revert inRun. induction s as [|c rest IH]; intros inRun; simpl; [done |].
  intros [Hc Hrest]%Forall_cons. rewrite Hc. by rewrite IH.
Qed.

(** X23: the file name that [resolveMemoryLockPath] derives from a lock
    name holds only letters, digits, dots, underscores and dashes, so no
    path separator; it is not longer than the lock name; a lock name made of
    such characters only is kept as it is, so the derivation is idempotent. *)
Theorem safeLockName_is_safe (lockName : string) :
  Forall (fun c => isLockNameChar c = true)
    (list_ascii_of_string (safeLockName lockName))
  ∧ ("/"%char ∉ list_ascii_of_string (safeLockName lockName))
  ∧ (String.length (safeLockName lockName) <= String.length lockName)%nat
  ∧ (Forall (fun c => isLockNameChar c = true) (list_ascii_of_string lockName) →
     safeLockName lockName = lockName)
  ∧ safeLockName (safeLockName lockName) = safeLockName lockName.
Proof.
  assert (Hkept : Forall (fun c => isLockNameChar c = true)
                    (list_ascii_of_string (safeLockName lockName))).
  { by apply replaceRuns_kept. }
  split; [exact Hkept |]. split; [| split; [| split]].
  - intros Hin. by apply (proj1 (Forall_forall _ _) Hkept) in Hin.
  - apply replaceRuns_length.
  - apply replaceRuns_fixed.
  - by apply replaceRuns_fixed.
Qed.

Lemma substring_whole s : String.substring 0 (String.length s) s = s.
Proof. induction s as [|c rest IH]; simpl; [done | by rewrite IH]. Qed.

Lemma startsWith_dashes arg :
  Js.startsWith arg "--" = true →
  arg = "--" +:+ String.substring 2 (String.length arg - 2) arg.
Proof.
  unfold Js.startsWith.
  destruct arg as [|c1 [|c2 rest]]; cbn [String.prefix].
  - done.
  - by destruct (ascii_dec "-" c1).
  - destruct (ascii_dec "-" c1) as [<-|]; [| done].
    destruct (ascii_dec "-" c2) as [<-|]; [| done].
    intros _. cbn [String.length Nat.sub String.substring].
    by rewrite Nat.sub_0_r, substring_whole.
Qed.

Lemma key_of_dashes k :
  Js.startsWith ("--" +:+ k) "--" = true
  ∧ String.substring 2 (String.length ("--" +:+ k) - 2) ("--" +:+ k) = k.
Proof.
  change ("--" +:+ k) with (String "-" (String "-" k)). split.
  - unfold Js.startsWith. cbn [String.prefix].
    destruct (ascii_dec "-" "-"); [by destruct k | done].
  - cbn [String.length Nat.sub String.substring].
    by rewrite Nat.sub_0_r, substring_whole.
Qed.

Lemma setArg_from whole key val args :
  (key ≠ "__proto__" → argFrom whole key val) →
  (∀ k v, args !! k = Some v → argFrom whole k v) →
  ∀ k v, setArg key val args !! k = Some v → argFrom whole k v.
Proof.
  intros Hnew Hold k v. unfold setArg.
  destruct (String.eqb_spec key "__proto__") as [|Hkey]; [apply Hold |].
  destruct (decide (key = k)) as [<-|Hne].
  - rewrite lookup_insert_eq. intros [= <-]. by apply Hnew.
  - rewrite lookup_insert_ne by done. apply Hold.
Qed.

Lemma asCliArgLoop_from n :
  ∀ argv pre args,
    (length argv <= n)%nat →
    (∀ k v, args !! k = Some v → argFrom (pre ++ argv) k v) →
    ∀ k v, asCliArgLoop argv args !! k = Some v → argFrom (pre ++ argv) k v.
Proof.
  induction n as [|n IH]; intros argv pre args Hlen Hargs.
  - destruct argv; [done | simpl in Hlen; lia].
  - destruct argv as [|arg rest]; [done |]. simpl in Hlen.
    cbn [asCliArgLoop].
    destruct (Js.startsWith arg "--") eqn:Hdashes; cbn [negb].
    + pose proof (startsWith_dashes arg Hdashes) as Harg.
      set (key := String.substring 2 (String.length arg - 2) arg) in *.
      destruct rest as [|value rest'].
      * apply setArg_from; [| done]. intros Hkey. split; [done |].
        exists pre, []. by rewrite <- Harg.
      * destruct (negb (Js.isEmpty value) && negb (Js.startsWith value "--"))
          eqn:Hvalue.
        -- apply andb_prop in Hvalue as [Hne Hnd].
           replace (pre ++ arg :: value :: rest')
             with ((pre ++ [arg; value]) ++ rest')
             by (by rewrite <- app_assoc).
           apply IH; [simpl in Hlen; lia |].
           rewrite <- app_assoc. apply setArg_from; [| done].
           intros Hkey. split; [done |]. split; [by destruct value |].
           split; [by destruct (Js.startsWith value "--") |].
           exists pre, rest'. by rewrite <- Harg.
        -- replace (pre ++ arg :: value :: rest')
             with ((pre ++ [arg]) ++ value :: rest')
             by (by rewrite <- app_assoc).
           apply IH; [simpl in *; lia |].
           rewrite <- app_assoc. apply setArg_from; [| done].
           intros Hkey. split; [done |].
           exists pre, (value :: rest'). rewrite <- Harg. split; [done |].
           apply andb_false_iff in Hvalue as [He|Hd].
           ++ left. by destruct value.
           ++ right. by destruct (Js.startsWith value "--").
    + replace (pre ++ arg :: rest) with ((pre ++ [arg]) ++ rest)
        by (by rewrite <- app_assoc).
      apply IH; [lia |]. by rewrite <- app_assoc.
Qed.

Lemma setArg_keeps key val args k :
  is_Some (args !! k) → is_Some (setArg key val args !! k).
Proof.
  unfold setArg. destruct (String.eqb key "__proto__"); [done |].
  intros Hk. destruct (decide (key = k)) as [<-|Hne].
  - rewrite lookup_insert_eq. by eexists.
  - by rewrite lookup_insert_ne.
Qed.

Lemma asCliArgLoop_keeps n :
  ∀ argv args k,
    (length argv <= n)%nat →
    is_Some (args !! k) → is_Some (asCliArgLoop argv args !! k).
Proof.
  induction n as [|n IH]; intros argv args k Hlen Hk.
  - destruct argv; [done | simpl in Hlen; lia].
  - destruct argv as [|arg rest]; [done |]. simpl in Hlen.
    cbn [asCliArgLoop]. destruct (negb (Js.startsWith arg "--")).
    + apply IH; [lia | done].
    + destruct rest as [|value rest']; [by apply setArg_keeps |].
      destruct (negb (Js.isEmpty value) && negb (Js.startsWith value "--"));
        (apply IH; [simpl in *; lia | by apply setArg_keeps]).
Qed.

Lemma asCliArgLoop_sets n :
  ∀ argv args k,
    (length argv <= n)%nat →
    ("--" +:+ k) ∈ argv → k ≠ "__proto__" →
    is_Some (asCliArgLoop argv args !! k).
Proof.
  induction n as [|n IH]; intros argv args k Hlen Hin Hk.
  - destruct argv; [by apply elem_of_nil in Hin | simpl in Hlen; lia].
  - destruct argv as [|arg rest]; [by apply elem_of_nil in Hin |].
    simpl in Hlen. cbn [asCliArgLoop].
    destruct (key_of_dashes k) as [Hdashes Hkey].
    assert (Hset : ∀ val, is_Some (setArg k val args !! k)).
    { intros val. unfold setArg. destruct (String.eqb_spec k "__proto__"); [done |].
      rewrite lookup_insert_eq. by eexists. }
    apply elem_of_cons in Hin as [<-|Hin].
    + rewrite Hdashes, Hkey. cbn [negb].
      destruct rest as [|value rest']; [apply Hset |].
      destruct (negb (Js.isEmpty value) && negb (Js.startsWith value "--"));
        (eapply asCliArgLoop_keeps; [reflexivity | apply Hset]).
    + destruct (negb (Js.startsWith arg "--")); [apply IH; [lia | done..] |].
      destruct rest as [|value rest']; [by apply elem_of_nil in Hin |].
      destruct (negb (Js.isEmpty value) && negb (Js.startsWith value "--"))
        eqn:Hvalue; [| apply IH; [simpl in *; lia | done..]].
      apply IH; [simpl in *; lia | | done].
      apply elem_of_cons in Hin as [<-|Hin]; [| done].
      apply andb_prop in Hvalue as [_ Hnd]. by rewrite Hdashes in Hnd.
Qed.

(** X24: the record that [asCliArgMap] returns has a key for every token
    "--key" of the command line (the key "__proto__" apart, which the
    object literal does not store) and for nothing else; a string value is
    the token that follows one occurrence of its key, and is neither empty
    nor a token that starts with "--"; a key with the value true has an
    occurrence that ends the command line or is followed by such a token. *)
Theorem asCliArgMap_entries (argv : list string) (k : string) :
  (is_Some (asCliArgMap argv !! k)
   ↔ ("--" +:+ k) ∈ argv ∧ k ≠ "__proto__")
  ∧ (∀ v, asCliArgMap argv !! k = Some (ArgString v) →
          v ≠ "" ∧ Js.startsWith v "--" = false
          ∧ ∃ l1 l2, argv = l1 ++ ("--" +:+ k) :: v :: l2)
  ∧ (asCliArgMap argv !! k = Some ArgTrue →
     ∃ l1 l2, argv = l1 ++ ("--" +:+ k) :: l2
              ∧ match l2 with
                | [] => True
                | following :: _ =>
                    following = "" ∨ Js.startsWith following "--" = true
                end).
Proof.
  assert (Hfrom : ∀ v, asCliArgMap argv !! k = Some v → argFrom argv k v).
  { intros v. apply (asCliArgLoop_from (length argv) argv [] ∅); [done |].
    intros k' v'. by rewrite lookup_empty. }
  split; [| split].
  - split.
    + intros [v Hv]. destruct (Hfrom v Hv) as [Hk Hval]. split; [| done].
      destruct v as [s|].
      * destruct Hval as (_ & _ & l1 & l2 & ->).
        apply elem_of_app. right. by left.
      * destruct Hval as (l1 & l2 & -> & _). apply elem_of_app. right. by left.
    + intros [Hin Hk]. by eapply asCliArgLoop_sets.
  - intros v Hv. by destruct (Hfrom _ Hv) as [_ ?].
  - intros Hv. by destruct (Hfrom _ Hv) as [_ ?].
Qed.

(** ** The conflicts that the store lists *)

Lemma cloneItem_same it : cloneItem it = it.
Proof. by destruct it as [? ? ? ? ? ? ? ? [? ? ?] ? ? ?]. Qed.

Lemma isConflictPair_same_slot l r options :
  isConflictPair l r options = true → topic l = topic r ∧ key l = key r.
Proof.
  unfold isConflictPair.
  destruct (_ || _); [done |].
  destruct (String.eqb_spec (topic l) (topic r)); [| done].
  by destruct (String.eqb_spec (key l) (key r)).
Qed.

(** X25: [listConflicts] has one entry for each unresolved conflict pair of
    the list (two active or pending items, the left one standing first), with
    the pair id of the two ids, the topic and key that the two items share,
    and the two items as they are; no deprecated item is listed. *)
Theorem listConflicts_entries `{Platform} (items : list MemoryItem)
    (entry : MemoryConflictPair) :
  (entry ∈ listConflicts items
   ↔ ∃ a b, occursBefore a b items
            ∧ isUnresolvedConflictPair a b = true
            ∧ entry = {| pair_id := conflictPairId (id a) (id b);
                         pairTopic := topic a; pairKey := key a;
                         pairLeft := a; pairRight := b |})
  ∧ (entry ∈ listConflicts items →
     topic (pairRight entry) = pairTopic entry
     ∧ key (pairRight entry) = pairKey entry
     ∧ status (pairLeft entry) ≠ deprecated
     ∧ status (pairRight entry) ≠ deprecated)
  ∧ length (listConflicts items) = length (listUnresolvedConflictPairs items).
Proof.
  assert (Hiff : entry ∈ listConflicts items
                 ↔ ∃ a b, occursBefore a b items
                          ∧ isUnresolvedConflictPair a b = true
                          ∧ entry = {| pair_id := conflictPairId (id a) (id b);
                                       pairTopic := topic a; pairKey := key a;
                                       pairLeft := a; pairRight := b |}).
  { unfold listConflicts. rewrite toSorted_elem.
    change (map ?f ?l) with (f <$> l). rewrite list_elem_of_fmap.
    unfold listUnresolvedConflictPairs, listConflictPairs. split.
    - intros ([a b] & -> & Hpair). apply conflictPairsOf_elem in Hpair as [Hpos Hc].
      exists a, b. cbn [left right]. rewrite !cloneItem_same.
      split; [| done].
      destruct (isConflictPair_allowed _ _ _ Hc) as [Ha Hb].
      by apply (occursBefore_filter
                  (fun it => includes (allowedStatusesOf (Some [active; pending]))
                               (status it) = true) a b items Ha Hb).
    - intros (a & b & Hpos & Hc & ->). exists {| left := a; right := b |}.
      cbn [left right]. rewrite !cloneItem_same. split; [done |].
      apply conflictPairsOf_elem. split; [| done].
      destruct (isConflictPair_allowed _ _ _ Hc) as [Ha Hb].
      by apply (occursBefore_filter
                  (fun it => includes (allowedStatusesOf (Some [active; pending]))
                               (status it) = true) a b items Ha Hb). }
  split; [exact Hiff |]. split.
  - intros (a & b & _ & Hc & ->)%Hiff. cbn.
    destruct (isConflictPair_same_slot _ _ _ Hc) as [Ht Hk].
    destruct (isConflictPair_allowed _ _ _ Hc) as [Ha Hb].
    repeat split; try done.
    + intros Hd. rewrite Hd in Ha. by vm_compute in Ha.
    + intros Hd. rewrite Hd in Hb. by vm_compute in Hb.
  - unfold listConflicts.
    rewrite (Permutation_length (toSorted_perm _ _)). apply length_map.
Qed.

(** ** What a read returns *)

(** X26: every item that [readMemoryItems] returns meets the schema: its id
    has the MEM format, its source is a valid source, its two dates parse
    with effective_from not after expires, and its updated date, when it has
    one, parses.  A file that is missing, or whose text is not a YAML list,
    yields no item and a severe verdict. *)
Theorem readMemoryItems_validates `{Platform} (filePath : string)
    (content : option string) :
  let read := readMemoryItems filePath content in
  (∀ it, it ∈ read.1 →
         testIdPattern (id it) = true
         ∧ isValidSource (source it) = true
         ∧ (∃ fromTs toTs, parseIsoDay (effective_from it) = Some fromTs
                           ∧ parseIsoDay (expires it) = Some toTs
                           ∧ fromTs <= toTs)
         ∧ (∀ u, updated it = Some u → is_Some (parseIsoDay u)))
  ∧ (content = None →
     read = ([], [makeIssue schema ("Missing memory file: " +:+ filePath) []]))
  ∧ ((∀ raw parsed, content = Some raw →
                    YAML_parse raw ≠ YamlValue (JArray parsed)) →
     read.1 = [] ∧ auditExitCode read.2 = 2).
Proof.
  intros read. split; [| split].
  - intros it Hit.
    pose proof (readMemoryItems_wellFormed filePath content) as Hall.
    apply (proj1 (Forall_forall _ _) Hall) in Hit as Hwf.
    destruct Hwf. repeat split; done.
  - by intros ->.
  - intros Hnot. subst read. unfold readMemoryItems.
    destruct content as [raw|]; [| done].
    specialize (Hnot raw).
    destruct (YAML_parse raw) as [v|reason]; [| done].
    destruct v; try done. by destruct (Hnot elements).
Qed.

(** X27: an item is expired only from the day after its expiry date: on the
    expiry date itself it is not; a day that does not parse expires nothing;
    and an item expired on one day is expired on every later day. *)
Theorem isExpired_boundary (it : MemoryItem) (today : string) :
  (expires it = today → isExpired it today = false)
  ∧ (parseIsoDay today = None → isExpired it today = false)
  ∧ (∀ later t t',
       isExpired it today = true →
       parseIsoDay today = Some t → parseIsoDay later = Some t' → t <= t' →
       isExpired it later = true).
Proof.
  unfold isExpired. split; [| split].
  - intros ->. destruct (parseIsoDay today); [apply Z.ltb_irrefl | done].
  - intros ->. by destruct (parseIsoDay (expires it)).
  - intros later t t' Hexp Ht Ht' Hle. rewrite Ht in Hexp. rewrite Ht'.
    destruct (parseIsoDay (expires it)) as [e|]; [| done].
    apply Z.ltb_lt in Hexp. apply Z.ltb_lt. lia.
Qed.

Section EnsureTwice.
Context `{PlatformLaws} (paths : MemoryStatusPaths).

Lemma disk_eq (d d' : Disk) :
  bucketFiles d = bucketFiles d' → memoryYml d = memoryYml d' →
  workspace d = workspace d' → d = d'.
Proof.
  destruct d, d'. unfold bucketFiles. simpl. intros [= -> -> ->] -> ->. done.
Qed.

Lemma seeded_good (items : list MemoryItem) :
  Forall WellFormed items →
  GoodBuckets
    (fold_left (fun acc it => pushItem acc (status it) it) items emptyBuckets).
Proof.
  intros Hwf s. rewrite fold_pushByStatus.
  assert (Hs : ∀ s', Forall (fun it => WellFormed it ∧ status it = s')
                       (filter (fun it => status it = s') items)).
  { intros s'. apply Forall_forall. intros it [Hst Hin]%list_elem_of_filter.
    split; [| done]. by apply (proj1 (Forall_forall _ _) Hwf). }
  destruct s; simpl; apply Hs.
Qed.

(** X28: on a platform that obeys the laws, [ensureStatusBuckets] is
    idempotent: run on the disk that it left, it leaves that disk as it is. *)
Theorem ensureStatusBuckets_idempotent (d : Disk) :
  ensureStatusBuckets paths (ensureStatusBuckets paths d)
  = ensureStatusBuckets paths d.
Proof.
  assert (Hsaved : ∃ b, GoodBuckets b
                        ∧ ensureStatusBuckets paths d = saveStatusBuckets b d).
  { unfold ensureStatusBuckets. destruct (_ || _).
    - eexists. split; [apply load_good | done].
    - eexists. split; [| done]. apply seeded_good, readMemoryItems_wellFormed. }
  destruct Hsaved as (b & Hgood & ->).
  rewrite (ensure_existing paths (saveStatusBuckets b d)) by done.
  rewrite load_save by done.
  apply disk_eq; [| done..].
  apply bucketFiles_save_sorted.
Qed.

End EnsureTwice.

(** ** Conflict peers *)

Lemma setAdd_elem peers x p : p ∈ setAdd peers x ↔ p ∈ peers ∨ p = x.
Proof.
  unfold setAdd. destruct (decide (x ∈ peers)) as [Hin|Hout].
  - rewrite bool_decide_eq_true_2 by done. split; [by left |].
    by intros [?| ->].
  - rewrite bool_decide_eq_false_2 by done.
    by rewrite elem_of_app, list_elem_of_singleton.
Qed.

Lemma setAdd_NoDup peers x : NoDup peers → NoDup (setAdd peers x).
Proof.
  intros Hnd. unfold setAdd. destruct (decide (x ∈ peers)) as [Hin|Hout].
  - by rewrite bool_decide_eq_true_2.
  - rewrite bool_decide_eq_false_2 by done.
    apply NoDup_app. split; [done |]. split; [| apply NoDup_singleton].
    intros y Hy ->%list_elem_of_singleton. done.
Qed.

Lemma occursBefore_snoc {A} (a b y : A) xs :
  occursBefore a b (xs ++ [y]) ↔ occursBefore a b xs ∨ (a ∈ xs ∧ b = y).
Proof.
  split.
  - intros (l1 & l2 & l3 & Heq).
    destruct l3 as [|z l3 _] using rev_ind.
    + right.
      replace (l1 ++ a :: l2 ++ [b]) with ((l1 ++ a :: l2) ++ [b]) in Heq
        by (by rewrite <- app_assoc).
      apply app_inj_tail in Heq as [-> ->]. split; [| done].
      apply elem_of_app. right. by left.
    + left.
      replace (l1 ++ a :: l2 ++ b :: l3 ++ [z])
        with ((l1 ++ a :: l2 ++ b :: l3) ++ [z]) in Heq
        by (by repeat (rewrite <- app_assoc; cbn [app])).
      apply app_inj_tail in Heq as [-> _]. by exists l1, l2, l3.
  - intros [(l1 & l2 & l3 & ->)|[Hin ->]].
    + exists l1, l2, (l3 ++ [y]). by repeat (rewrite <- app_assoc; cbn [app]).
    + apply list_elem_of_split in Hin as (l1 & l2 & ->).
      exists l1, l2, []. by rewrite <- app_assoc.
Qed.

Lemma occursBefore_elem {A} (a b : A) l : occursBefore a b l → a ∈ l ∧ b ∈ l.
Proof.
  intros (l1 & l2 & l3 & ->). split.
  - apply elem_of_app. right. by left.
  - apply elem_of_app. right. right. apply elem_of_app. right. by left.
Qed.

(** X29: [findActiveConflictPeers] returns no id twice, and none for an
    item that is not active; for an active item whose id no listed item has,
    it returns exactly the ids of the listed items that are in active
    conflict with it. *)
Theorem findActiveConflictPeers_elem `{Platform} (item : MemoryItem)
    (activeItems : list MemoryItem) (p : string) :
  NoDup (findActiveConflictPeers item activeItems)
  ∧ (status item ≠ active → findActiveConflictPeers item activeItems = [])
  ∧ ((∀ a, a ∈ activeItems → id a ≠ id item) →
     (p ∈ findActiveConflictPeers item activeItems
      ↔ ∃ a, a ∈ activeItems ∧ id a = p ∧ isActiveConflictPair a item = true)).
Proof.
  unfold findActiveConflictPeers.
  set (step := fun (peers : list string) (pair : ActiveConflictPair) =>
                 if String.eqb (id (left pair)) (id item)
                 then setAdd peers (id (right pair))
                 else if String.eqb (id (right pair)) (id item)
                      then setAdd peers (id (left pair))
                      else peers).
  assert (Hfold : ∀ pairs acc,
            (NoDup acc → NoDup (fold_left step pairs acc))
            ∧ ∀ q, q ∈ fold_left step pairs acc
                   ↔ q ∈ acc
                     ∨ ∃ pair, pair ∈ pairs
                               ∧ ((id (left pair) = id item ∧ q = id (right pair))
                                  ∨ (id (left pair) ≠ id item
                                     ∧ id (right pair) = id item
                                     ∧ q = id (left pair)))).
  { induction pairs as [|pair pairs IH]; intros acc.
    - simpl. split; [done |]. intros q. split; [by left |].
      intros [?|(pair & Hin & _)]; [done | by apply elem_of_nil in Hin].
    - cbn [fold_left]. destruct (IH (step acc pair)) as [Hnd Hq]. split.
      + intros Hacc. apply Hnd. unfold step.
        destruct (String.eqb _ _); [by apply setAdd_NoDup |].
        destruct (String.eqb _ _); [by apply setAdd_NoDup | done].
      + intros q. rewrite Hq. unfold step.
        destruct (String.eqb_spec (id (left pair)) (id item)) as [Hl|Hl].
        * rewrite setAdd_elem. split.
          -- intros [[?| ->]|(x & Hx & Hcase)]; [by left | |].
             ++ right. exists pair. split; [by left | by left].
             ++ right. exists x. split; [by right | done].
          -- intros [?|(x & [->|Hx]%elem_of_cons & Hcase)].
             ++ by left; left.
             ++ destruct Hcase as [[_ ->]|[? _]]; [by left; right | done].
             ++ right. by exists x.
        * destruct (String.eqb_spec (id (right pair)) (id item)) as [Hr|Hr].
          -- rewrite setAdd_elem. split.
             ++ intros [[?| ->]|(x & Hx & Hcase)]; [by left | |].
                ** right. exists pair. split; [by left | by right].
                ** right. exists x. split; [by right | done].
             ++ intros [?|(x & [->|Hx]%elem_of_cons & Hcase)].
                ** by left; left.
                ** destruct Hcase as [[? _]|(_ & _ & ->)]; [done | by left; right].
                ** right. by exists x.
          -- split.
             ++ intros [?|(x & Hx & Hcase)]; [by left |].
                right. exists x. split; [by right | done].
             ++ intros [?|(x & [->|Hx]%elem_of_cons & Hcase)].
                ** by left.
                ** by destruct Hcase as [[? _]|(_ & ? & _)].
                ** right. by exists x. }
  destruct (decide (status item = active)) as [Hactive|Hother].
  - rewrite bool_decide_eq_true_2 by done. cbn [negb].
    destruct (Hfold (listActiveConflictPairs (activeItems ++ [item])) [])
      as [Hnd Hq].
    split; [| split; [done |]].
    + rewrite toSorted_perm. apply Hnd. constructor.
    + intros Hfresh. rewrite toSorted_elem, Hq. split.
      * intros [Hnil|([a b] & Hpair & Hcase)]; [by apply elem_of_nil in Hnil |].
        apply listActiveConflictPairs_iff in Hpair as [Hpos Hc].
        apply occursBefore_snoc in Hpos. cbn [left right] in Hcase.
        assert (Ha : a ∈ activeItems).
        { destruct Hpos as [Hpos|[? _]]; [| done].
          by apply occursBefore_elem in Hpos as [? _]. }
        destruct Hcase as [[Hid _]|(_ & Hid & ->)];
          [by destruct (Hfresh a Ha) |].
        destruct Hpos as [Hpos|[_ ->]].
        -- apply occursBefore_elem in Hpos as [_ Hb].
           by destruct (Hfresh b Hb).
        -- by exists a.
      * intros (a & Ha & <- & Hc). right.
        exists {| left := a; right := item |}. cbn [left right]. split.
        -- apply listActiveConflictPairs_iff. split; [| done].
           apply occursBefore_snoc. by right.
        -- right. split; [by apply Hfresh | done].
  - rewrite bool_decide_eq_false_2 by done. cbn [negb].
    split; [constructor |]. split; [done |].
    intros _. split; [by intros ?%elem_of_nil |].
    intros (a & _ & _ & Hc).
    destruct (isConflictPair_allowed _ _ _ Hc) as [_ Hb].
    apply bool_decide_eq_true in Hb.
    apply list_elem_of_singleton in Hb. done.
Qed.

(** ** Further runs on the reference platform *)

Section FurtherRuns.
Import Reference Fixtures.

(** X3 on the two active items in conflict. *)
Lemma active_pairs_are_unresolved_witness :
  {| left := canary; right := blueGreenActive |}
  ∈ listUnresolvedConflictPairs [canary; blueGreenActive]
  ∧ isUnresolvedConflictPair canary blueGreenActive = true.
Proof.
  apply (active_pairs_are_unresolved [canary; blueGreenActive]
           {| left := canary; right := blueGreenActive |}).
  replace (listActiveConflictPairs [canary; blueGreenActive])
    with [{| left := canary; right := blueGreenActive |}]
    by (vm_compute; reflexivity).
  apply list_elem_of_here.
Defined.


(** X10 on a run that meets a stale lock and then creates its own. *)
Lemma task_runs_at_most_once_witness :
  let stale :=
    {| openError := Some {| errorMessage := "EEXIST: file already exists";
                            errorCode := Some "EEXIST" |};
       lockMtimeMs := Some 0; nowAtStat := 1000000; nowAtCheck := 1000000 |} in
  let free :=
    {| openError := None; lockMtimeMs := None; nowAtStat := 1000001;
       nowAtCheck := 1000001 |} in
  (createdCount
     (events
        (lockLoop {| lockPath := "locks/status-store.lock"; timeoutMs := None;
                     retryMs := None; staleMs := None |}
           (fun n : nat => (Returned n, S n)) 999990 [stale; free] 0%nat))
   <= 1)%nat.
Proof.
  intros stale free.
  destruct (task_runs_at_most_once
              {| lockPath := "locks/status-store.lock"; timeoutMs := None;
                 retryMs := None; staleMs := None |}
              (fun n : nat => (Returned n, S n)) 999990 [stale; free] 0%nat)
    as [Hcount _].
  - intros s0 e0 Hthrown. simpl in Hthrown. discriminate.
  - exact Hcount.
Defined.

(** X12 on the move of the pending blue-green item to deprecated. *)
Lemma changedBuckets_moves_one_item_witness :
  let current :=
    {| activeBucket := [canary]; pendingBucket := [blueGreen];
       deprecatedBucket := [] |} in
  let located :=
    {| locatedStatus := pending; locatedIndex := 0%nat; locatedItem := blueGreen |} in
  movedItem blueGreen deprecated "2024-04-01"
  ∈ bucket (changedBuckets current located deprecated "2024-04-01") deprecated
  ∧ length (allItems (changedBuckets current located deprecated "2024-04-01"))
    = length (allItems current).
Proof.
  intros current located.
  destruct (changedBuckets_moves_one_item current "MEM-2024-01-002" located
              deprecated "2024-04-01") as (_ & Hin & _ & _ & Hlen).
  - vm_compute. reflexivity.
  - split; [exact Hin | exact Hlen].
Defined.

(** X13 on an id that the store does not hold. *)
Lemma changeStatus_unknown_id_witness :
  let d := diskOf [canary] [blueGreen] (Some []) in
  result
    (applyStatusChange paths freeLock "MEM-2024-01-009" active
       (Some "2024-04-01") "2024-04-02" d)
  = Some (Thrown (newError "Item not found: MEM-2024-01-009")).
Proof.
  intros d.
  destruct (changeStatus_unknown_id paths freeLock "MEM-2024-01-009" active
              (Some "2024-04-01") "2024-04-02" d) as (Hresult & _).
  - vm_compute. reflexivity.
  - intros it Hit.
    replace (allItems (loadStatusBuckets paths (ensureStatusBuckets paths d)))
      with [canary; blueGreen] in Hit by (vm_compute; reflexivity).
    apply elem_of_cons in Hit as [->|Hit]; [by vm_compute |].
    apply list_elem_of_singleton in Hit as ->. by vm_compute.
  - exact Hresult.
Defined.


(** X15 on the merge of the canary and the blue-green items. *)
Lemma mergeInMemory_touches_two_items_witness :
  let current :=
    {| activeBucket := [canary]; pendingBucket := [blueGreen];
       deprecatedBucket := [] |} in
  ∃ plan,
    mergeInMemory current "MEM-2024-01-001" "MEM-2024-01-002" (VString "canary")
      None "2024-04-01" = Returned plan
    ∧ length (allItems (planBuckets plan)) = length (allItems current).
Proof.
  intros current.
  destruct (mergeInMemory current "MEM-2024-01-001" "MEM-2024-01-002"
              (VString "canary") None "2024-04-01") as [plan|e] eqn:Hplan;
    [| vm_compute in Hplan; discriminate].
  exists plan. split; [reflexivity |].
  by destruct (mergeInMemory_touches_two_items current "MEM-2024-01-001"
                 "MEM-2024-01-002" (VString "canary") None "2024-04-01" plan
                 Hplan) as [_ ?].
Defined.


(** X18 on the loaded store. *)
Lemma commit_audit_reads_saved_items_witness :
  let loaded := loadStatusBuckets paths (diskOf [canary] [blueGreen] (Some [])) in
  let d := diskOf [] [] None in
  postAuditExit paths loaded "2024-04-01" d
  = auditExitCode (runAudit (flattenBuckets loaded) [] "2024-04-01").
Proof.
  intros loaded d.
  destruct (commit_audit_reads_saved_items paths loaded "2024-04-01" d
              (good_allItems loaded
                 (load_good paths (diskOf [canary] [blueGreen] (Some [])))))
    as (_ & _ & Hexit).
  exact Hexit.
Defined.


(** X22 on a memory file with the canary item, expired on the day of the
    prune, and the blue-green item. *)
Lemma prune_keeps_every_item_witness :
  let d :=
    {| activeYml := None; pendingYml := None; deprecatedYml := None;
       memoryYml := Some (stringify [canary; blueGreen]); workspace := [] |} in
  prunePlan paths MemoryYml "2024-07-01" d = Some ([blueGreen], [canary])
  ∧ [blueGreen] ++ [canary]
    ≡ₚ summaryItems (auditMemory paths MemoryYml "2024-07-01" d).
Proof.
  intros d.
  assert (Hplan : prunePlan paths MemoryYml "2024-07-01" d
                  = Some ([blueGreen], [canary])).
  { vm_compute. reflexivity. }
  split; [exact Hplan |].
  by destruct (prune_keeps_every_item paths MemoryYml "2024-07-01" d
                 [blueGreen] [canary] Hplan) as (_ & _ & _ & ?).
Defined.

(** X28 on a store that has only its canonical file. *)
Lemma ensureStatusBuckets_idempotent_witness :
  let d :=
    {| activeYml := None; pendingYml := None; deprecatedYml := None;
       memoryYml := Some (stringify [blueGreen; canary]); workspace := [] |} in
  ensureStatusBuckets paths (ensureStatusBuckets paths d)
  = ensureStatusBuckets paths d.
Proof.
  intros d. exact (ensureStatusBuckets_idempotent (H0 := reference_laws) paths d).
Defined.

End FurtherRuns.
